(** * Disaster events for a settlement: a shallow embedding of
      [game/events.py] and [world/settings.py]

    Python [int] is [Z]; Python [float] is IEEE 754 binary64, taken from the
    executable specification [SpecFloat] of the Standard Library (precision
    53, exponent bound 1024, round to nearest even); dictionaries are
    [gmap]s; mutation of the settlement and of the world is explicit state
    passing in a small state-and-exception monad, in which the state
    survives a raised exception, as it does in Python. *)

From Stdlib Require Import ZArith Lia Bool List String.
From Stdlib Require Import Floats.SpecFloat.
From stdpp Require Import gmap strings.

Open Scope Z_scope.

(** ** Binary64 floating point, as Python computes with it *)

Module Binary64.

Definition prec : Z := 53.
Definition emax : Z := 1024.

Definition float : Type := spec_float.

Definition add : float -> float -> float := SFadd prec emax.
Definition sub : float -> float -> float := SFsub prec emax.
Definition mul : float -> float -> float := SFmul prec emax.
Definition div : float -> float -> float := SFdiv prec emax.

Definition ltb : float -> float -> bool := SFltb.
Definition leb : float -> float -> bool := SFleb.

  (** Correctly rounded conversion of an integer (infinite on overflow). *)
Definition of_Z (n : Z) : float := binary_normalize prec emax n 0 false.

  (** The float a decimal literal [n/d] denotes: the nearest binary64. *)
Definition decimal (n d : Z) : float := div (of_Z n) (of_Z d).

Definition is_nan (x : float) : bool :=
    match x with S754_nan => true | _ => false end.

Definition is_finite (x : float) : bool :=
    match x with S754_zero _ | S754_finite _ _ _ => true | _ => false end.

Definition valid (x : float) : bool := valid_binary prec emax x.

  (** A finite binary64 number: what a Python float is, unless it is an
      infinity or NaN. *)
Definition number (x : float) : bool := valid x && is_finite x.

Definition zero : float := S754_zero false.
Definition one : float := Eval vm_compute in of_Z 1.
Definition c3_0 : float := Eval vm_compute in of_Z 3.
Definition c0_1 : float := Eval vm_compute in decimal 1 10.
Definition c0_2 : float := Eval vm_compute in decimal 2 10.
Definition c0_3 : float := Eval vm_compute in decimal 3 10.
Definition c0_4 : float := Eval vm_compute in decimal 4 10.
Definition c0_5 : float := Eval vm_compute in decimal 5 10.
Definition c1_3 : float := Eval vm_compute in decimal 13 10.

  (** Integer part, fractional numerator and denominator of a magnitude
      [m * 2^e]. *)
Definition int_part (m : positive) (e : Z) : Z :=
    if 0 <=? e then Z.pos m * 2 ^ e else Z.pos m / 2 ^ (- e).

Definition frac_part (m : positive) (e : Z) : Z :=
    if 0 <=? e then 0 else Z.pos m mod 2 ^ (- e).

  (** The integer nearest to [m * 2^e], ties to even. *)
Definition nearest_even (m : positive) (e : Z) : Z :=
    let q := int_part m e in
    let r := frac_part m e in
    match 2 * r ?= 2 ^ (- e) with
    | Lt => q
    | Gt => q + 1
    | Eq => if Z.even q then q else q + 1
    end.

Definition cond_opp (s : bool) (z : Z) : Z := if s then - z else z.

  (** Toward zero, to nearest even, downward and upward integer of a
      finite float; [None] on infinities and NaN. *)
Definition trunc (x : float) : option Z :=
    match x with
    | S754_zero _ => Some 0
    | S754_finite s m e => Some (cond_opp s (int_part m e))
    | _ => None
    end.

Definition round_even (x : float) : option Z :=
    match x with
    | S754_zero _ => Some 0
    | S754_finite s m e => Some (cond_opp s (nearest_even m e))
    | _ => None
    end.

Definition floor (x : float) : option Z :=
    match x with
    | S754_zero _ => Some 0
    | S754_finite false m e => Some (int_part m e)
    | S754_finite true m e =>
        Some (- (int_part m e + (if frac_part m e =? 0 then 0 else 1)))
    | _ => None
    end.

Definition ceil (x : float) : option Z :=
    match x with
    | S754_zero _ => Some 0
    | S754_finite false m e =>
        Some (int_part m e + (if frac_part m e =? 0 then 0 else 1))
    | S754_finite true m e => Some (- int_part m e)
    | _ => None
    end.

  (** *** The rounding function, on integers

      The definitions below restate what [SpecFloat] computes in terms of
      integer arithmetic; the facts that relate them to the operations are
      proved in [Binary64Facts]. *)

Definition emin : Z := SpecFloat.emin prec emax.
Definition fexp : Z -> Z := SpecFloat.fexp prec emax.

  (** The ends of the jitter factor [1 + rnd * 0.2] for [rnd] between
      [0 - 0.5] and [1 - 0.5]: about 0.9 and 1.1. *)
Definition jitter_low : float := add one (mul (sub zero c0_5) c0_2).
Definition jitter_high : float := add one (mul (sub one c0_5) c0_2).


  (** A float in units of [2^emin]: an order embedding of the valid floats
      other than NaN, with [INF] for the infinities. *)
Definition INF : Z := 2 ^ (emax - emin).
Definition U : Z := 2 ^ (- emin).

Definition ord (x : float) : Z :=
    match x with
    | S754_zero _ => 0
    | S754_nan => 0
    | S754_infinity s => cond_opp s INF
    | S754_finite s m e => cond_opp s (Z.pos m * 2 ^ (e - emin))
    end.

  (** The shift register of [SpecFloat] after [n] shifts of [m]. *)
Definition shifted (m : Z) (n : nat) : shr_record :=
    match n with
    | O => Build_shr_record m false false
    | S n' =>
        Build_shr_record (m / 2 ^ Z.of_nat n) (Z.testbit m (Z.of_nat n'))
          (negb (m mod 2 ^ Z.of_nat n' =? 0))
    end.

  (** [m / 2^k] rounded to nearest, ties to even. *)
Definition rne (m k : Z) : Z :=
    (m + 2 ^ (k - 1) - 1 + (m / 2 ^ k) mod 2) / 2 ^ k.

  (** The second half of [binary_round_aux]: renormalisation and overflow. *)
Definition finish (s : bool) (n E : Z) : float :=
    let '(mrs, e) := shr_fexp prec emax n E loc_Exact in
    match shr_m mrs with
    | Z0 => S754_zero s
    | Zpos m => if e <=? emax - prec then S754_finite s m e else S754_infinity s
    | _ => S754_nan
    end.

  (** Rounding of a magnitude [V * 2^(2 * emin)] and of a signed value, in
      units of [2^emin]. *)
Definition Rpos (V : Z) : Z :=
    let E := fexp (Z.log2 V + 1 + 2 * emin) in
    Z.min INF (rne V (E - 2 * emin) * 2 ^ (E - emin)).

Definition R (V : Z) : Z :=
    match V with
    | Z0 => 0
    | Zpos _ => Rpos V
    | Zneg p => - Rpos (Z.pos p)
    end.

  (** [x] is a binary64 number (not NaN) whose position in the order is [z]. *)
Definition good (x : float) (z : Z) : Prop :=
    valid x = true /\ is_nan x = false /\ ord x = z.

End Binary64.

Abbreviation float := Binary64.float.

(** ** Python exceptions and the state-and-exception monad *)

Inductive exn : Type := ValueError | OverflowError | IndexError.

Inductive outcome (A : Type) : Type :=
| Ok (a : A)
| Raise (e : exn).
Arguments Ok {A} a.
Arguments Raise {A} e.

Definition returned {A} (o : outcome A) : bool :=
  match o with Ok _ => true | Raise _ => false end.

(** A computation over a mutable state [S]: the state it leaves is
    meaningful also when it raises. *)
Definition Eff (S A : Type) : Type := S -> outcome A * S.

Definition ret {S A} (a : A) : Eff S A := fun s => (Ok a, s).

Definition bind {S A B} (c : Eff S A) (k : A -> Eff S B) : Eff S B :=
  fun s => match c s with
           | (Ok a, s') => k a s'
           | (Raise e, s') => (Raise e, s')
           end.

Definition lift {S A} (o : outcome A) : Eff S A := fun s => (o, s).
Definition get {S} : Eff S S := fun s => (Ok s, s).
Definition modify {S} (f : S -> S) : Eff S unit := fun s => (Ok tt, f s).
Definition when {S} (b : bool) (c : Eff S unit) : Eff S unit :=
  if b then c else ret tt.

Declare Scope eff_scope.
Delimit Scope eff_scope with eff.
Notation "x <- c ;; k" := (bind c (fun x => k))
  (at level 100, c at next level, k at level 200, right associativity)
  : eff_scope.
Notation "c ;; k" := (bind c (fun _ => k))
  (at level 100, k at level 200, right associativity) : eff_scope.
Open Scope eff_scope.

(** ** Python's numeric conversions *)

(** [float(n)], as in [n * x] for an int [n] and a float [x]. *)
Definition float_of_int (n : Z) : outcome float :=
  let f := Binary64.of_Z n in
  if Binary64.is_finite f then Ok f else Raise OverflowError.

Definition convert (x : float) (r : option Z) : outcome Z :=
  match r with
  | Some z => Ok z
  | None => Raise (if Binary64.is_nan x then ValueError else OverflowError)
  end.

(** [int(x)] *)
Definition int_of_float (x : float) : outcome Z := convert x (Binary64.trunc x).
(** [round(x)], hence also [int(round(x))] *)
Definition py_round (x : float) : outcome Z := convert x (Binary64.round_even x).
Definition py_ceil (x : float) : outcome Z := convert x (Binary64.ceil x).

(** [max(a, b)] on floats keeps [a] unless [b > a]. *)
Definition fmax (a b : float) : float := if Binary64.ltb a b then b else a.

(** ** Data model *)

(** [world/settings.py]: the configuration dataclass. *)
Record WorldSettings : Type := {
  seed : Z;
  width : Z;
  height : Z;
  weather_patterns : gmap string float;
  moisture : float;
  elevation : float;
  temperature : float;
  rainfall_intensity : float;
  disaster_intensity : float;
  seasonal_amplitude : float;
  sea_level : float;
  plate_activity : float;
  base_height : float;
  wind_strength : float;
  wind_dir : Z;
  lapse_rate : float;
  orographic_threshold : float;
  orographic_factor : float;
  river_threshold : float;
  world_changes : bool;
  mountain_elev : float;
  hill_elev : float;
  tundra_temp : float;
  desert_rain : float;
  fantasy_level : float;
  infinite : bool;
  river_branch_threshold : float;
  river_branch_chance : float;
  lake_overflow_fraction : float;
  persistent_lake_fraction : float
}.

(** [game/events.py]: the settlement. *)
Record SettlementState : Type := {
  resources : Z;
  population : Z;
  buildings : Z;
  defenses : Z;
  location : option (Z * Z)
}.

Definition with_resources (v : Z) (s : SettlementState) : SettlementState :=
  {| resources := v; population := population s; buildings := buildings s;
     defenses := defenses s; location := location s |}.
Definition with_population (v : Z) (s : SettlementState) : SettlementState :=
  {| resources := resources s; population := v; buildings := buildings s;
     defenses := defenses s; location := location s |}.
Definition with_buildings (v : Z) (s : SettlementState) : SettlementState :=
  {| resources := resources s; population := population s; buildings := v;
     defenses := defenses s; location := location s |}.

(** Modelled from the spec: the world tile of [world/world.py], which is
    not among the sources; section 3 of the specification gives its
    fields: terrain, the flags flooded, ruined, river and lake, moisture
    and coord. *)
Record Hex : Type := {
  coord : Z * Z;
  terrain : string;
  flooded : bool;
  ruined : bool;
  river : bool;
  lake : bool;
  hex_moisture : float
}.

Definition with_terrain (v : string) (h : Hex) : Hex :=
  {| coord := coord h; terrain := v; flooded := flooded h; ruined := ruined h;
     river := river h; lake := lake h; hex_moisture := hex_moisture h |}.
Definition with_flooded (v : bool) (h : Hex) : Hex :=
  {| coord := coord h; terrain := terrain h; flooded := v; ruined := ruined h;
     river := river h; lake := lake h; hex_moisture := hex_moisture h |}.
Definition with_ruined (v : bool) (h : Hex) : Hex :=
  {| coord := coord h; terrain := terrain h; flooded := flooded h; ruined := v;
     river := river h; lake := lake h; hex_moisture := hex_moisture h |}.
Definition with_river (v : bool) (h : Hex) : Hex :=
  {| coord := coord h; terrain := terrain h; flooded := flooded h;
     ruined := ruined h; river := v; lake := lake h;
     hex_moisture := hex_moisture h |}.
Definition with_lake (v : bool) (h : Hex) : Hex :=
  {| coord := coord h; terrain := terrain h; flooded := flooded h;
     ruined := ruined h; river := river h; lake := v;
     hex_moisture := hex_moisture h |}.
Definition with_moisture (v : float) (h : Hex) : Hex :=
  {| coord := coord h; terrain := terrain h; flooded := flooded h;
     ruined := ruined h; river := river h; lake := lake h;
     hex_moisture := v |}.

(** Modelled from the spec: a river segment [{start, end}] of
    [world/world.py] (section 6 of the specification). *)
Record RiverSegment : Type := { seg_start : Z * Z; seg_end : Z * Z }.

(** Modelled from the spec: the world of [world/world.py], as far as the
    events consume it (section 6 of the specification): the tile lookup
    [get], which creates nothing, the river and lake registries and the
    settings.  A tile handed out by [get] is the world's own object, so a
    mutated tile is stored back under the coordinate it was looked up at. *)
Record World : Type := {
  tiles : gmap (Z * Z) Hex;
  rivers : list RiverSegment;
  lakes : list (Z * Z);
  settings : WorldSettings
}.

Definition world_get (w : World) (x y : Z) : option Hex := tiles w !! (x, y).

Definition with_tile (c : Z * Z) (h : Hex) (w : World) : World :=
  {| tiles := <[c := h]> (tiles w); rivers := rivers w; lakes := lakes w;
     settings := settings w |}.
Definition with_rivers (v : list RiverSegment) (w : World) : World :=
  {| tiles := tiles w; rivers := v; lakes := lakes w; settings := settings w |}.
Definition with_lakes (v : list (Z * Z)) (w : World) : World :=
  {| tiles := tiles w; rivers := rivers w; lakes := v; settings := settings w |}.

(** ** External collaborators *)

(** The noise function [perlin_noise(x, y, seed, scale)] of
    [world/world.py]; the sources do not contain it. *)
Class NoiseOracle : Type := {
  perlin_noise : Z -> Z -> Z -> float -> float
}.

(** Python's [random.Random]: [Random k] is a generator seeded with [k],
    [random] draws a float and [randbelow g n] an integer below [n]; both
    return the advanced generator. *)
Class RandomSource : Type := {
  generator : Type;
  Random : Z -> generator;
  random : generator -> float * generator;
  randbelow : generator -> Z -> Z * generator
}.

(** What the library documents of the draws: [random()] is a binary64 number
    of [[0, 1)], [randbelow(n)] an integer of [[0, n)]. *)
Class Lawful (source : RandomSource) : Prop := {
  random_unit : forall g,
    Binary64.valid (fst (random g)) = true /\
    Binary64.leb Binary64.zero (fst (random g)) = true /\
    Binary64.ltb (fst (random g)) Binary64.one = true;
  randbelow_range : forall g n, 0 < n -> 0 <= fst (randbelow g n) < n
}.

(** [rng.randint(a, b)]: [a + randbelow(b - a + 1)], a [ValueError] on an
    empty range. *)
Definition randint {source : RandomSource} (a b : Z) : Eff generator Z :=
  fun g =>
    if a <=? b
    then let '(k, g') := randbelow g (b - a + 1) in (Ok (a + k), g')
    else (Raise ValueError, g).

(** [itertools.accumulate(weights)]: the running sums. *)
Fixpoint accumulate_from (acc : float) (ws : list float) : list float :=
  match ws with
  | [] => []
  | w :: ws' => let acc' := Binary64.add acc w in acc' :: accumulate_from acc' ws'
  end.

Definition accumulate (ws : list float) : list float :=
  match ws with
  | [] => []
  | w :: ws' => w :: accumulate_from w ws'
  end.

(** [bisect.bisect_right(a, x, lo, hi)]: the loop halves [hi - lo], so
    [hi - lo] rounds suffice. *)
Fixpoint bisect_loop (rounds : nat) (a : list float) (x : float) (lo hi : nat)
  : nat :=
  match rounds with
  | O => lo
  | S rounds' =>
      if (lo <? hi)%nat then
        let mid := ((lo + hi) / 2)%nat in
        if Binary64.ltb x (nth mid a Binary64.zero)
        then bisect_loop rounds' a x lo mid
        else bisect_loop rounds' a x (mid + 1)%nat hi
      else lo
  end.

Definition bisect (a : list float) (x : float) (lo hi : nat) : nat :=
  bisect_loop (hi - lo) a x lo hi.

(** [rng.choices(population, weights=weights, k=1)[0]], as CPython 3.9 and
    later implement it: a [ValueError] unless the total weight is positive
    and finite, otherwise one draw of [random()] located in the cumulative
    weights. *)
Definition choices {source : RandomSource} {A : Type}
    (population : list A) (weights : list float) : Eff generator A :=
  fun g =>
    let cum_weights := accumulate weights in
    if negb (length cum_weights =? length population)%nat
    then (Raise ValueError, g)
    else
      match last cum_weights with
      | None => (Raise IndexError, g)
      | Some t =>
          let total := Binary64.add t Binary64.zero in
          if Binary64.leb total Binary64.zero then (Raise ValueError, g)
          else if negb (Binary64.is_finite total) then (Raise ValueError, g)
          else
            let '(r, g') := random g in
            let hi := (length population - 1)%nat in
            match population !! bisect cum_weights (Binary64.mul r total) 0 hi
            with
            | Some a => (Ok a, g')
            | None => (Raise IndexError, g')
            end
      end.

(** ** Events *)

Inductive Event : Type := Flood | Drought | Raid | Earthquake | Hurricane.

Definition name (e : Event) : string :=
  match e with
  | Flood => "flood"
  | Drought => "drought"
  | Raid => "raid"
  | Earthquake => "earthquake"
  | Hurricane => "hurricane"
  end.

Definition ALL_EVENTS : list Event := [Flood; Drought; Raid; Earthquake; Hurricane].

(** What an event mutates: the settlement and the world. *)
Definition Store : Type := SettlementState * World.

Definition get_state : Eff Store SettlementState := fun s => (Ok (fst s), s).
Definition get_world : Eff Store World := fun s => (Ok (snd s), s).
Definition set_resources (v : Z) : Eff Store unit :=
  modify (fun s => (with_resources v (fst s), snd s)).
Definition set_population (v : Z) : Eff Store unit :=
  modify (fun s => (with_population v (fst s), snd s)).
Definition set_buildings (v : Z) : Eff Store unit :=
  modify (fun s => (with_buildings v (fst s), snd s)).

(** The guard [if state.location and world.settings.world_changes], the
    lookup [hex_ = world.get( *state.location)] and the test [if hex_]: when
    all succeed, [k] mutates the tile, the settlement and the world, and
    the tile is the world's own object, stored under the looked up
    coordinate. *)
Definition on_tile (k : Hex -> Store -> Hex * Store) : Eff Store unit :=
  state <- get_state ;;
  world <- get_world ;;
  match location state with
  | Some (x, y) =>
      if world_changes (settings world) then
        match world_get world x y with
        | Some hex_ =>
            modify (fun s => let '(h, (st, w)) := k hex_ s in
                             (st, with_tile (x, y) h w))
        | None => ret tt
        end
      else ret tt
  | None => ret tt
  end.

(** Severing the river at a tile, as Flood and Hurricane do: the flag is
    cleared, the segments that start or end at the tile leave
    [world.rivers], and the tile's coordinate joins [world.lakes] unless it
    is there. *)
Definition sever_river (h : Hex) (w : World) : Hex * World :=
  let h := with_river false h in
  let w :=
    with_rivers
      (filter (fun seg => seg_start seg <> coord h /\ seg_end seg <> coord h)
              (rivers w)) w in
  let w := if decide (coord h ∈ lakes w) then w
           else with_lakes (lakes w ++ [coord h]) w in
  (h, w).

Module Event.
Section Severity.
Context {noise : NoiseOracle} {source : RandomSource}.

  (** The jitter key [(x << 16) ^ (y << 8) ^ seed]. *)
Definition jitter_key (x y sd : Z) : Z :=
    Z.lxor (Z.lxor (Z.shiftl x 16) (Z.shiftl y 8)) sd.

  (** The value of [base] when [severity] reaches its [return]. *)
Definition base (state : SettlementState) (world : World) : float :=
    match location state with
    | None => Binary64.one
    | Some (x, y) =>
        let n := perlin_noise x y (seed (settings world)) Binary64.c0_1 in
        let base := Binary64.add Binary64.c0_3 (Binary64.mul n Binary64.c3_0) in
        let rnd :=
          Binary64.sub
            (fst (random (Random (jitter_key x y (seed (settings world))))))
            Binary64.c0_5 in
        Binary64.mul base
          (Binary64.add Binary64.one (Binary64.mul rnd Binary64.c0_2))
    end.

Definition severity (state : SettlementState) (world : World) : float :=
    Binary64.mul (base state world)
      (Binary64.add Binary64.one (disaster_intensity (settings world))).
End Severity.
End Event.

Module Flood.
Section Apply.
Context {noise : NoiseOracle} {source : RandomSource}.

Definition tile (sev : float) (hex_ : Hex) (s : Store) : Hex * Store :=
    let '(state, world) := s in
    let hex_ := with_flooded true hex_ in
    if Binary64.ltb Binary64.c1_3 sev then
      let '(hex_, world) :=
        if river hex_ then
          let '(hex_, world) := sever_river hex_ world in
          (with_terrain "water" (with_lake true hex_), world)
        else (hex_, world) in
      if String.eqb (terrain hex_) "hills"
      then (with_terrain "mountains" hex_, (state, world))
      else (with_lake true (with_terrain "water" hex_), (state, world))
    else (hex_, (state, world)).

Definition apply : Eff Store unit :=
    state <- get_state ;;
    world <- get_world ;;
    let sev := Event.severity state world in
    let rnd :=
      Random ((match location state with Some (x, _) => x | None => 0 end) * 17
              + (match location state with Some (_, y) => y | None => 0 end) * 23
              + seed (settings world)) in
    b <- lift (float_of_int (buildings state)) ;;
    r <- lift (py_round (Binary64.mul (Binary64.mul Binary64.c0_3 b) sev)) ;;
    j <- lift (fst (randint 0 1 rnd)) ;;
    let loss := Z.max 0 (r - defenses state + j) in
    set_buildings (Z.max 0 (buildings state - loss)) ;;
    l <- lift (float_of_int (loss * 2)) ;;
    r <- lift (py_round (Binary64.mul l sev)) ;;
    state <- get_state ;;
    let res_loss := Z.min (resources state) r in
    set_resources (resources state - res_loss) ;;
    on_tile (tile sev).
End Apply.
End Flood.

Module Drought.
Section Apply.
Context {noise : NoiseOracle} {source : RandomSource}.

Definition tile (sev : float) (hex_ : Hex) (s : Store) : Hex * Store :=
    let '(state, world) := s in
    let hex_ :=
      with_moisture
        (fmax Binary64.zero
           (Binary64.sub (hex_moisture hex_) (Binary64.mul Binary64.c0_1 sev)))
        hex_ in
    if Binary64.ltb Binary64.c1_3 sev then
      if lake hex_ then
        let hex_ := with_terrain "plains" (with_lake false hex_) in
        (hex_, (state,
                with_lakes (filter (fun c => c <> coord hex_) (lakes world))
                  world))
      else (with_terrain "desert" hex_, (state, world))
    else (hex_, (state, world)).

Definition apply : Eff Store unit :=
    state <- get_state ;;
    world <- get_world ;;
    let sev := Event.severity state world in
    r <- lift (float_of_int (resources state)) ;;
    res_loss <- lift (int_of_float
                        (Binary64.mul (Binary64.mul Binary64.c0_2 r) sev)) ;;
    set_resources (Z.max 0 (resources state - res_loss)) ;;
    p <- lift (float_of_int (population state)) ;;
    pop_loss <- lift (int_of_float
                        (Binary64.mul (Binary64.mul Binary64.c0_1 p) sev)) ;;
    set_population (Z.max 0 (population state - pop_loss)) ;;
    on_tile (tile sev).
End Apply.
End Drought.

Module Raid.
Section Apply.
Context {noise : NoiseOracle} {source : RandomSource}.

Definition tile (sev : float) (hex_ : Hex) (s : Store) : Hex * Store :=
    let '(state, world) := s in
    let hex_ := with_ruined true hex_ in
    if Binary64.ltb Binary64.c1_3 sev then
      let state := with_buildings 0 state in
      if String.eqb (terrain hex_) "hills"
      then (with_terrain "mountains" hex_, (state, world))
      else (hex_, (state, world))
    else (hex_, (state, world)).

Definition apply : Eff Store unit :=
    state <- get_state ;;
    world <- get_world ;;
    let sev := Event.severity state world in
    d <- lift (float_of_int (5 - defenses state)) ;;
    e <- lift (int_of_float (Binary64.mul d sev)) ;;
    let effective := Z.max 1 e in
    let res_loss := Z.min (resources state) (effective * 3) in
    let bld_loss := Z.max 0 (effective - 1) in
    set_resources (resources state - res_loss) ;;
    set_buildings (Z.max 0 (buildings state - bld_loss)) ;;
    on_tile (tile sev).
End Apply.
End Raid.

Module Earthquake.
Section Apply.
Context {noise : NoiseOracle} {source : RandomSource}.

Definition tile (sev : float) (hex_ : Hex) (s : Store) : Hex * Store :=
    if Binary64.ltb Binary64.c1_3 sev
    then (with_terrain "mountains" hex_, s)
    else (hex_, s).

Definition apply : Eff Store unit :=
    state <- get_state ;;
    world <- get_world ;;
    let sev := Event.severity state world in
    b <- lift (float_of_int (buildings state)) ;;
    bld_loss <- lift (int_of_float
                        (Binary64.mul (Binary64.mul Binary64.c0_4 b) sev)) ;;
    p <- lift (float_of_int (population state)) ;;
    pop_loss <- lift (int_of_float
                        (Binary64.mul (Binary64.mul Binary64.c0_2 p) sev)) ;;
    set_buildings (Z.max 0 (buildings state - bld_loss)) ;;
    set_population (Z.max 0 (population state - pop_loss)) ;;
    on_tile (tile sev).
End Apply.
End Earthquake.

Module Hurricane.
Section Apply.
Context {noise : NoiseOracle} {source : RandomSource}.

Definition tile (sev : float) (hex_ : Hex) (s : Store) : Hex * Store :=
    let '(state, world) := s in
    let hex_ := with_flooded true hex_ in
    if Binary64.ltb Binary64.c1_3 sev then
      let '(hex_, world) :=
        if river hex_ then sever_river hex_ world else (hex_, world) in
      (with_lake true (with_terrain "water" hex_), (state, world))
    else (hex_, (state, world)).

Definition apply : Eff Store unit :=
    state <- get_state ;;
    world <- get_world ;;
    let sev := Event.severity state world in
    b <- lift (float_of_int (buildings state)) ;;
    l <- lift (int_of_float
                 (Binary64.mul (Binary64.mul Binary64.c0_3 b) sev)) ;;
    let loss := Z.max 0 (l - defenses state) in
    set_buildings (Z.max 0 (buildings state - loss)) ;;
    r <- lift (float_of_int (resources state)) ;;
    l <- lift (int_of_float
                 (Binary64.mul (Binary64.mul r Binary64.c0_3) sev)) ;;
    state <- get_state ;;
    let res_loss := Z.min (resources state) l in
    set_resources (resources state - res_loss) ;;
    on_tile (tile sev).
End Apply.
End Hurricane.

(** [event.apply(state, world)], dispatched on the class of the event. *)
Definition apply {noise : NoiseOracle} {source : RandomSource} (e : Event)
  : Eff Store unit :=
  match e with
  | Flood => Flood.apply
  | Drought => Drought.apply
  | Raid => Raid.apply
  | Earthquake => Earthquake.apply
  | Hurricane => Hurricane.apply
  end.

(** The settlement and the world an event leaves, whether it returned or
    raised. *)
Definition settlement_after {noise : NoiseOracle} {source : RandomSource}
    (e : Event) (s : Store) : SettlementState :=
  fst (snd (apply e s)).
Definition world_after {noise : NoiseOracle} {source : RandomSource}
    (e : Event) (s : Store) : World :=
  snd (snd (apply e s)).

(** ** The event system *)

Module EventSystem.
Section Methods.
Context {noise : NoiseOracle} {source : RandomSource}.

Record t : Type := {
    settings : WorldSettings;
    rng : generator;
    event_weights : gmap string float;
    turn_counter : Z;
    next_event_turn : Z
  }.

Definition with_rng (g : generator) (self : t) : t :=
    {| settings := settings self; rng := g;
       event_weights := event_weights self;
       turn_counter := turn_counter self;
       next_event_turn := next_event_turn self |}.
Definition with_turn_counter (v : Z) (self : t) : t :=
    {| settings := settings self; rng := rng self;
       event_weights := event_weights self;
       turn_counter := v;
       next_event_turn := next_event_turn self |}.
Definition with_next_event_turn (v : Z) (self : t) : t :=
    {| settings := settings self; rng := rng self;
       event_weights := event_weights self;
       turn_counter := turn_counter self;
       next_event_turn := v |}.

  (** A method of [self.rng], run on the generator the system owns. *)
Definition on_rng {A} (c : Eff generator A) : Eff t A :=
    fun self => let '(o, g) := c (rng self) in (o, with_rng g self).

Definition default_event_weights : gmap string float :=
    <["flood" := Binary64.one]>
      (<["drought" := Binary64.one]>
         (<["raid" := Binary64.one]>
            (<["earthquake" := Binary64.one]>
               (<["hurricane" := Binary64.one]> ∅)))).

Definition min_base (s : WorldSettings) : outcome Z :=
    match int_of_float
            (Binary64.mul (Binary64.sub (Binary64.of_Z 1) (disaster_intensity s))
               (Binary64.of_Z 20)) with
    | Ok a => Ok (10 + a)
    | Raise e => Raise e
    end.

Definition max_base (s : WorldSettings) : outcome Z :=
    match int_of_float
            (Binary64.mul (Binary64.sub (Binary64.of_Z 1) (disaster_intensity s))
               (Binary64.of_Z 40)) with
    | Ok a => Ok (20 + a)
    | Raise e => Raise e
    end.

Definition weather_factor (s : WorldSettings) : float :=
    Binary64.add Binary64.one (Binary64.mul (moisture s) Binary64.c0_5).

Definition _schedule_next : Eff t Z :=
    self <- get ;;
    min_base <- lift (min_base (settings self)) ;;
    max_base <- lift (max_base (settings self)) ;;
    base <- on_rng (randint min_base max_base) ;;
    let weather_factor := weather_factor (settings self) in
    b <- lift (float_of_int base) ;;
    d <- lift (int_of_float (Binary64.mul b weather_factor)) ;;
    let delay := Z.max 2 d in
    ret (turn_counter self + delay).

  (** [EventSystem(settings, rng, event_weights)]; [fresh] is the generator
      [random.Random()] would make, seeded by the operating system. *)
Definition __init__ (fresh : generator) (settings : WorldSettings)
      (rng : option generator) (event_weights : option (gmap string float))
    : outcome t :=
    let self :=
      {| settings := settings;
         rng := match rng with Some g => g | None => fresh end;
         event_weights :=
           match event_weights with
           | Some w => if decide (w = ∅) then default_event_weights else w
           | None => default_event_weights
           end;
         turn_counter := 0;
         next_event_turn := 0 |} in
    match _schedule_next self with
    | (Ok n, self) => Ok (with_next_event_turn n self)
    | (Raise e, _) => Raise e
    end.

Definition weights (self : t) : list float :=
    let flood_base := default Binary64.one (event_weights self !! "flood") in
    let drought_base := default Binary64.one (event_weights self !! "drought") in
    let raid_base := default Binary64.one (event_weights self !! "raid") in
    let earthquake_base :=
      default Binary64.one (event_weights self !! "earthquake") in
    let hurricane_base :=
      default Binary64.one (event_weights self !! "hurricane") in
    let rain :=
      default Binary64.c0_1 (weather_patterns (settings self) !! "rain") in
    let dry :=
      default Binary64.c0_1 (weather_patterns (settings self) !! "dry") in
    let flood_w :=
      Binary64.mul (Binary64.mul flood_base rain) (moisture (settings self)) in
    let drought_w :=
      Binary64.mul (Binary64.mul drought_base dry)
        (Binary64.sub (Binary64.of_Z 1) (moisture (settings self))) in
    let raid_w := raid_base in
    let earthquake_w :=
      Binary64.mul earthquake_base (plate_activity (settings self)) in
    let hurricane_w :=
      Binary64.mul (Binary64.mul hurricane_base rain)
        (moisture (settings self)) in
    [flood_w; drought_w; raid_w; earthquake_w; hurricane_w].

Definition _choose_event : Eff t Event :=
    self <- get ;;
    on_rng (choices ALL_EVENTS (weights self)).

  (** The system, the settlement and the world a call of [advance_turn]
      works on. *)
Definition on_self {A} (c : Eff t A) : Eff (t * Store) A :=
    fun s => let '(o, self) := c (fst s) in (o, (self, snd s)).
Definition on_store {A} (c : Eff Store A) : Eff (t * Store) A :=
    fun s => let '(o, st) := c (snd s) in (o, (fst s, st)).

Definition advance_turn : Eff (t * Store) (option Event) :=
    on_self (modify (fun self => with_turn_counter (turn_counter self + 1) self)) ;;
    self <- on_self get ;;
    if next_event_turn self <=? turn_counter self then
      event <- on_self _choose_event ;;
      on_store (apply event) ;;
      n <- on_self _schedule_next ;;
      on_self (modify (with_next_event_turn n)) ;;
      ret (Some event)
    else ret None.

  (** A driver that calls [advance_turn] [n] times and collects what the
      calls return; an exception ends the run. *)
Fixpoint run (n : nat) : Eff (t * Store) (list (option Event)) :=
    match n with
    | O => ret []
    | S n' =>
        r <- advance_turn ;;
        rs <- run n' ;;
        ret (r :: rs)
    end.
End Methods.
End EventSystem.

(** ** What the specification states, as definitions *)

(** Section 3, the invariant of the settlement: no counter is negative. *)
Definition nonneg (s : SettlementState) : Prop :=
  0 <= resources s /\ 0 <= population s /\ 0 <= buildings s /\ 0 <= defenses s.





Definition with_disaster_intensity (v : float) (s : WorldSettings)
  : WorldSettings :=
  {| seed := seed s; width := width s; height := height s;
     weather_patterns := weather_patterns s; moisture := moisture s;
     elevation := elevation s; temperature := temperature s;
     rainfall_intensity := rainfall_intensity s;
     disaster_intensity := v;
     seasonal_amplitude := seasonal_amplitude s; sea_level := sea_level s;
     plate_activity := plate_activity s; base_height := base_height s;
     wind_strength := wind_strength s; wind_dir := wind_dir s;
     lapse_rate := lapse_rate s;
     orographic_threshold := orographic_threshold s;
     orographic_factor := orographic_factor s;
     river_threshold := river_threshold s; world_changes := world_changes s;
     mountain_elev := mountain_elev s; hill_elev := hill_elev s;
     tundra_temp := tundra_temp s; desert_rain := desert_rain s;
     fantasy_level := fantasy_level s; infinite := infinite s;
     river_branch_threshold := river_branch_threshold s;
     river_branch_chance := river_branch_chance s;
     lake_overflow_fraction := lake_overflow_fraction s;
     persistent_lake_fraction := persistent_lake_fraction s |}.

Definition with_weather_patterns (v : gmap string float) (s : WorldSettings)
  : WorldSettings :=
  {| seed := seed s; width := width s; height := height s;
     weather_patterns := v; moisture := moisture s;
     elevation := elevation s; temperature := temperature s;
     rainfall_intensity := rainfall_intensity s;
     disaster_intensity := disaster_intensity s;
     seasonal_amplitude := seasonal_amplitude s; sea_level := sea_level s;
     plate_activity := plate_activity s; base_height := base_height s;
     wind_strength := wind_strength s; wind_dir := wind_dir s;
     lapse_rate := lapse_rate s;
     orographic_threshold := orographic_threshold s;
     orographic_factor := orographic_factor s;
     river_threshold := river_threshold s; world_changes := world_changes s;
     mountain_elev := mountain_elev s; hill_elev := hill_elev s;
     tundra_temp := tundra_temp s; desert_rain := desert_rain s;
     fantasy_level := fantasy_level s; infinite := infinite s;
     river_branch_threshold := river_branch_threshold s;
     river_branch_chance := river_branch_chance s;
     lake_overflow_fraction := lake_overflow_fraction s;
     persistent_lake_fraction := persistent_lake_fraction s |}.



(** Section 6, the contract the specification assumes of the noise
    oracle: binary64 values of [[-1, 1]]. *)
Definition noise_in_unit_range (noise : NoiseOracle) : Prop :=
  forall x y sd scale,
    Binary64.valid (perlin_noise x y sd scale) = true /\
    Binary64.leb (Binary64.of_Z (-1)) (perlin_noise x y sd scale) = true /\
    Binary64.leb (perlin_noise x y sd scale) Binary64.one = true.

Module Spec.
Section Scheduling.
Context {source : RandomSource}.

  (** Section 4.3, the bounds of the delay range as the specification
      words them: [10 + round((1 - disaster_intensity) * 20)] and
      [20 + round((1 - disaster_intensity) * 40)]. *)
Definition min_base (s : WorldSettings) : outcome Z :=
    match py_round
            (Binary64.mul (Binary64.sub (Binary64.of_Z 1) (disaster_intensity s))
               (Binary64.of_Z 20)) with
    | Ok a => Ok (10 + a)
    | Raise e => Raise e
    end.

Definition max_base (s : WorldSettings) : outcome Z :=
    match py_round
            (Binary64.mul (Binary64.sub (Binary64.of_Z 1) (disaster_intensity s))
               (Binary64.of_Z 40)) with
    | Ok a => Ok (20 + a)
    | Raise e => Raise e
    end.

End Scheduling.
End Spec.

(** Section 8, the upper end of the scheduled gap:
    [ceil(max_base * (1 + moisture * 0.5))]. *)
Definition gap_bound (s : WorldSettings) : outcome Z :=
  match EventSystem.max_base s with
  | Ok hi =>
      match float_of_int hi with
      | Ok h => py_ceil (Binary64.mul h (EventSystem.weather_factor s))
      | Raise e => Raise e
      end
  | Raise e => Raise e
  end.

(** The total the weighted choice compares with zero. *)
Definition total_weight {source : RandomSource} (self : EventSystem.t)
  : float :=
  match last (accumulate (EventSystem.weights self)) with
  | Some t => Binary64.add t Binary64.zero
  | None => Binary64.zero
  end.

Definition with_event_settings {source : RandomSource} (v : WorldSettings)
    (self : EventSystem.t) : EventSystem.t :=
  {| EventSystem.settings := v; EventSystem.rng := EventSystem.rng self;
     EventSystem.event_weights := EventSystem.event_weights self;
     EventSystem.turn_counter := EventSystem.turn_counter self;
     EventSystem.next_event_turn := EventSystem.next_event_turn self |}.

Definition with_moisture_setting (v : float) (s : WorldSettings)
  : WorldSettings :=
  {| seed := seed s; width := width s; height := height s;
     weather_patterns := weather_patterns s; moisture := v;
     elevation := elevation s; temperature := temperature s;
     rainfall_intensity := rainfall_intensity s;
     disaster_intensity := disaster_intensity s;
     seasonal_amplitude := seasonal_amplitude s; sea_level := sea_level s;
     plate_activity := plate_activity s; base_height := base_height s;
     wind_strength := wind_strength s; wind_dir := wind_dir s;
     lapse_rate := lapse_rate s;
     orographic_threshold := orographic_threshold s;
     orographic_factor := orographic_factor s;
     river_threshold := river_threshold s; world_changes := world_changes s;
     mountain_elev := mountain_elev s; hill_elev := hill_elev s;
     tundra_temp := tundra_temp s; desert_rain := desert_rain s;
     fantasy_level := fantasy_level s; infinite := infinite s;
     river_branch_threshold := river_branch_threshold s;
     river_branch_chance := river_branch_chance s;
     lake_overflow_fraction := lake_overflow_fraction s;
     persistent_lake_fraction := persistent_lake_fraction s |}.

Definition with_plate_activity (v : float) (s : WorldSettings)
  : WorldSettings :=
  {| seed := seed s; width := width s; height := height s;
     weather_patterns := weather_patterns s; moisture := moisture s;
     elevation := elevation s; temperature := temperature s;
     rainfall_intensity := rainfall_intensity s;
     disaster_intensity := disaster_intensity s;
     seasonal_amplitude := seasonal_amplitude s; sea_level := sea_level s;
     plate_activity := v; base_height := base_height s;
     wind_strength := wind_strength s; wind_dir := wind_dir s;
     lapse_rate := lapse_rate s;
     orographic_threshold := orographic_threshold s;
     orographic_factor := orographic_factor s;
     river_threshold := river_threshold s; world_changes := world_changes s;
     mountain_elev := mountain_elev s; hill_elev := hill_elev s;
     tundra_temp := tundra_temp s; desert_rain := desert_rain s;
     fantasy_level := fantasy_level s; infinite := infinite s;
     river_branch_threshold := river_branch_threshold s;
     river_branch_chance := river_branch_chance s;
     lake_overflow_fraction := lake_overflow_fraction s;
     persistent_lake_fraction := persistent_lake_fraction s |}.

(** ** Concrete oracles, settings, settlements and worlds *)

Module Scenario.

  (** A noise field that is 0 everywhere, and one that sits at the lower end
      of the range the specification assumes. *)
Definition flat_noise : NoiseOracle :=
    {| perlin_noise := fun _ _ _ _ => Binary64.zero |}.
Definition low_noise : NoiseOracle :=
    {| perlin_noise := fun _ _ _ _ => Binary64.of_Z (-1) |}.

  (** A linear congruential generator in the place of the Mersenne
      Twister; its [random()] is the midpoint of the unit interval. *)
Definition lcg (g : Z) : Z := (g * 1103515245 + 12345) mod 2147483648.
Definition lcg_source : RandomSource :=
    {| generator := Z;
       Random := fun k => k;
       random := fun g => (Binary64.c0_5, lcg g);
       randbelow := fun g n => (g mod n, lcg g) |}.

  (** [WorldSettings()]: the defaults of [world/settings.py]. *)
Definition default_settings : WorldSettings :=
    {| seed := 0; width := 50; height := 50;
       weather_patterns :=
         <["rain" := Binary64.decimal 3 10]>
           (<["dry" := Binary64.decimal 5 10]>
              (<["snow" := Binary64.decimal 2 10]> ∅));
       moisture := Binary64.decimal 5 10;
       elevation := Binary64.decimal 5 10;
       temperature := Binary64.decimal 5 10;
       rainfall_intensity := Binary64.decimal 5 10;
       disaster_intensity := Binary64.zero;
       seasonal_amplitude := Binary64.zero;
       sea_level := Binary64.decimal 3 10;
       plate_activity := Binary64.decimal 5 10;
       base_height := Binary64.decimal 5 10;
       wind_strength := Binary64.decimal 5 10;
       wind_dir := 1;
       lapse_rate := Binary64.decimal 3 10;
       orographic_threshold := Binary64.decimal 6 10;
       orographic_factor := Binary64.decimal 3 10;
       river_threshold := Binary64.decimal 1 10;
       world_changes := true;
       mountain_elev := Binary64.decimal 8 10;
       hill_elev := Binary64.decimal 6 10;
       tundra_temp := Binary64.decimal 25 100;
       desert_rain := Binary64.decimal 2 10;
       fantasy_level := Binary64.zero;
       infinite := false;
       river_branch_threshold := Binary64.decimal 3 10;
       river_branch_chance := Binary64.decimal 5 100;
       lake_overflow_fraction := Binary64.decimal 15 10;
       persistent_lake_fraction := Binary64.decimal 17 10 |}.

Definition doubled : WorldSettings :=
    with_disaster_intensity (Binary64.of_Z 2) default_settings.
Definition extreme : WorldSettings :=
    with_disaster_intensity (Binary64.of_Z 4) default_settings.

  (** Settings with [moisture = 1e308]. *)
Definition soaked : WorldSettings :=
    with_moisture_setting (Binary64.of_Z (10 ^ 308)) default_settings.

  (** Settings without any weather pattern, and settings in which, with
      [zero_weights], all five weights are zero. *)
Definition no_weather : WorldSettings :=
    with_weather_patterns ∅ default_settings.
Definition still : WorldSettings :=
    with_plate_activity Binary64.zero
      (with_moisture_setting Binary64.zero default_settings).
Definition zero_weights : gmap string float :=
    <["flood" := Binary64.zero]>
      (<["drought" := Binary64.zero]>
         (<["raid" := Binary64.zero]>
            (<["earthquake" := Binary64.zero]>
               (<["hurricane" := Binary64.zero]> ∅)))).

  (** [SettlementState()] and the same settlement at the origin. *)
Definition homeless : SettlementState :=
    {| resources := 100; population := 100; buildings := 10; defenses := 0;
       location := None |}.
Definition village : SettlementState :=
    {| resources := 100; population := 100; buildings := 10; defenses := 0;
       location := Some (0, 0) |}.

  (** A plains tile the river flows through, at the origin. *)
Definition river_plain : Hex :=
    {| coord := (0, 0); terrain := "plains"; flooded := false; ruined := false;
       river := true; lake := false; hex_moisture := Binary64.decimal 5 10 |}.

Definition world_of (s : WorldSettings) : World :=
    {| tiles := {[ (0, 0) := river_plain ]};
       rivers := [ {| seg_start := (0, 0); seg_end := (0, 1) |} ];
       lakes := [];
       settings := s |}.


  (** [EventSystem(WorldSettings(), random.Random(42))] over [lcg_source],
      as [__init__] leaves it, and a system with [zero_weights] in the
      [still] settings. *)
Definition started : EventSystem.t :=
    @EventSystem.Build_t lcg_source default_settings 1250496027
      EventSystem.default_event_weights 0 51.
Definition weightless : EventSystem.t :=
    @EventSystem.Build_t lcg_source still 42 zero_weights 0 1.

End Scenario.

(** ** Further notions, for the properties of the rules and of the system *)

(** [x] is a zero, NaN, or carries the sign [neg]: what is known of the
    sign of a product from the signs of its factors. *)
Definition sign_ok (neg : bool) (x : float) : bool :=
  match x with
  | S754_finite s _ _ | S754_infinity s => Bool.eqb s neg
  | _ => true
  end.

(** The next event lies strictly in the future. *)
Definition scheduled_ahead {source : RandomSource} (self : EventSystem.t)
  : Prop :=
  EventSystem.turn_counter self < EventSystem.next_event_turn self.

Definition with_event_weights {source : RandomSource}
    (v : gmap string float) (self : EventSystem.t) : EventSystem.t :=
  {| EventSystem.settings := EventSystem.settings self;
     EventSystem.rng := EventSystem.rng self;
     EventSystem.event_weights := v;
     EventSystem.turn_counter := EventSystem.turn_counter self;
     EventSystem.next_event_turn := EventSystem.next_event_turn self |}.

(** The names under which [_choose_event] looks up its multipliers. *)
Definition event_names : list string :=
  ["flood"; "drought"; "raid"; "earthquake"; "hurricane"]%string.

(** No two adjacent calls of a run returned an event. *)
Fixpoint events_spaced (rs : list (option Event)) : bool :=
  match rs with
  | [] => true
  | r :: rs' =>
      negb (bool_decide (is_Some r) &&
            match rs' with Some _ :: _ => true | _ => false end)
      && events_spaced rs'
  end.

(** The terrain rule of each event class: what its [apply] does to the
    tile of the settlement once the guards have let it through. *)
Definition tile_rule {noise : NoiseOracle} {source : RandomSource}
    (e : Event) : float -> Hex -> Store -> Hex * Store :=
  match e with
  | Flood => Flood.tile
  | Drought => Drought.tile
  | Raid => Raid.tile
  | Earthquake => Earthquake.tile
  | Hurricane => Hurricane.tile
  end.

(** A river segment touches a coordinate. *)
Definition touches (c : Z * Z) (seg : RiverSegment) : Prop :=
  seg_start seg = c \/ seg_end seg = c.

(** A weight that contributes nothing: a zero of either sign, or NaN. *)
Definition weightless_weight (w : float) : bool :=
  match w with
  | S754_zero _ | S754_nan => true
  | _ => false
  end.

Definition with_defenses (v : Z) (s : SettlementState) : SettlementState :=
  {| resources := resources s; population := population s;
     buildings := buildings s; defenses := v; location := location s |}.

(** Further situations to run the rules in. *)
Module Cases.

  (** A system in the [still] settings with the default weights: Flood,
      Earthquake and Hurricane weigh nothing. *)
Definition parched : EventSystem.t :=
    @EventSystem.Build_t Scenario.lcg_source Scenario.still 42
      EventSystem.default_event_weights 0 1.

  (** A system whose weight table is empty. *)
Definition tableless : EventSystem.t :=
    @EventSystem.Build_t Scenario.lcg_source Scenario.default_settings 42 ∅ 0 51.

  (** A settlement with more buildings than a float can count. *)
Definition crowded : SettlementState :=
    {| resources := 100; population := 100; buildings := 2 ^ 1024;
       defenses := 0; location := Some (0, 0) |}.

  (** Settings whose [disaster_intensity] is NaN. *)
Definition broken : WorldSettings :=
    with_disaster_intensity S754_nan Scenario.default_settings.

End Cases.

(** ** The damage rules, as the specification words them *)


Module SpecRules.




End SpecRules.

(** * Facts about binary64 arithmetic *)

Module Binary64Facts.
Import Binary64.

Lemma emin_val : emin = -1074. Proof. reflexivity. Qed.
Lemma fexp_eq e : fexp e = Z.max (e - 53) (-1074). Proof. reflexivity. Qed.

(** digits *)
Lemma digits2_pos_log2 p : Z.pos (digits2_pos p) = Z.log2 (Z.pos p) + 1.
Proof.
  induction p as [p IH|p IH|]; simpl digits2_pos; try reflexivity.
  - rewrite Pos2Z.inj_succ, IH.
    change (Z.pos p~1) with (2 * Z.pos p + 1).
    rewrite Z.log2_succ_double by lia. lia.
  - rewrite Pos2Z.inj_succ, IH.
    change (Z.pos p~0) with (2 * Z.pos p).
    rewrite Z.log2_double by lia. lia.
Qed.

Lemma Zdigits2_log2 m : 0 < m -> Zdigits2 m = Z.log2 m + 1.
Proof. destruct m; try lia. intros _. apply digits2_pos_log2. Qed.

(** shr_1 *)
Lemma shr_1_spec m r s :
  0 <= m -> shr_1 (Build_shr_record m r s) = Build_shr_record (Z.div2 m) (Z.odd m) (r || s).
Proof.
  intros Hm. destruct m as [|p|p]; try lia; simpl.
  - reflexivity.
  - destruct p; reflexivity.
Qed.

Lemma iter_pos_nat {A} (f : A -> A) p x :
  SpecFloat.iter_pos f p x = Nat.iter (Pos.to_nat p) f x.
Proof.
  revert x. induction p as [p IH|p IH|]; intros x; simpl SpecFloat.iter_pos.
  - rewrite !IH. rewrite Pos2Nat.inj_xI. simpl Nat.iter.
    rewrite <- Nat.iter_succ_r. simpl. rewrite Nat.add_0_r, Nat.iter_add. 
    rewrite <- Nat.iter_succ_r. simpl. reflexivity.
  - rewrite !IH. rewrite Pos2Nat.inj_xO. simpl Nat.mul. rewrite Nat.add_0_r, Nat.iter_add. reflexivity.
  - reflexivity.
Qed.

Lemma mod_pow2_succ m n :
  0 <= n -> m mod 2 ^ (n + 1) = m mod 2 ^ n + 2 ^ n * Z.b2z (Z.testbit m n).
Proof.
  intros Hn. rewrite Z.pow_add_r, Z.pow_1_r by lia.
  rewrite Z.rem_mul_r by lia. rewrite Z.testbit_spec' by lia. reflexivity.
Qed.

Lemma iter_shr_1 m n :
  0 <= m -> Nat.iter n shr_1 (Build_shr_record m false false) = shifted m n.
Proof.
  intros Hm. induction n as [|n IH]; [reflexivity|].
  simpl Nat.iter. rewrite IH. destruct n as [|n].
  - simpl shifted. rewrite shr_1_spec by lia. f_equal.
    + rewrite Z.div2_div. reflexivity.
    + simpl. rewrite Z.mod_1_r. reflexivity.
  - unfold shifted. 
    assert (Hq : 0 <= m / 2 ^ Z.of_nat (S n)) by (apply Z.div_pos; lia).
    rewrite shr_1_spec by exact Hq.
    replace (Z.of_nat (S (S n))) with (Z.of_nat (S n) + 1) by lia.
    f_equal.
    + rewrite Z.div2_div, Z.div_div by lia.
      rewrite Z.pow_add_r, Z.pow_1_r by lia. reflexivity.
    + rewrite (Z.testbit_odd m (Z.of_nat (S n))), Z.shiftr_div_pow2 by lia. reflexivity.
    + replace (Z.of_nat (S n)) with (Z.of_nat n + 1) by lia.
      rewrite mod_pow2_succ by lia.
      assert (0 <= m mod 2 ^ Z.of_nat n) by (apply Z.mod_pos_bound; lia).
      assert (0 < 2 ^ Z.of_nat n) by lia.
      destruct (Z.testbit m (Z.of_nat n)); simpl Z.b2z; simpl orb.
      * symmetry. apply negb_true_iff, Z.eqb_neq. lia.
      * f_equal. f_equal. lia.
Qed.

Lemma round_shifted m n :
  0 <= m ->
  round_nearest_even (shr_m (shifted m (S n))) (loc_of_shr_record (shifted m (S n)))
  = rne m (Z.of_nat (S n)).
Proof.
  intros Hm. unfold shifted, rne. cbn [shr_m loc_of_shr_record].
  replace (Z.of_nat (S n) - 1) with (Z.of_nat n) by lia.
  replace (Z.of_nat (S n)) with (Z.of_nat n + 1) by lia.
  set (h := 2 ^ Z.of_nat n). 
  assert (Hh : 0 < h) by (unfold h; lia).
  assert (H2h : 2 ^ (Z.of_nat n + 1) = 2 * h)
    by (unfold h; rewrite Z.pow_add_r, Z.pow_1_r by lia; lia).
  rewrite H2h.
  set (q := m / (2 * h)).
  assert (Hrem : m mod (2 * h) = m mod h + h * Z.b2z (Z.testbit m (Z.of_nat n))).
  { rewrite <- H2h. apply mod_pow2_succ. lia. }
  assert (Hm' : m = q * (2 * h) + m mod (2 * h))
    by (unfold q; rewrite (Z.div_mod m (2 * h)) at 1 by lia; lia).
  assert (Hl : 0 <= m mod h < h) by (apply Z.mod_pos_bound; lia).
  assert (Hb : 0 <= q mod 2 < 2) by (apply Z.mod_pos_bound; lia).
  assert (Hev : Z.even q = (q mod 2 =? 0)).
  { rewrite Zeven_mod. reflexivity. }
  destruct (Z.testbit m (Z.of_nat n)); simpl Z.b2z in Hrem;
    destruct (m mod h =? 0) eqn:E; simpl negb; cbn iota;
    [apply Z.eqb_eq in E | apply Z.eqb_neq in E | apply Z.eqb_eq in E | apply Z.eqb_neq in E].
  - (* tie *) unfold round_nearest_even. rewrite Hev.
    destruct (q mod 2 =? 0) eqn:E2; [apply Z.eqb_eq in E2 | apply Z.eqb_neq in E2].
    + apply Z.div_unique with (r := 2 * h - 1); lia.
    + apply Z.div_unique with (r := 0); lia.
  - unfold round_nearest_even.
    apply Z.div_unique with (r := m mod h - 1 + q mod 2); lia.
  - unfold round_nearest_even.
    apply Z.div_unique with (r := h - 1 + q mod 2); lia.
  - unfold round_nearest_even.
    apply Z.div_unique with (r := m mod h + h - 1 + q mod 2); lia.
Qed.

Lemma pow2_split k : 1 <= k -> 2 ^ k = 2 * 2 ^ (k - 1) /\ 0 < 2 ^ (k - 1).
Proof.
  intros Hk. split; [|lia].
  replace k with (k - 1 + 1) at 1 by lia.
  rewrite Z.pow_add_r, Z.pow_1_r by lia. lia.
Qed.

Lemma rne_bounds m k :
  1 <= k -> 0 <= m -> m / 2 ^ k <= rne m k <= m / 2 ^ k + 1.
Proof.
  intros Hk Hm. unfold rne.
  destruct (pow2_split k Hk) as [H2 Hh]. set (h := 2 ^ (k - 1)) in *.
  assert (Hb : 0 <= (m / 2 ^ k) mod 2 < 2) by (apply Z.mod_pos_bound; lia).
  assert (Hr : 0 <= m mod 2 ^ k < 2 ^ k) by (apply Z.mod_pos_bound; lia).
  pose proof (Z.div_mod m (2 ^ k) ltac:(lia)) as Hdm.
  split.
  - apply Z.div_le_mono; lia.
  - apply Z.lt_succ_r. apply Z.div_lt_upper_bound; [lia|].
    set (q := m / 2 ^ k) in *. lia.
Qed.

Lemma rne_mono m1 m2 k :
  1 <= k -> 0 <= m1 <= m2 -> rne m1 k <= rne m2 k.
Proof.
  intros Hk Hm.
  assert (Hq : m1 / 2 ^ k <= m2 / 2 ^ k) by (apply Z.div_le_mono; lia).
  destruct (Z.eq_dec (m1 / 2 ^ k) (m2 / 2 ^ k)) as [E|NE].
  - unfold rne. rewrite E. apply Z.div_le_mono; lia.
  - pose proof (rne_bounds m1 k Hk ltac:(lia)).
    pose proof (rne_bounds m2 k Hk ltac:(lia)). lia.
Qed.

Lemma rne_exact a k : 1 <= k -> rne (a * 2 ^ k) k = a.
Proof.
  intros Hk. unfold rne.
  destruct (pow2_split k Hk) as [H2 Hh].
  rewrite Z.div_mul by lia.
  assert (Hb : 0 <= a mod 2 < 2) by (apply Z.mod_pos_bound; lia).
  symmetry. apply Z.div_unique with (r := 2 ^ (k - 1) - 1 + a mod 2); lia.
Qed.

Lemma rne_scale m k j :
  1 <= k -> 0 <= j -> rne (m * 2 ^ j) (k + j) = rne m k.
Proof.
  intros Hk Hj. unfold rne.
  replace (k + j - 1) with (k - 1 + j) by lia.
  rewrite !Z.pow_add_r by lia.
  assert (0 < 2 ^ j) by lia. assert (0 < 2 ^ k) by lia.
  destruct (pow2_split k Hk) as [H2 Hh].
  rewrite Z.div_mul_cancel_r by lia.
  set (b := (m / 2 ^ k) mod 2).
  assert (Hb : 0 <= b < 2) by (apply Z.mod_pos_bound; lia).
  set (t := m + 2 ^ (k - 1) - 1 + b).
  replace (m * 2 ^ j + 2 ^ (k - 1) * 2 ^ j - 1 + b)
    with (t * 2 ^ j + ((2 ^ j - 1) * (1 - b))) by (unfold t; lia).
  rewrite (Z.mul_comm (2 ^ k) (2 ^ j)), <- Z.div_div by lia.
  f_equal. rewrite Z.div_add_l by lia.
  rewrite Z.div_small; [lia|]. nia.
Qed.

Lemma pow2_le a b : 0 <= a <= b -> 2 ^ a <= 2 ^ b.
Proof. intros. apply Z.pow_le_mono_r; lia. Qed.
Lemma pow2_lt a b : 0 <= a < b -> 2 ^ a < 2 ^ b.
Proof. intros. apply Z.pow_lt_mono_r; lia. Qed.

Lemma log2_digits n d : 0 < n -> 2 ^ (d - 1) <= n < 2 ^ d -> 1 <= d -> Z.log2 n + 1 = d.
Proof.
  intros Hn H Hd. 
  assert (Z.log2 n = d - 1); [|lia].
  apply Z.log2_unique; [lia|]. replace (Z.succ (d - 1)) with d by lia. exact H.
Qed.

Ltac numerals :=
  unfold fexp, SpecFloat.fexp, SpecFloat.emin in *;
  change prec with 53 in *; change emax with 1024 in *;
  change emin with (-1074) in *.

Lemma finish_spec s n E :
  0 <= n <= 2 ^ prec -> emin <= E -> (emin < E -> 2 ^ (prec - 1) <= n) ->
  good (finish s n E) (cond_opp s (Z.min INF (n * 2 ^ (E - emin)))).
Proof.
  intros Hn HE Hnorm. unfold finish, shr_fexp, good.
  change prec with 53 in *. change emax with 1024 in *.
  change emin with (-1074) in *. unfold INF.
  change (emax - emin) with 2098. 
  destruct (Z.eq_dec n 0) as [->|Hn0].
  { simpl Zdigits2. 
    replace (SpecFloat.fexp 53 1024 (0 + E) - E) with (Z.min 0 (-1074 - E) + Z.max 0 (- 53)).
    2:{ unfold SpecFloat.fexp, SpecFloat.emin. lia. }
    assert (HX : shr (shr_record_of_loc 0 loc_Exact) E (Z.min 0 (-1074 - E) + Z.max 0 (-53))
            = (shr_record_of_loc 0 loc_Exact, E)).
    { unfold shr. destruct (Z.min 0 (-1074 - E) + Z.max 0 (-53)) eqn:Ek; try reflexivity. lia. }
    rewrite HX. simpl. repeat split.
    rewrite Z.min_r by lia. destruct s; reflexivity. }
  rewrite Zdigits2_log2 by lia.
  destruct (Z.eq_dec n (2 ^ 53)) as [->|Hn1].
  { rewrite Z.log2_pow2 by lia.
    replace (SpecFloat.fexp 53 1024 (53 + 1 + E) - E) with 1.
    2:{ unfold SpecFloat.fexp, SpecFloat.emin. clear - HE. lia. }
    unfold shr. simpl SpecFloat.iter_pos. cbn [shr_m].
    change (2 ^ 53) with 9007199254740992. cbn [shr_1 shr_record_of_loc shr_m].
    destruct (E + 1 <=? 1024 - 53) eqn:EE; [apply Z.leb_le in EE | apply Z.leb_gt in EE].
    - repeat split.
      + unfold valid, valid_binary, bounded, canonical_mantissa. numerals.
        apply andb_true_iff; split; [apply Z.eqb_eq | apply Z.leb_le; lia].
        simpl digits2_pos. clear - HE. lia.
      + cbn [ord]. change emin with (-1074). f_equal.
        rewrite Z.min_r.
        * replace (E + 1 - -1074) with (E - -1074 + 1) by lia.
          rewrite Z.pow_add_r by lia. lia.
        * replace 2098 with (53 + (2098 - 53)) at 1 by lia.
          rewrite Z.pow_add_r by lia. change (2 ^ 53) with 9007199254740992.
          apply Z.mul_le_mono_nonneg_l; [lia|]. apply pow2_le. lia.
    - repeat split. cbn [ord]. f_equal. unfold INF. change (emax - emin) with 2098.
      rewrite Z.min_l; [reflexivity|].
      replace 2098 with (53 + (2098 - 53)) at 1 by lia.
      rewrite Z.pow_add_r by lia. change (2 ^ 53) with 9007199254740992.
      apply Z.mul_le_mono_nonneg_l; [lia|]. apply pow2_le. lia. }
  assert (Hlog : Z.log2 n + 1 <= 53).
  { assert (Z.log2 n < 53); [|lia]. apply Z.log2_lt_pow2; lia. }
  assert (Hk : SpecFloat.fexp 53 1024 (Z.log2 n + 1 + E) - E <= 0)
    by (unfold SpecFloat.fexp, SpecFloat.emin; lia).
  assert (HX : shr (shr_record_of_loc n loc_Exact) E
                 (SpecFloat.fexp 53 1024 (Z.log2 n + 1 + E) - E)
               = (shr_record_of_loc n loc_Exact, E)).
  { unfold shr. destruct (SpecFloat.fexp 53 1024 (Z.log2 n + 1 + E) - E); try reflexivity. lia. }
  rewrite HX. cbn [shr_record_of_loc shr_m].
  destruct n as [|p|p]; try lia.
  assert (Hcanon : emin < E -> Z.log2 (Z.pos p) + 1 = 53).
  { intros HE'. change emin with (-1074) in HE'. specialize (Hnorm HE').
    apply log2_digits; lia. }
  destruct (E <=? 1024 - 53) eqn:EE; [apply Z.leb_le in EE | apply Z.leb_gt in EE].
  - repeat split.
    + unfold valid, valid_binary, bounded, canonical_mantissa. numerals.
      apply andb_true_iff; split; [apply Z.eqb_eq | apply Z.leb_le; lia].
      rewrite digits2_pos_log2. lia.
    + cbn [ord]. change emin with (-1074). f_equal. rewrite Z.min_r; [reflexivity|].
      replace 2098 with (53 + (2098 - 53)) by lia. rewrite Z.pow_add_r by lia.
      assert (2 ^ (E - -1074) <= 2 ^ (2098 - 53)) by (apply pow2_le; lia).
      assert (0 < 2 ^ (E - -1074)) by (apply Z.pow_pos_nonneg; lia).
      nia.
  - repeat split. cbn [ord]. f_equal. unfold INF. change (emax - emin) with 2098.
    rewrite Z.min_l; [reflexivity|].
    assert (HE' : -1074 < E) by lia. specialize (Hnorm HE').
    replace 2098 with (52 + (2098 - 52)) by lia. rewrite Z.pow_add_r by lia.
    assert (2 ^ (2098 - 52) <= 2 ^ (E - -1074)) by (apply pow2_le; lia).
    assert (0 < 2 ^ (2098 - 52)) by (apply Z.pow_pos_nonneg; lia).
    change (53 - 1) with 52 in Hnorm.
    nia.
Qed.

Lemma round_aux_finish s m e :
  binary_round_aux prec emax s m e loc_Exact =
  let '(mrs, e') := shr_fexp prec emax m e loc_Exact in
  finish s (round_nearest_even (shr_m mrs) (loc_of_shr_record mrs)) e'.
Proof. reflexivity. Qed.

Lemma log2_bounds m : 0 < m -> 2 ^ (Z.log2 m) <= m < 2 ^ (Z.log2 m + 1).
Proof. intros Hm. pose proof (Z.log2_spec m Hm). unfold Z.succ in *. lia. Qed.

Lemma log2_shift m j : 0 < m -> 0 <= j -> Z.log2 (m * 2 ^ j) = Z.log2 m + j.
Proof. intros Hm Hj. rewrite Z.log2_mul_pow2 by lia. lia. Qed.

Lemma round_aux_spec s m e :
  2 * emin <= e -> e <= fexp (Z.pos (digits2_pos m) + e) ->
  good (binary_round_aux prec emax s (Z.pos m) e loc_Exact)
       (cond_opp s (Rpos (Z.pos m * 2 ^ (e - 2 * emin)))).
Proof.
  intros He Hk. rewrite round_aux_finish. unfold shr_fexp, Rpos.
  assert (HEV : fexp (Z.log2 (Z.pos m * 2 ^ (e - 2 * emin)) + 1 + 2 * emin)
                = fexp (Z.pos (digits2_pos m) + e)).
  { rewrite log2_shift, digits2_pos_log2 by (change emin with (-1074) in *; lia).
    f_equal. lia. }
  rewrite HEV. clear HEV. cbn [Zdigits2].
  change (SpecFloat.fexp prec emax) with fexp.
  pose proof (log2_bounds (Z.pos m) ltac:(lia)) as Hlog.
  pose proof (Z.log2_nonneg (Z.pos m)) as Hl0.
  replace (Z.log2 (Z.pos m)) with (Z.pos (digits2_pos m) - 1) in Hlog, Hl0
    by (rewrite digits2_pos_log2; lia).
  replace (Z.pos (digits2_pos m) - 1 + 1) with (Z.pos (digits2_pos m)) in Hlog by lia.
  set (d := Z.pos (digits2_pos m)) in *.
  set (E := fexp (d + e)) in *.
  assert (HE : emin <= E /\ d + e - 53 <= E /\ (emin < E -> E = d + e - 53)).
  { unfold E. numerals. lia. }
  clearbody E d.
  change emin with (-1074) in *.
  destruct (E - e) as [|p|p] eqn:Ek; try lia.
  - (* no shift *)
    assert (E = e) by lia. subst e. clear Ek Hk.
    cbn [shr shr_record_of_loc shr_m loc_of_shr_record round_nearest_even].
    replace (E - 2 * -1074) with (E + 2148) by lia.
    rewrite rne_exact by lia.
    apply finish_spec; change prec with 53; change emin with (-1074).
    + split; [lia|]. assert (2 ^ d <= 2 ^ 53) by (apply pow2_le; lia). lia.
    + lia.
    + intros H. assert (d = 53) by lia. subst d. lia.
  - (* a shift by [p] *)
    unfold shr. cbn [shr_record_of_loc]. rewrite iter_pos_nat, iter_shr_1 by lia.
    destruct (Pos2Nat.is_succ p) as [n Hn]. rewrite Hn.
    rewrite round_shifted by lia.
    assert (Hkp : Z.of_nat (S n) = Z.pos p) by (rewrite <- Hn; apply positive_nat_Z).
    rewrite Hkp.
    replace (e + Z.pos p) with E by lia.
    replace (E - 2 * -1074) with (Z.pos p + (e - 2 * -1074)) by lia.
    rewrite rne_scale by lia.
    pose proof (rne_bounds (Z.pos m) (Z.pos p) ltac:(lia) ltac:(lia)) as Hb.
    assert (Hp2 : 0 < 2 ^ Z.pos p) by (apply Z.pow_pos_nonneg; lia).
    apply finish_spec; change prec with 53; change emin with (-1074).
    + split.
      * assert (0 <= Z.pos m / 2 ^ Z.pos p) by (apply Z.div_pos; lia). lia.
      * assert (Z.pos m / 2 ^ Z.pos p < 2 ^ 53); [|lia].
        apply Z.div_lt_upper_bound; [lia|].
        rewrite <- Z.pow_add_r by lia.
        assert (2 ^ d <= 2 ^ (Z.pos p + 53)) by (apply pow2_le; lia). lia.
    + lia.
    + intros H. assert (Z.pos p = d - 53) by lia.
      assert (2 ^ (53 - 1) <= Z.pos m / 2 ^ Z.pos p); [|lia].
      apply Z.div_le_lower_bound; [lia|].
      rewrite <- Z.pow_add_r by lia.
      replace (Z.pos p + (53 - 1)) with (d - 1) by lia. lia.
Qed.

Lemma iter_xO m p : Z.pos (Pos.iter xO m p) = Z.pos m * 2 ^ Z.pos p.
Proof.
  induction p as [|p IH] using Pos.peano_ind.
  - simpl Pos.iter. rewrite Z.pow_1_r. lia.
  - rewrite Pos.iter_succ, Pos2Z.inj_succ, Z.pow_succ_r by lia.
    rewrite Pos2Z.inj_xO, IH. lia.
Qed.

Lemma digits_shift m p :
  Z.pos (digits2_pos (Pos.iter xO m p)) = Z.pos (digits2_pos m) + Z.pos p.
Proof.
  rewrite !digits2_pos_log2, iter_xO, log2_shift by lia. lia.
Qed.

Lemma binary_round_spec s m e :
  2 * emin <= e ->
  good (binary_round prec emax s m e)
       (cond_opp s (Rpos (Z.pos m * 2 ^ (e - 2 * emin)))).
Proof.
  intros He. unfold binary_round, shl_align.
  change (SpecFloat.fexp prec emax) with fexp.
  destruct (fexp (Z.pos (digits2_pos m) + e) - e) as [|p|p] eqn:Ek.
  - apply round_aux_spec; lia.
  - apply round_aux_spec; lia.
  - set (E := fexp (Z.pos (digits2_pos m) + e)) in *.
    assert (HE : emin <= E) by (unfold E; numerals; lia).
    replace (Z.pos m * 2 ^ (e - 2 * emin))
      with (Z.pos (Pos.iter xO m p) * 2 ^ (E - 2 * emin)).
    + apply round_aux_spec; [change emin with (-1074) in *; lia|].
      rewrite digits_shift.
      replace (Z.pos (digits2_pos m) + Z.pos p + E)
        with (Z.pos (digits2_pos m) + e) by lia.
      fold E. lia.
    + rewrite iter_xO, <- Z.mul_assoc, <- Z.pow_add_r
        by (change emin with (-1074) in *; lia).
      do 2 f_equal. lia.
Qed.

Lemma Rpos_mono V1 V2 : 0 < V1 <= V2 -> Rpos V1 <= Rpos V2.
Proof.
  intros HV. unfold Rpos. apply Z.min_le_compat_l.
  pose proof (Z.log2_le_mono V1 V2 ltac:(lia)) as Hl.
  pose proof (log2_bounds V1 ltac:(lia)) as Hb1.
  pose proof (log2_bounds V2 ltac:(lia)) as Hb2.
  pose proof (Z.log2_nonneg V1) as Hn1.
  set (l1 := Z.log2 V1) in *. set (l2 := Z.log2 V2) in *.
  set (E1 := fexp (l1 + 1 + 2 * emin)). set (E2 := fexp (l2 + 1 + 2 * emin)).
  assert (HE1 : E1 = Z.max (l1 - 2200) (-1074)) by (unfold E1; numerals; lia).
  assert (HE2 : E2 = Z.max (l2 - 2200) (-1074)) by (unfold E2; numerals; lia).
  clearbody E1 E2 l1 l2. change emin with (-1074).
  destruct (Z.eq_dec E1 E2) as [<-|NE].
  - apply Z.mul_le_mono_nonneg_r; [apply Z.pow_nonneg; lia|].
    apply rne_mono; lia.
  - assert (HK : E1 < E2) by lia.
    assert (E2 = l2 - 2200) by lia.
    assert (H2 : 2 ^ 52 <= rne V2 (E2 - 2 * -1074)).
    { rewrite <- (rne_exact (2 ^ 52) (E2 - 2 * -1074)) at 1 by lia.
      apply rne_mono; [lia|]. split; [apply Z.mul_nonneg_nonneg; apply Z.pow_nonneg; lia|].
      rewrite <- Z.pow_add_r by lia.
      replace (52 + (E2 - 2 * -1074)) with l2 by lia. lia. }
    assert (H1 : rne V1 (E1 - 2 * -1074) <= 2 ^ 53).
    { rewrite <- (rne_exact (2 ^ 53) (E1 - 2 * -1074)) at 1 by lia.
      apply rne_mono; [lia|]. split; [lia|].
      rewrite <- Z.pow_add_r by lia.
      assert (2 ^ (l1 + 1) <= 2 ^ (53 + (E1 - 2 * -1074))) by (apply pow2_le; lia).
      lia. }
    assert (H0 : 0 <= rne V1 (E1 - 2 * -1074)).
    { pose proof (rne_bounds V1 (E1 - 2 * -1074) ltac:(lia) ltac:(lia)).
      assert (0 <= V1 / 2 ^ (E1 - 2 * -1074)) by (apply Z.div_pos; lia). lia. }
    transitivity (2 ^ 53 * 2 ^ (E1 - -1074)).
    { apply Z.mul_le_mono_nonneg_r; [apply Z.pow_nonneg; lia|lia]. }
    transitivity (2 ^ 52 * 2 ^ (E2 - -1074)).
    { rewrite <- !Z.pow_add_r by lia. apply pow2_le. lia. }
    apply Z.mul_le_mono_nonneg_r; [apply Z.pow_nonneg; lia|lia].
Qed.

Lemma Rpos_range V : 0 <= V -> 0 <= Rpos V <= INF.
Proof.
  intros HV. unfold Rpos. split; [|apply Z.le_min_l].
  set (E := fexp (Z.log2 V + 1 + 2 * emin)).
  assert (HE : -1074 <= E) by (unfold E; numerals; lia).
  clearbody E. change emin with (-1074).
  apply Z.min_glb; [unfold INF; apply Z.pow_nonneg; lia|].
  apply Z.mul_nonneg_nonneg; [|apply Z.pow_nonneg; lia].
  pose proof (rne_bounds V (E - 2 * -1074) ltac:(lia) ltac:(lia)).
  assert (0 <= V / 2 ^ (E - 2 * -1074)) by (apply Z.div_pos; lia). lia.
Qed.

Lemma canonical_facts m e :
  bounded prec emax m e = true ->
  emin <= e <= emax - prec /\ 0 < Z.pos m < 2 ^ prec /\
  fexp (Z.pos (digits2_pos m) + e) = e /\
  (emin < e -> 2 ^ (prec - 1) <= Z.pos m).
Proof.
  unfold bounded, canonical_mantissa. intros H.
  apply andb_true_iff in H. destruct H as [H1 H2].
  apply Z.eqb_eq in H1. apply Z.leb_le in H2.
  pose proof (log2_bounds (Z.pos m) ltac:(lia)) as Hlog.
  rewrite digits2_pos_log2 in H1.
  set (l := Z.log2 (Z.pos m)) in *.
  pose proof (Z.log2_nonneg (Z.pos m)) as Hl0. fold l in Hl0.
  change (SpecFloat.fexp prec emax) with fexp in *.
  rewrite digits2_pos_log2. fold l.
  assert (HH : emin <= e /\ l + 1 <= 53 /\ (emin < e -> l = 52)).
  { revert H1. clear. numerals. lia. }
  clearbody l. numerals.
  repeat split; try lia.
  - assert (2 ^ (l + 1) <= 2 ^ 53) by (apply pow2_le; lia). lia.
  - intros He. assert (l = 52) by lia. subst l. change (53 - 1) with 52. lia.
Qed.

Lemma Rpos_exact m e :
  bounded prec emax m e = true ->
  Rpos (Z.pos m * 2 ^ (e - 2 * emin)) = Z.pos m * 2 ^ (e - emin)
  /\ Z.pos m * 2 ^ (e - emin) < INF.
Proof.
  intros Hb. destruct (canonical_facts m e Hb) as (He & Hm & Hc & Hn).
  assert (Hlt : Z.pos m * 2 ^ (e - emin) < INF).
  { unfold INF. numerals. change (1024 - -1074) with 2098.
    replace 2098 with (53 + (2098 - 53)) by lia. rewrite Z.pow_add_r by lia.
    assert (2 ^ (e - -1074) <= 2 ^ (2098 - 53)) by (apply pow2_le; lia).
    assert (0 < 2 ^ (e - -1074)) by (apply Z.pow_pos_nonneg; lia).
    nia. }
  split; [|exact Hlt].
  unfold Rpos. rewrite log2_shift by (change emin with (-1074) in *; lia).
  replace (Z.log2 (Z.pos m) + (e - 2 * emin) + 1 + 2 * emin)
    with (Z.pos (digits2_pos m) + e) by (rewrite digits2_pos_log2; lia).
  rewrite Hc. rewrite rne_exact by (change emin with (-1074) in *; lia).
  apply Z.min_r. lia.
Qed.

Lemma R_cond_opp s V : 0 < V -> R (cond_opp s V) = cond_opp s (Rpos V).
Proof. intros HV. destruct V; try lia. destruct s; reflexivity. Qed.

Lemma R_mono V1 V2 : V1 <= V2 -> R V1 <= R V2.
Proof.
  intros H. destruct V1 as [|p1|p1], V2 as [|p2|p2]; simpl R; try lia.
  - apply (Rpos_range (Z.pos p2)). lia.
  - apply Rpos_mono. lia.
  - pose proof (Rpos_range (Z.pos p1)). lia.
  - pose proof (Rpos_range (Z.pos p1)). pose proof (Rpos_range (Z.pos p2)). lia.
  - assert (Rpos (Z.pos p2) <= Rpos (Z.pos p1)); [apply Rpos_mono|]; lia.
Qed.

Lemma R_range V : - INF <= R V <= INF.
Proof.
  assert (0 <= INF) by (unfold INF; apply Z.pow_nonneg; lia).
  destruct V as [|p|p]; simpl R.
  - lia.
  - pose proof (Rpos_range (Z.pos p)). lia.
  - pose proof (Rpos_range (Z.pos p)). lia.
Qed.

Lemma R_opp V : R (- V) = - R V.
Proof. destruct V; cbn [R Z.opp]; [reflexivity|reflexivity|]. symmetry; apply Z.opp_involutive. Qed.

(** Order *)

Lemma INF_pos : 0 < INF.
Proof. reflexivity. Qed.

Lemma mag_bounds m e :
  bounded prec emax m e = true -> 0 < Z.pos m * 2 ^ (e - emin) < INF.
Proof.
  intros Hb. destruct (Rpos_exact m e Hb) as [_ H].
  destruct (canonical_facts m e Hb) as (He & _).
  split; [|exact H].
  apply Z.mul_pos_pos; [lia|]. apply Z.pow_pos_nonneg; lia.
Qed.

Lemma mag_compare m1 e1 m2 e2 :
  bounded prec emax m1 e1 = true -> bounded prec emax m2 e2 = true ->
  match e1 ?= e2 with
  | Lt => Lt
  | Gt => Gt
  | Eq => Pos.compare_cont Eq m1 m2
  end = (Z.pos m1 * 2 ^ (e1 - emin) ?= Z.pos m2 * 2 ^ (e2 - emin)).
Proof.
  intros H1 H2.
  destruct (canonical_facts m1 e1 H1) as (He1 & Hm1 & _ & Hn1).
  destruct (canonical_facts m2 e2 H2) as (He2 & Hm2 & _ & Hn2).
  numerals. change (53 - 1) with 52 in *.
  assert (Hstep : forall ma ea mb eb,
    -1074 <= ea < eb -> 0 < Z.pos ma < 2 ^ 53 -> 2 ^ 52 <= Z.pos mb ->
    Z.pos ma * 2 ^ (ea - -1074) < Z.pos mb * 2 ^ (eb - -1074)).
  { intros ma ea mb eb Hea Hma Hmb.
    assert (0 < 2 ^ (ea - -1074)) by (apply Z.pow_pos_nonneg; lia).
    assert (2 * 2 ^ (ea - -1074) <= 2 ^ (eb - -1074)).
    { rewrite <- Z.pow_succ_r by lia. apply pow2_le. lia. }
    change (2 ^ 53) with (2 * 2 ^ 52) in Hma.
    assert (0 < 2 ^ 52) by reflexivity. nia. }
  destruct (e1 ?= e2) eqn:C.
  - apply Z.compare_eq in C. subst e2.
    assert (0 < 2 ^ (e1 - -1074)) by (apply Z.pow_pos_nonneg; lia).
    change (Pos.compare_cont Eq m1 m2) with (Z.pos m1 ?= Z.pos m2).
    symmetry. destruct (Z.pos m1 ?= Z.pos m2) eqn:C'.
    + apply Z.compare_eq in C'. rewrite C'. apply Z.compare_refl.
    + rewrite Z.compare_lt_iff in *. nia.
    + rewrite Z.compare_gt_iff in *. nia.
  - rewrite Z.compare_lt_iff in C. symmetry. apply Z.compare_lt_iff.
    apply Hstep; lia.
  - rewrite Z.compare_gt_iff in C. symmetry. apply Z.compare_gt_iff.
    apply Hstep; lia.
Qed.

Lemma compare_ord x y :
  valid x = true -> valid y = true -> is_nan x = false -> is_nan y = false ->
  SFcompare x y = Some (ord x ?= ord y).
Proof.
  intros Vx Vy Nx Ny.
  pose proof INF_pos as HI.
  destruct x as [sx|sx| |sx mx ex], y as [sy|sy| |sy my ey];
    try discriminate; cbn [SFcompare ord]; f_equal.
  - destruct sy; reflexivity.
  - pose proof (mag_bounds my ey Vy). destruct sy; cbn [cond_opp];
      symmetry; [apply Z.compare_gt_iff | apply Z.compare_lt_iff]; lia.
  - destruct sx; reflexivity.
  - destruct sx, sy; reflexivity.
  - pose proof (mag_bounds my ey Vy). destruct sx, sy; cbn [cond_opp]; symmetry;
      first [apply Z.compare_gt_iff; lia | apply Z.compare_lt_iff; lia].
  - pose proof (mag_bounds mx ex Vx). destruct sx; cbn [cond_opp];
      symmetry; [apply Z.compare_lt_iff | apply Z.compare_gt_iff]; lia.
  - pose proof (mag_bounds mx ex Vx). destruct sx, sy; cbn [cond_opp]; symmetry;
      first [apply Z.compare_gt_iff; lia | apply Z.compare_lt_iff; lia].
  - pose proof (mag_bounds mx ex Vx). pose proof (mag_bounds my ey Vy).
    destruct sx, sy; simpl cond_opp.
    + transitivity
        (CompOpp match ex ?= ey with
                 | Lt => Lt
                 | Gt => Gt
                 | Eq => Pos.compare_cont Eq mx my
                 end); [destruct (ex ?= ey); reflexivity|].
      rewrite mag_compare by assumption.
      rewrite Z.compare_opp. symmetry. apply Z.compare_antisym.
    + symmetry. apply Z.compare_lt_iff. lia.
    + symmetry. apply Z.compare_gt_iff. lia.
    + apply mag_compare; assumption.
Qed.

Lemma leb_ord x y :
  valid x = true -> valid y = true -> is_nan x = false -> is_nan y = false ->
  SFleb x y = (ord x <=? ord y).
Proof.
  intros. unfold SFleb. rewrite compare_ord by assumption.
  unfold Z.leb. destruct (ord x ?= ord y); reflexivity.
Qed.

Lemma ltb_ord x y :
  valid x = true -> valid y = true -> is_nan x = false -> is_nan y = false ->
  SFltb x y = (ord x <? ord y).
Proof.
  intros. unfold SFltb. rewrite compare_ord by assumption.
  unfold Z.ltb. destruct (ord x ?= ord y); reflexivity.
Qed.

(** Operations *)

Lemma good_zero s : good (S754_zero s) 0.
Proof. repeat split. Qed.

Lemma mul_spec x y :
  valid x = true -> valid y = true -> is_finite x = true -> is_finite y = true ->
  good (mul x y) (R (ord x * ord y)).
Proof.
  intros Vx Vy Fx Fy. pose proof emin_val as Hemin.
  destruct x as [sx|sx| |sx mx ex], y as [sy|sy| |sy my ey]; try discriminate;
    cbn [mul SFmul ord]; rewrite ?Z.mul_0_l, ?Z.mul_0_r; try apply good_zero.
  unfold mul, SFmul.
  destruct (canonical_facts mx ex Vx) as (Hex & Hmx & Hcx & Hnx).
  destruct (canonical_facts my ey Vy) as (Hey & Hmy & Hcy & Hny).
  replace (cond_opp sx (Z.pos mx * 2 ^ (ex - emin)) *
           cond_opp sy (Z.pos my * 2 ^ (ey - emin)))
    with (cond_opp (xorb sx sy) (Z.pos (mx * my) * 2 ^ (ex + ey - 2 * emin))).
  2:{ replace (ex + ey - 2 * emin) with ((ex - emin) + (ey - emin)) by lia.
      rewrite Z.pow_add_r, Pos2Z.inj_mul by lia.
      destruct sx, sy; simpl cond_opp; lia. }
  rewrite R_cond_opp.
  2:{ apply Z.mul_pos_pos; [lia|]. apply Z.pow_pos_nonneg; lia. }
  apply round_aux_spec; [lia|].
  rewrite digits2_pos_log2, Pos2Z.inj_mul.
  pose proof (Z.log2_mul_below (Z.pos mx) (Z.pos my) ltac:(lia) ltac:(lia)) as Hl.
  pose proof (Z.log2_nonneg (Z.pos mx)). pose proof (Z.log2_nonneg (Z.pos my)).
  assert (Hlx : emin < ex -> 52 <= Z.log2 (Z.pos mx)).
  { intros H'. apply Z.log2_le_pow2; [lia|]. apply Hnx, H'. }
  assert (Hly : emin < ey -> 52 <= Z.log2 (Z.pos my)).
  { intros H'. apply Z.log2_le_pow2; [lia|]. apply Hny, H'. }
  set (l := Z.log2 (Z.pos mx * Z.pos my)) in *. clearbody l.
  revert Hl Hlx Hly Hex Hey H H0. clear. numerals. lia.
Qed.

Lemma shl_align_fst m e e' :
  e' <= e -> Z.pos (fst (shl_align m e e')) = Z.pos m * 2 ^ (e - e').
Proof.
  intros H. unfold shl_align. destruct (e' - e) as [|p|p] eqn:E; try lia.
  - replace (e - e') with 0 by lia. simpl fst. lia.
  - simpl fst. rewrite iter_xO. f_equal. f_equal. lia.
Qed.

Lemma normalize_spec n e :
  2 * emin <= e ->
  good (binary_normalize prec emax n e false) (R (n * 2 ^ (e - 2 * emin))).
Proof.
  intros He. pose proof emin_val as Hemin.
  assert (Hp : 0 < 2 ^ (e - 2 * emin)) by (apply Z.pow_pos_nonneg; lia).
  destruct n as [|p|p]; cbn [binary_normalize].
  - apply good_zero.
  - change (Z.pos p * 2 ^ (e - 2 * emin))
      with (cond_opp false (Z.pos p * 2 ^ (e - 2 * emin))).
    rewrite R_cond_opp by lia. apply binary_round_spec, He.
  - replace (Z.neg p * 2 ^ (e - 2 * emin))
      with (cond_opp true (Z.pos p * 2 ^ (e - 2 * emin)))
      by (cbn [cond_opp]; change (Z.neg p) with (- Z.pos p);
          rewrite Z.mul_opp_l; reflexivity).
    rewrite R_cond_opp by lia. apply binary_round_spec, He.
Qed.

Lemma R_exact x :
  valid x = true -> is_finite x = true -> R (ord x * U) = ord x.
Proof.
  intros Vx Fx. pose proof emin_val as Hemin. destruct x as [sx|sx| |sx mx ex]; try discriminate; try reflexivity.
  cbn [ord]. destruct (Rpos_exact mx ex Vx) as [HR _].
  destruct (canonical_facts mx ex Vx) as (Hex & _).
  replace (cond_opp sx (Z.pos mx * 2 ^ (ex - emin)) * U)
    with (cond_opp sx (Z.pos mx * 2 ^ (ex - 2 * emin))).
  - rewrite R_cond_opp, HR; [reflexivity|].
    apply Z.mul_pos_pos; [lia|]. apply Z.pow_pos_nonneg; lia.
  - unfold U. replace (ex - 2 * emin) with (ex - emin + - emin) by lia.
    rewrite Z.pow_add_r by (change emin with (-1074) in *; lia).
    destruct sx; simpl cond_opp; lia.
Qed.

Lemma cond_Zopp_opp s z : cond_Zopp s z = cond_opp s z.
Proof. reflexivity. Qed.

Lemma cond_opp_mul s a c : cond_opp s a * c = cond_opp s (a * c).
Proof. destruct s; cbn [cond_opp]; lia. Qed.

Lemma scale_eq m e ez :
  emin <= ez <= e ->
  Z.pos m * 2 ^ (e - ez) * 2 ^ (ez - 2 * emin) = Z.pos m * 2 ^ (e - emin) * U.
Proof.
  intros H. unfold U. change emin with (-1074) in *.
  rewrite <- !Z.mul_assoc, <- !Z.pow_add_r by lia. do 2 f_equal. lia.
Qed.

Lemma add_spec x y :
  valid x = true -> valid y = true -> is_finite x = true -> is_finite y = true ->
  good (add x y) (R ((ord x + ord y) * U)).
Proof.
  intros Vx Vy Fx Fy. pose proof emin_val as Hemin.
  destruct x as [sx|sx| |sx mx ex], y as [sy|sy| |sy my ey]; try discriminate.
  - cbn [ord]. change (R ((0 + 0) * U)) with 0.
    unfold add, SFadd. destruct sx, sy; apply good_zero.
  - rewrite Z.add_0_l, R_exact by assumption. repeat split. exact Vy.
  - rewrite Z.add_0_r, R_exact by assumption. repeat split. exact Vx.
  - destruct (canonical_facts mx ex Vx) as (Hex & _).
    destruct (canonical_facts my ey Vy) as (Hey & _).
    unfold add, SFadd. set (ez := Z.min ex ey).
    change (cond_Zopp sx) with (cond_opp sx).
    change (cond_Zopp sy) with (cond_opp sy).
    assert (Hval :
      (cond_opp sx (Z.pos (fst (shl_align mx ex ez))) +
       cond_opp sy (Z.pos (fst (shl_align my ey ez)))) * 2 ^ (ez - 2 * emin)
      = (ord (S754_finite sx mx ex) + ord (S754_finite sy my ey)) * U).
    { rewrite !shl_align_fst by (unfold ez; lia).
      rewrite !Z.mul_add_distr_r, !cond_opp_mul.
      rewrite (scale_eq mx ex ez), (scale_eq my ey ez) by (unfold ez; lia).
      cbn [ord]. rewrite !cond_opp_mul. reflexivity. }
    rewrite <- Hval. apply normalize_spec. unfold ez. lia.
Qed.

Lemma sub_spec x y :
  valid x = true -> valid y = true -> is_finite x = true -> is_finite y = true ->
  good (sub x y) (R ((ord x - ord y) * U)).
Proof.
  intros Vx Vy Fx Fy. pose proof emin_val as Hemin.
  destruct x as [sx|sx| |sx mx ex], y as [sy|sy| |sy my ey]; try discriminate.
  - cbn [ord]. change (R ((0 - 0) * U)) with 0.
    unfold sub, SFsub. destruct sx, sy; apply good_zero.
  - change (ord (S754_zero sx)) with 0.
    replace ((0 - ord (S754_finite sy my ey)) * U)
      with (ord (S754_finite (negb sy) my ey) * U)
      by (cbn [ord]; destruct sy; cbn [negb cond_opp]; lia).
    rewrite R_exact by assumption. repeat split. exact Vy.
  - rewrite Z.sub_0_r, R_exact by assumption. repeat split. exact Vx.
  - destruct (canonical_facts mx ex Vx) as (Hex & _).
    destruct (canonical_facts my ey Vy) as (Hey & _).
    unfold sub, SFsub. set (ez := Z.min ex ey).
    change (cond_Zopp sx) with (cond_opp sx).
    change (cond_Zopp sy) with (cond_opp sy).
    assert (Hval :
      (cond_opp sx (Z.pos (fst (shl_align mx ex ez))) -
       cond_opp sy (Z.pos (fst (shl_align my ey ez)))) * 2 ^ (ez - 2 * emin)
      = (ord (S754_finite sx mx ex) - ord (S754_finite sy my ey)) * U).
    { rewrite !shl_align_fst by (unfold ez; lia).
      rewrite !Z.mul_sub_distr_r, !cond_opp_mul.
      rewrite (scale_eq mx ex ez), (scale_eq my ey ez) by (unfold ez; lia).
      cbn [ord]. rewrite !cond_opp_mul. reflexivity. }
    rewrite <- Hval. apply normalize_spec. unfold ez. lia.
Qed.

Lemma of_Z_spec n : good (of_Z n) (R (n * U * U)).
Proof.
  unfold of_Z. replace (n * U * U) with (n * 2 ^ (0 - 2 * emin)).
  - apply normalize_spec. change emin with (-1074). lia.
  - unfold U. rewrite <- Z.mul_assoc, <- Z.pow_add_r by (change emin with (-1074); lia).
    reflexivity.
Qed.

(** Finiteness and the integer conversions *)

Lemma finite_ord x :
  valid x = true -> is_nan x = false ->
  is_finite x = true <-> - INF < ord x < INF.
Proof.
  intros Vx Nx. pose proof INF_pos.
  destruct x as [s|s| |s m e]; try discriminate; cbn [is_finite ord].
  - split; [lia|reflexivity].
  - split; [discriminate|]. destruct s; cbn [cond_opp]; lia.
  - pose proof (mag_bounds m e Vx). split; [|reflexivity].
    intros _. destruct s; cbn [cond_opp]; lia.
Qed.

Lemma good_finite x z : good x z -> - INF < z < INF -> is_finite x = true.
Proof. intros (V & N & <-) H. apply finite_ord; assumption. Qed.

Lemma leb_not_nan x y : leb x y = true -> is_nan x = false /\ is_nan y = false.
Proof. destruct x, y; try discriminate; auto. Qed.

Lemma ltb_not_nan x y : ltb x y = true -> is_nan x = false /\ is_nan y = false.
Proof. destruct x, y; try discriminate; auto. Qed.

Lemma leb_le x y :
  valid x = true -> valid y = true -> leb x y = true -> ord x <= ord y.
Proof.
  intros Vx Vy H. destruct (leb_not_nan x y H) as [Nx Ny].
  unfold leb in H. rewrite leb_ord in H by assumption. apply Z.leb_le, H.
Qed.

Lemma ltb_lt x y :
  valid x = true -> valid y = true -> ltb x y = true -> ord x < ord y.
Proof.
  intros Vx Vy H. destruct (ltb_not_nan x y H) as [Nx Ny].
  unfold ltb in H. rewrite ltb_ord in H by assumption. apply Z.ltb_lt, H.
Qed.


Lemma good_ltb x y a b : good x a -> good y b -> ltb x y = (a <? b).
Proof.
  intros (Vx & Nx & <-) (Vy & Ny & <-). apply ltb_ord; assumption.
Qed.

Lemma good_ord x : valid x = true -> is_nan x = false -> good x (ord x).
Proof. repeat split; assumption. Qed.

Lemma U_pos : 0 < U.
Proof. reflexivity. Qed.

Lemma int_part_ord m e :
  emin <= e -> int_part m e = Z.pos m * 2 ^ (e - emin) / U.
Proof.
  intros He. pose proof emin_val as Hemin. unfold int_part, U.
  destruct (0 <=? e) eqn:E; [apply Z.leb_le in E | apply Z.leb_gt in E].
  - replace (e - emin) with (e + - emin) by lia.
    rewrite Z.pow_add_r, Z.mul_assoc, Z.div_mul by lia. reflexivity.
  - replace (- emin) with (- e + (e - emin)) at 1 by lia.
    rewrite Z.pow_add_r, Z.div_mul_cancel_r by lia. reflexivity.
Qed.

Lemma frac_part_ord m e :
  emin <= e -> (frac_part m e =? 0) = ((Z.pos m * 2 ^ (e - emin)) mod U =? 0).
Proof.
  intros He. pose proof emin_val as Hemin. unfold frac_part, U.
  destruct (0 <=? e) eqn:E; [apply Z.leb_le in E | apply Z.leb_gt in E].
  - replace (e - emin) with (e + - emin) by lia.
    rewrite Z.pow_add_r, Z.mul_assoc, Z.mod_mul by lia. reflexivity.
  - replace (- emin) with (- e + (e - emin)) at 1 by lia.
    rewrite Z.pow_add_r, Z.mul_mod_distr_r by lia.
    assert (0 < 2 ^ (e - emin)) by (apply Z.pow_pos_nonneg; lia).
    destruct (Z.eqb_spec (Z.pos m mod 2 ^ (- e)) 0) as [->|NE].
    + reflexivity.
    + symmetry. apply Z.eqb_neq. nia.
Qed.

Lemma trunc_ord x :
  valid x = true -> is_finite x = true -> trunc x = Some (Z.quot (ord x) U).
Proof.
  intros Vx Fx. destruct x as [s|s| |s m e]; try discriminate; try reflexivity.
  destruct (canonical_facts m e Vx) as (He & _). pose proof (mag_bounds m e Vx).
  cbn [trunc ord]. f_equal. rewrite int_part_ord by lia.
  pose proof U_pos.
  destruct s; cbn [cond_opp].
  - rewrite Z.quot_opp_l, Z.quot_div_nonneg by lia. reflexivity.
  - rewrite Z.quot_div_nonneg by lia. reflexivity.
Qed.

Lemma ceil_ord x :
  valid x = true -> is_finite x = true -> ceil x = Some (- (- ord x / U)).
Proof.
  intros Vx Fx. destruct x as [s|s| |s m e]; try discriminate; try reflexivity.
  destruct (canonical_facts m e Vx) as (He & _). pose proof (mag_bounds m e Vx).
  pose proof U_pos.
  cbn [ord]. destruct s; cbn [ceil cond_opp]; f_equal.
  - rewrite Z.opp_involutive, int_part_ord by lia. reflexivity.
  - rewrite int_part_ord, frac_part_ord by lia.
    destruct (Z.eqb_spec ((Z.pos m * 2 ^ (e - emin)) mod U) 0) as [E|NE].
    + rewrite Z.div_opp_l_z by lia. lia.
    + rewrite Z.div_opp_l_nz by lia. lia.
Qed.

Lemma floor_ord x :
  valid x = true -> is_finite x = true -> floor x = Some (ord x / U).
Proof.
  intros Vx Fx. destruct x as [s|s| |s m e]; try discriminate; try reflexivity.
  destruct (canonical_facts m e Vx) as (He & _). pose proof (mag_bounds m e Vx).
  pose proof U_pos.
  cbn [ord]. destruct s; cbn [floor cond_opp]; f_equal.
  - rewrite int_part_ord, frac_part_ord by lia.
    destruct (Z.eqb_spec ((Z.pos m * 2 ^ (e - emin)) mod U) 0) as [E|NE].
    + rewrite Z.div_opp_l_z by lia. lia.
    + rewrite Z.div_opp_l_nz by lia. lia.
  - rewrite int_part_ord by lia. reflexivity.
Qed.

(** Numbers, and the monotonicity of the operations *)

Lemma number_inv x :
  number x = true ->
  valid x = true /\ is_finite x = true /\ is_nan x = false.
Proof.
  unfold number. intros H. apply andb_true_iff in H. destruct H as [V F].
  repeat split; try assumption. destruct x; try discriminate; reflexivity.
Qed.

Lemma number_ord x : number x = true -> - INF < ord x < INF.
Proof.
  intros H. destruct (number_inv x H) as (V & F & N).
  apply finite_ord; assumption.
Qed.

Lemma good_number x z : good x z -> - INF < z < INF -> number x = true.
Proof.
  intros Hg Hz. unfold number. rewrite (good_finite x z Hg Hz).
  destruct Hg as (-> & _). reflexivity.
Qed.

Lemma good_between x z lo hi :
  good x z -> number lo = true -> number hi = true ->
  ord lo <= z <= ord hi -> number x = true.
Proof.
  intros Hg Hlo Hhi Hz. apply (good_number x z Hg).
  pose proof (number_ord lo Hlo). pose proof (number_ord hi Hhi). lia.
Qed.

Lemma mul_number x y :
  number x = true -> number y = true -> good (mul x y) (R (ord x * ord y)).
Proof.
  intros Hx Hy. destruct (number_inv x Hx) as (? & ? & ?).
  destruct (number_inv y Hy) as (? & ? & ?). apply mul_spec; assumption.
Qed.

Lemma add_number x y :
  number x = true -> number y = true -> good (add x y) (R ((ord x + ord y) * U)).
Proof.
  intros Hx Hy. destruct (number_inv x Hx) as (? & ? & ?).
  destruct (number_inv y Hy) as (? & ? & ?). apply add_spec; assumption.
Qed.

Lemma sub_number x y :
  number x = true -> number y = true -> good (sub x y) (R ((ord x - ord y) * U)).
Proof.
  intros Hx Hy. destruct (number_inv x Hx) as (? & ? & ?).
  destruct (number_inv y Hy) as (? & ? & ?). apply sub_spec; assumption.
Qed.

Lemma ord_mul x y :
  number x = true -> number y = true -> ord (mul x y) = R (ord x * ord y).
Proof. intros Hx Hy. apply (mul_number x y Hx Hy). Qed.

Lemma ord_add x y :
  number x = true -> number y = true -> ord (add x y) = R ((ord x + ord y) * U).
Proof. intros Hx Hy. apply (add_number x y Hx Hy). Qed.

Lemma ord_sub x y :
  number x = true -> number y = true -> ord (sub x y) = R ((ord x - ord y) * U).
Proof. intros Hx Hy. apply (sub_number x y Hx Hy). Qed.

Lemma ord_of_Z n : ord (of_Z n) = R (n * U * U).
Proof. apply (of_Z_spec n). Qed.

Lemma add_mono x1 y1 x2 y2 :
  number x1 = true -> number y1 = true -> number x2 = true -> number y2 = true ->
  ord x1 <= ord x2 -> ord y1 <= ord y2 -> ord (add x1 y1) <= ord (add x2 y2).
Proof.
  intros. rewrite !ord_add by assumption. apply R_mono.
  apply Z.mul_le_mono_nonneg_r; [pose proof U_pos; lia | lia].
Qed.

Lemma sub_mono x1 y1 x2 y2 :
  number x1 = true -> number y1 = true -> number x2 = true -> number y2 = true ->
  ord x1 <= ord x2 -> ord y2 <= ord y1 -> ord (sub x1 y1) <= ord (sub x2 y2).
Proof.
  intros. rewrite !ord_sub by assumption. apply R_mono.
  apply Z.mul_le_mono_nonneg_r; [pose proof U_pos; lia | lia].
Qed.

Lemma mul_mono_l x1 x2 y :
  number x1 = true -> number x2 = true -> number y = true ->
  0 <= ord y -> ord x1 <= ord x2 -> ord (mul x1 y) <= ord (mul x2 y).
Proof.
  intros. rewrite !ord_mul by assumption. apply R_mono.
  apply Z.mul_le_mono_nonneg_r; assumption.
Qed.

Lemma mul_mono_r x y1 y2 :
  number x = true -> number y1 = true -> number y2 = true ->
  0 <= ord x -> ord y1 <= ord y2 -> ord (mul x y1) <= ord (mul x y2).
Proof.
  intros. rewrite !ord_mul by assumption. apply R_mono.
  apply Z.mul_le_mono_nonneg_l; assumption.
Qed.

Lemma of_Z_mono a b : a <= b -> ord (of_Z a) <= ord (of_Z b).
Proof.
  intros H. rewrite !ord_of_Z. apply R_mono. pose proof U_pos.
  apply Z.mul_le_mono_nonneg_r; [lia|]. apply Z.mul_le_mono_nonneg_r; lia.
Qed.

(** An operation with a finite result has finite operands. *)
Lemma mul_finite_inv x y :
  is_finite (mul x y) = true -> is_finite x = true /\ is_finite y = true.
Proof. destruct x, y; cbn; try discriminate; auto. Qed.

Lemma add_finite_inv x y :
  is_finite (add x y) = true -> is_finite x = true /\ is_finite y = true.
Proof.
  destruct x as [[]|[]| |], y as [[]|[]| |]; cbn; try discriminate; auto.
Qed.

Lemma trunc_number x :
  number x = true -> int_of_float x = Ok (Z.quot (ord x) U).
Proof.
  intros H. destruct (number_inv x H) as (V & F & N).
  unfold int_of_float. rewrite trunc_ord by assumption. reflexivity.
Qed.

Lemma ceil_number x :
  number x = true -> py_ceil x = Ok (- (- ord x / U)).
Proof.
  intros H. destruct (number_inv x H) as (V & F & N).
  unfold py_ceil. rewrite ceil_ord by assumption. reflexivity.
Qed.

Lemma convert_returns x r z : convert x r = Ok z -> r = Some z.
Proof. unfold convert. destruct r; [congruence|discriminate]. Qed.

Lemma ceil_returns x z : py_ceil x = Ok z -> is_finite x = true.
Proof.
  unfold py_ceil. intros H. apply convert_returns in H.
  destruct x; try discriminate; reflexivity.
Qed.

End Binary64Facts.

(** * The event rules *)

Section EventFacts.
Context {noise : NoiseOracle} {source : RandomSource}.

Lemma on_tile_settlement (P : SettlementState -> Prop) k :
    (forall h s, P (fst s) -> P (fst (snd (k h s)))) ->
    forall s, P (fst s) -> P (fst (snd (on_tile k s))).
Proof.
    intros Hk [st w] HP.
    unfold on_tile, bind, get_state, get_world, modify, ret; cbn [fst snd].
    destruct (location st) as [[x y]|]; [|exact HP].
    destruct (world_changes (settings w)); [|exact HP].
    destruct (world_get w x y) as [h|]; [|exact HP].
    specialize (Hk h (st, w) HP).
    destruct (k h (st, w)) as [h' [st' w']]. exact Hk.
Qed.

Lemma nonneg_with_resources v s : nonneg s -> 0 <= v -> nonneg (with_resources v s).
Proof. unfold nonneg; cbn; tauto. Qed.
Lemma nonneg_with_population v s : nonneg s -> 0 <= v -> nonneg (with_population v s).
Proof. unfold nonneg; cbn; tauto. Qed.
Lemma nonneg_with_buildings v s : nonneg s -> 0 <= v -> nonneg (with_buildings v s).
Proof. unfold nonneg; cbn; tauto. Qed.

Lemma tile_nonneg e sev h s :
    nonneg (fst s) ->
    nonneg (fst (snd (match e with
                      | Flood => Flood.tile sev h s
                      | Drought => Drought.tile sev h s
                      | Raid => Raid.tile sev h s
                      | Earthquake => Earthquake.tile sev h s
                      | Hurricane => Hurricane.tile sev h s
                      end))).
Proof.
    destruct s as [st w]. intros H.
    destruct e;
      unfold Flood.tile, Drought.tile, Raid.tile, Earthquake.tile, Hurricane.tile.
    - destruct (Binary64.ltb Binary64.c1_3 sev); [|exact H].
      destruct (river (with_flooded true h)).
      + destruct (sever_river (with_flooded true h) w) as [h' w'].
        destruct (String.eqb _ _); exact H.
      + destruct (String.eqb _ _); exact H.
    - destruct (Binary64.ltb Binary64.c1_3 sev); [|exact H].
      destruct (lake _); exact H.
    - destruct (Binary64.ltb Binary64.c1_3 sev); [|exact H].
      destruct (String.eqb _ _); cbn [fst snd];
        apply nonneg_with_buildings; (exact H || lia).
    - destruct (Binary64.ltb Binary64.c1_3 sev); exact H.
    - destruct (Binary64.ltb Binary64.c1_3 sev); [|exact H].
      destruct (river (with_flooded true h)); [|exact H].
      destruct (sever_river (with_flooded true h) w) as [h' w']. exact H.
Qed.

  (** Destructs the conversions an event rule goes through, in order. *)
Ltac step_rule :=
    repeat match goal with
      | |- context [match ?o with Ok _ => _ | Raise _ => _ end] =>
          destruct o eqn:?; cbn [fst snd]
      end.

  (** C1: whatever the event, the settlement and the world, an [apply] that
      starts from counters that are all non-negative leaves them all
      non-negative, whether it returns or raises. *)
Theorem apply_nonneg (e : Event) (state : SettlementState) (world : World) :
    nonneg state -> nonneg (settlement_after e (state, world)).
Proof.
    intros H. pose proof H as (Hr & Hp & Hb & Hd).
    unfold settlement_after, apply.
    destruct e;
      unfold Flood.apply, Drought.apply, Raid.apply, Earthquake.apply,
        Hurricane.apply, bind, get_state, get_world, set_buildings,
        set_resources, set_population, modify, lift;
      cbn [fst snd]; step_rule; try exact H.
    all: try (apply (on_tile_settlement nonneg);
              [ intros h s Hs;
                first [ apply (tile_nonneg Flood _ h s Hs)
                      | apply (tile_nonneg Drought _ h s Hs)
                      | apply (tile_nonneg Raid _ h s Hs)
                      | apply (tile_nonneg Earthquake _ h s Hs)
                      | apply (tile_nonneg Hurricane _ h s Hs) ]
              | cbn [fst snd] ]).
    all: repeat match goal with
           | |- nonneg (with_resources _ _) => apply nonneg_with_resources
           | |- nonneg (with_population _ _) => apply nonneg_with_population
           | |- nonneg (with_buildings _ _) => apply nonneg_with_buildings
           end;
         try exact H; cbn [resources with_buildings]; lia.
Qed.

  (** *** Terrain *)








  (** *** A missing tile *)



End EventFacts.

(** * The event system *)

Section SystemFacts.
Context {noise : NoiseOracle} {source : RandomSource}.

  (** *** Scheduling *)

Lemma randint_returns a b g :
    returned (fst (randint a b g)) = (a <=? b).
Proof.
    unfold randint. destruct (a <=? b); [|reflexivity].
    destruct (randbelow g (b - a + 1)); reflexivity.
Qed.

Lemma schedule_next_needs_range self t :
    fst (EventSystem._schedule_next self) = Ok t ->
    exists lo hi,
      EventSystem.min_base (EventSystem.settings self) = Ok lo /\
      EventSystem.max_base (EventSystem.settings self) = Ok hi /\
      lo <= hi.
Proof.
    unfold EventSystem._schedule_next, bind, get, lift, EventSystem.on_rng.
    cbn [fst snd].
    destruct (EventSystem.min_base _) as [lo|]; [|discriminate].
    destruct (EventSystem.max_base _) as [hi|]; [|discriminate].
    pose proof (randint_returns lo hi (EventSystem.rng self)) as Hr.
    destruct (randint lo hi (EventSystem.rng self)) as [[base|e] g];
      cbn [fst snd] in *; [|discriminate].
    intros _. exists lo, hi. repeat split. apply Z.leb_le. symmetry. exact Hr.
Qed.

Lemma schedule_next_empty_range self lo hi :
    EventSystem.min_base (EventSystem.settings self) = Ok lo ->
    EventSystem.max_base (EventSystem.settings self) = Ok hi ->
    hi < lo ->
    EventSystem._schedule_next self = (Raise ValueError, self).
Proof.
    intros Hlo Hhi Hlt.
    unfold EventSystem._schedule_next, bind, get, lift, EventSystem.on_rng.
    rewrite Hlo, Hhi. unfold randint.
    destruct (Z.leb_spec lo hi); [lia|]. destruct self; reflexivity.
Qed.

Lemma int_part_nonneg m e : 0 <= Binary64.int_part m e.
Proof.
    unfold Binary64.int_part. destruct (Z.leb_spec 0 e).
    - apply Z.mul_nonneg_nonneg; [lia|]. apply Z.pow_nonneg. lia.
    - apply Z.div_pos; [lia|]. apply Z.pow_pos_nonneg; lia.
Qed.



  (** *** Choosing *)

Lemma bisect_loop_range rounds a x lo hi :
    (lo <= hi)%nat ->
    (lo <= bisect_loop rounds a x lo hi <= hi)%nat.
Proof.
    revert lo hi. induction rounds as [|rounds IH]; intros lo hi Hle;
      cbn [bisect_loop].
    - lia.
    - destruct (Nat.ltb_spec lo hi) as [Hlt|]; [|lia].
      assert (Hmid : (lo <= (lo + hi) / 2 < hi)%nat).
      { split.
        - apply Nat.div_le_lower_bound; lia.
        - apply Nat.Div0.div_lt_upper_bound; lia. }
      destruct (Binary64.ltb x _).
      + specialize (IH lo ((lo + hi) / 2)%nat). lia.
      + specialize (IH ((lo + hi) / 2 + 1)%nat hi). lia.
Qed.

Lemma choices_returns (g : generator) (ws : list float) :
    length (accumulate ws) = 5%nat ->
    returned (fst (choices ALL_EVENTS ws g))
    = match last (accumulate ws) with
      | Some t =>
          negb (Binary64.leb (Binary64.add t Binary64.zero) Binary64.zero)
          && Binary64.is_finite (Binary64.add t Binary64.zero)
      | None => false
      end.
Proof.
    intros Hlen. unfold choices. rewrite Hlen. cbn [length Nat.eqb negb].
    destruct (last (accumulate ws)) as [t|]; [|reflexivity].
    destruct (Binary64.leb _ _); [reflexivity|].
    destruct (Binary64.is_finite _); [|reflexivity]. cbn [negb andb].
    destruct (random g) as [r g'].
    pose proof (bisect_loop_range (4 - 0) (accumulate ws)
                  (Binary64.mul r (Binary64.add t Binary64.zero)) 0 4
                  ltac:(lia)) as Hb.
    unfold bisect. cbn [Nat.sub] in *.
    destruct (ALL_EVENTS !! _) as [e|] eqn:He; [reflexivity|].
    apply lookup_ge_None in He. cbn [ALL_EVENTS length Nat.sub] in He. lia.
Qed.

  (** C3, as amended: a weather pattern that lacks ["rain"] or ["dry"]
      weighs the events exactly as one that maps the missing key to 0.1,
      and the choice of an event returns exactly when the total of the
      five weights is positive and finite; with all five weights zero it
      raises. *)
Theorem choose_event_returns (self : EventSystem.t) :
    (forall key, key = "rain"%string \/ key = "dry"%string ->
       weather_patterns (EventSystem.settings self) !! key = None ->
       EventSystem.weights self
       = EventSystem.weights
           (with_event_settings
              (with_weather_patterns
                 (<[key := Binary64.c0_1]>
                    (weather_patterns (EventSystem.settings self)))
                 (EventSystem.settings self)) self)) /\
    returned (fst (EventSystem._choose_event self))
    = negb (Binary64.leb (total_weight self) Binary64.zero)
      && Binary64.is_finite (total_weight self).
Proof.
    split.
    - intros key Hkey Hnone. unfold EventSystem.weights.
      cbn [with_event_settings EventSystem.settings EventSystem.event_weights
             with_weather_patterns weather_patterns moisture plate_activity].
      destruct Hkey as [-> | ->].
      + rewrite Hnone, lookup_insert_eq, lookup_insert_ne by discriminate.
        reflexivity.
      + rewrite Hnone, lookup_insert_eq, lookup_insert_ne by discriminate.
        reflexivity.
    - unfold EventSystem._choose_event, bind, get, EventSystem.on_rng, total_weight.
      cbn [fst snd].
      pose proof (choices_returns (EventSystem.rng self)
                    (EventSystem.weights self) eq_refl) as H.
      destruct (choices ALL_EVENTS (EventSystem.weights self)
                  (EventSystem.rng self)) as [o g].
      cbn [fst] in *. rewrite H.
      destruct (last _); reflexivity.
Qed.
  (** *** Runs

      Every method is embedded as a function of the generator, the
      settings, the weights, the settlement and the world it is given, and
      the generator the operating system would seed enters [__init__] as
      the argument [fresh]. Two runs from equal arguments are therefore one
      and the same term: that a run can be reproduced is a property of the
      embedding, and no theorem about it is stated. *)
End SystemFacts.

(** *** The scheduled gap *)

Section Gap.
Context {source : RandomSource} {lawful : Lawful source}.
Import Binary64 Binary64Facts.

Lemma leb_number x lo hi :
    valid x = true -> number lo = true -> number hi = true ->
    leb lo x = true -> leb x hi = true ->
    number x = true /\ ord lo <= ord x <= ord hi.
Proof.
    intros Vx Hlo Hhi H1 H2.
    destruct (number_inv lo Hlo) as (Vlo & _). destruct (number_inv hi Hhi) as (Vhi & _).
    pose proof (leb_le lo x Vlo Vx H1). pose proof (leb_le x hi Vx Vhi H2).
    split; [|lia].
    apply (good_between x (ord x) lo hi); try assumption; [|lia].
    apply good_ord; [assumption|]. apply (leb_not_nan lo x H1).
Qed.

Lemma ceil_above_floor a : a / U <= - (- a / U).
Proof.
    pose proof U_pos.
    pose proof (Z.mul_div_le a U ltac:(lia)).
    pose proof (Z.mul_div_le (- a) U ltac:(lia)). nia.
Qed.

Lemma randint_range lo hi g :
    lo <= hi ->
    exists base g', randint lo hi g = (Ok base, g') /\ lo <= base <= hi.
Proof.
    intros Hle. unfold randint. destruct (Z.leb_spec lo hi); [|lia].
    pose proof (randbelow_range g (hi - lo + 1) ltac:(lia)) as Hr.
    destruct (randbelow g (hi - lo + 1)) as [k g']. cbn [fst] in Hr.
    exists (lo + k), g'. split; [reflexivity|lia].
Qed.

  (** The delay-range bounds for an intensity between 0 and 1. *)
Lemma bases_in_range (s : WorldSettings) :
    valid (disaster_intensity s) = true ->
    leb zero (disaster_intensity s) = true ->
    leb (disaster_intensity s) one = true ->
    exists lo hi,
      EventSystem.min_base s = Ok lo /\ EventSystem.max_base s = Ok hi /\
      10 <= lo /\ lo <= hi /\ 20 <= hi <= 60.
Proof.
    intros Vd H0 H1. set (d := disaster_intensity s) in *.
    destruct (leb_number d zero one Vd eq_refl eq_refl H0 H1) as [Nd Hd].
    unfold EventSystem.min_base, EventSystem.max_base. fold d.
    change (of_Z 1) with one.
    set (x := sub one d).
    assert (Hx : number x = true /\ 0 <= ord x <= ord one).
    { pose proof (sub_mono one one one d eq_refl eq_refl eq_refl Nd
                    ltac:(lia) ltac:(lia)) as Hlo.
      pose proof (sub_mono one d one zero eq_refl Nd eq_refl eq_refl
                    ltac:(lia) ltac:(lia)) as Hhi.
      replace (ord (sub one one)) with 0 in Hlo by (vm_compute; reflexivity).
      replace (ord (sub one zero)) with (ord one) in Hhi
        by (vm_compute; reflexivity).
      fold x in Hlo, Hhi. split; [|lia].
      apply (good_between x _ zero one (sub_number one d eq_refl Nd));
        try reflexivity.
      rewrite <- (ord_sub one d eq_refl Nd). fold x.
      change (ord zero) with 0. lia. }
    destruct Hx as [Nx Hx].
    assert (Hscaled : forall c : float,
              number c = true -> 0 <= ord c ->
              number (mul zero c) = true -> number (mul one c) = true ->
              ord (mul zero c) = 0 ->
              number (mul x c) = true /\ 0 <= ord (mul x c) <= ord (mul one c)).
    { intros c Nc Hc N0 N1 E0.
      pose proof (mul_mono_l zero x c eq_refl Nx Nc Hc ltac:(change (ord zero) with 0; lia)) as Hlo.
      pose proof (mul_mono_l x one c Nx eq_refl Nc Hc ltac:(lia)) as Hhi.
      rewrite E0 in Hlo. split; [|lia].
      apply (good_between _ _ (mul zero c) (mul one c) (mul_number x c Nx Nc));
        try assumption.
      rewrite <- (ord_mul x c Nx Nc). lia. }
    assert (N20c : number (of_Z 20) = true) by (vm_compute; reflexivity).
    assert (N40c : number (of_Z 40) = true) by (vm_compute; reflexivity).
    destruct (Hscaled (of_Z 20) N20c ltac:(vm_compute; discriminate)
                ltac:(vm_compute; reflexivity) ltac:(vm_compute; reflexivity)
                ltac:(vm_compute; reflexivity)) as [N20 H20].
    destruct (Hscaled (of_Z 40) N40c ltac:(vm_compute; discriminate)
                ltac:(vm_compute; reflexivity) ltac:(vm_compute; reflexivity)
                ltac:(vm_compute; reflexivity)) as [N40 H40].
    pose proof (mul_mono_r x (of_Z 20) (of_Z 40) Nx N20c N40c
                  ltac:(lia) (of_Z_mono 20 40 ltac:(lia))) as H2040.
    rewrite (trunc_number _ N20), (trunc_number _ N40).
    pose proof U_pos as HU.
    pose proof (Z.quot_pos _ U (proj1 H20) HU) as Ht20.
    pose proof (Z.quot_le_mono _ _ U HU H2040) as Hmono.
    pose proof (Z.quot_le_mono _ _ U HU (proj2 H40)) as Ht40.
    replace (ord (mul one (of_Z 40)) ÷ U) with 40 in Ht40
      by (vm_compute; reflexivity).
    eexists _, _. split; [reflexivity|]. split; [reflexivity|]. lia.
Qed.

Lemma small_int_number n :
    0 <= n <= 60 ->
    number (of_Z n) = true /\ 0 <= ord (of_Z n) /\
    float_of_int n = Ok (of_Z n).
Proof.
    intros Hn.
    pose proof (of_Z_mono 0 n ltac:(lia)) as H1.
    pose proof (of_Z_mono n 60 ltac:(lia)) as H2.
    replace (ord (of_Z 0)) with 0 in H1 by (vm_compute; reflexivity).
    assert (N : number (of_Z n) = true).
    { apply (good_between _ _ (of_Z 0) (of_Z 60) (of_Z_spec n));
        [vm_compute; reflexivity | vm_compute; reflexivity |].
      rewrite <- ord_of_Z.
      replace (ord (of_Z 0)) with 0 by (vm_compute; reflexivity). lia. }
    repeat split; try assumption.
    unfold float_of_int. destruct (number_inv _ N) as (_ & -> & _). reflexivity.
Qed.

Lemma valid_finite_number x :
    valid x = true -> is_finite x = true -> number x = true.
Proof. unfold number. intros -> ->. reflexivity. Qed.

  (** C7, as amended: whenever [_schedule_next] runs with an intensity
      between 0 and 1 and a non-negative moisture for which the bound
      [ceil(max_base * (1 + moisture * 0.5))] is a number, it returns, and
      the gap it schedules lies between 2 and that bound. *)
Theorem schedule_next_gap (self : EventSystem.t) (c : Z) :
    valid (disaster_intensity (EventSystem.settings self)) = true ->
    leb zero (disaster_intensity (EventSystem.settings self)) = true ->
    leb (disaster_intensity (EventSystem.settings self)) one = true ->
    valid (moisture (EventSystem.settings self)) = true ->
    leb zero (moisture (EventSystem.settings self)) = true ->
    gap_bound (EventSystem.settings self) = Ok c ->
    exists t self',
      EventSystem._schedule_next self = (Ok t, self') /\
      2 <= t - EventSystem.turn_counter self <= c.
Proof.
    intros Vd Hd0 Hd1 Vm Hm0 Hc. set (s := EventSystem.settings self) in *.
    destruct (bases_in_range s Vd Hd0 Hd1)
      as (lo & hi & Hlo & Hhi & Hlo10 & Hle & Hhi').
    destruct (small_int_number hi ltac:(lia)) as (Nh & Hh0 & Eh).
    unfold gap_bound in Hc. rewrite Hhi, Eh in Hc.
    unfold EventSystem.weather_factor in Hc.
    set (m := moisture s) in *.
    set (p := mul m c0_5) in *. set (wf := add one p) in *.
    set (hb := mul (of_Z hi) wf) in *.
    (* the bound is a number, hence so are its operands *)
    pose proof (ceil_returns _ _ Hc) as Fhb.
    destruct (mul_finite_inv _ _ Fhb) as [_ Fwf].
    destruct (add_finite_inv _ _ Fwf) as [_ Fp].
    destruct (mul_finite_inv _ _ Fp) as [Fm _].
    pose proof (valid_finite_number m Vm Fm) as Nm.
    assert (N05 : number c0_5 = true) by reflexivity.
    assert (N1 : number one = true) by reflexivity.
    assert (N0 : number zero = true) by reflexivity.
    pose proof (valid_finite_number p (proj1 (mul_number m c0_5 Nm N05)) Fp) as Np.
    pose proof (valid_finite_number wf (proj1 (add_number one p N1 Np)) Fwf) as Nwf.
    pose proof (valid_finite_number hb (proj1 (mul_number _ wf Nh Nwf)) Fhb) as Nhb.
    (* the weather factor is at least 1 *)
    pose proof (leb_le zero m eq_refl Vm Hm0) as Hm.
    change (ord zero) with 0 in Hm.
    assert (Hp : 0 <= ord p).
    { pose proof (mul_mono_l zero m c0_5 N0 Nm N05
                    ltac:(vm_compute; discriminate) Hm) as H.
      replace (ord (mul zero c0_5)) with 0 in H by (vm_compute; reflexivity).
      exact H. }
    assert (Hwf : ord one <= ord wf).
    { pose proof (add_mono one zero one p N1 N0 N1 Np ltac:(lia) Hp) as H.
      replace (ord (add one zero)) with (ord one) in H
        by (vm_compute; reflexivity).
      exact H. }
    assert (H1 : 0 < ord one) by (vm_compute; reflexivity).
    (* the draw *)
    destruct (randint_range lo hi (EventSystem.rng self) Hle)
      as (base & g' & Hr & Hbase).
    destruct (small_int_number base ltac:(lia)) as (Nb & Hb0 & Eb).
    set (prod := mul (of_Z base) wf).
    assert (Hprod : 0 <= ord prod <= ord hb).
    { split.
      - pose proof (mul_mono_l zero (of_Z base) wf N0 Nb Nwf ltac:(lia) Hb0) as H.
        rewrite (ord_mul zero wf N0 Nwf) in H.
        change (ord zero) with 0 in H. rewrite Z.mul_0_l in H. exact H.
      - apply mul_mono_l; try assumption; [lia|]. apply of_Z_mono. lia. }
    assert (Nprod : number prod = true).
    { apply (good_between _ _ zero hb (mul_number _ wf Nb Nwf));
        try assumption.
      rewrite <- (ord_mul _ wf Nb Nwf). change (ord zero) with 0. exact Hprod. }
    (* the bound is at least 20 *)
    assert (H20 : 20 * U <= ord hb).
    { destruct (small_int_number 20 ltac:(lia)) as (N20 & H200 & _).
      pose proof (mul_mono_r (of_Z 20) one wf N20 N1 Nwf H200 Hwf) as Ha.
      pose proof (mul_mono_l (of_Z 20) (of_Z hi) wf N20 Nh Nwf ltac:(lia)
                    (of_Z_mono 20 hi ltac:(lia))) as Hb.
      replace (ord (mul (of_Z 20) one)) with (20 * U) in Ha
        by (vm_compute; reflexivity).
      fold hb in Hb. lia. }
    rewrite (ceil_number hb Nhb) in Hc. injection Hc as <-.
    pose proof U_pos as HU.
    pose proof (ceil_above_floor (ord hb)) as Hceil.
    pose proof (Z.div_le_mono _ _ U HU (proj2 Hprod)) as Hdiv.
    pose proof (Z.div_le_mono _ _ U HU H20) as Hdiv20.
    rewrite Z.div_mul in Hdiv20 by lia.
    (* the computation *)
    unfold EventSystem._schedule_next, bind, get, lift, ret, EventSystem.on_rng.
    fold s. rewrite Hlo, Hhi, Hr, Eb.
    unfold EventSystem.weather_factor. fold m p wf prod.
    rewrite (trunc_number prod Nprod).
    rewrite Z.quot_div_nonneg by lia.
    eexists _, _. split; [reflexivity|]. lia.
Qed.
End Gap.

(** * Severity *)

Section SeverityFacts.
Context {noise : NoiseOracle} {source : RandomSource}.
Import Binary64 Binary64Facts.

Lemma R_sign a b lo :
    0 < R lo -> lo <= b -> (0 <? R (a * b)) = (0 <? a).
Proof.
    intros Hlo Hb.
    assert (Hlo0 : 0 < lo).
    { destruct (Z_lt_le_dec 0 lo) as [|Hle]; [assumption|].
      pose proof (R_mono lo 0 Hle) as H. change (R 0) with 0 in H. lia. }
    destruct (Z.ltb_spec 0 a) as [Ha|Ha].
    - apply Z.ltb_lt. pose proof (R_mono lo (a * b) ltac:(nia)). lia.
    - apply Z.ltb_ge. destruct (Z.eq_dec a 0) as [->|Hne].
      + rewrite Z.mul_0_l. reflexivity.
      + pose proof (R_mono (a * b) (- lo) ltac:(nia)) as H.
        rewrite R_opp in H. lia.
Qed.




  (** The sign of a product with a factor that is at least [lo] > 0. *)
Lemma mul_sign b g lo :
    number b = true -> number g = true -> 0 < R lo -> lo <= ord g ->
    (0 <? ord (mul b g)) = (0 <? ord b).
Proof.
    intros Nb Ng Hlo Hg. rewrite (ord_mul b g Nb Ng). apply (R_sign _ _ lo Hlo Hg).
Qed.

  (** The sign of a product with a factor that is at least 1 and may be
      infinite. *)
Lemma mul_sign_unbounded b f :
    number b = true -> valid f = true -> is_nan f = false -> ord one <= ord f ->
    ltb zero (mul b f) = (0 <? ord b).
Proof.
    intros Nb Vf Nf Hf. destruct (number_inv b Nb) as (Vb & Fb & _).
    destruct (is_finite f) eqn:Ff.
    - pose proof (valid_finite_number f Vf Ff) as Nff.
      unfold zero.
      rewrite (good_ltb _ _ _ _ (good_zero false) (mul_number b f Nb Nff)).
      apply (R_sign _ _ (ord one)); [vm_compute; reflexivity | exact Hf].
    - assert (H1 : 0 < ord one) by (vm_compute; reflexivity).
      destruct f as [s|s| |s m e]; try discriminate.
      destruct s.
      + exfalso. cbn [ord cond_opp] in Hf. pose proof INF_pos. lia.
      + destruct b as [sb|sb| |sb mb eb]; try discriminate.
        * reflexivity.
        * pose proof (mag_bounds mb eb Vb) as Hm.
          cbn [ord]. destruct sb; cbn [cond_opp mul SFmul xorb].
          -- change (ltb zero (S754_infinity true)) with false.
             symmetry. apply Z.ltb_ge. lia.
          -- change (ltb zero (S754_infinity false)) with true.
             symmetry. apply Z.ltb_lt. lia.
Qed.

Lemma one_plus_intensity d :
    valid d = true -> leb zero d = true ->
    valid (add one d) = true /\ is_nan (add one d) = false /\
    ord one <= ord (add one d).
Proof.
    intros Vd Hd. destruct (is_finite d) eqn:Fd.
    - pose proof (valid_finite_number d Vd Fd) as Nd.
      pose proof (leb_le zero d eq_refl Vd Hd) as H0.
      change (ord zero) with 0 in H0.
      destruct (add_number one d eq_refl Nd) as (V & N & _).
      repeat split; try assumption.
      pose proof (add_mono one zero one d eq_refl eq_refl eq_refl Nd
                    ltac:(lia) H0) as H.
      replace (ord (add one zero)) with (ord one) in H
        by (vm_compute; reflexivity).
      exact H.
    - destruct d as [s|s| |s m e]; try discriminate.
      destruct s; [discriminate|].
      repeat split. vm_compute. discriminate.
Qed.

Lemma between_number x lo hi :
    valid x = true -> is_nan x = false ->
    number lo = true -> number hi = true ->
    ord lo <= ord x <= ord hi -> number x = true.
Proof.
    intros V N Hlo Hhi H.
    apply (good_between x (ord x) lo hi); try assumption. apply good_ord; assumption.
Qed.

  (** The jitter factor [1 + rnd * 0.2] lies between 0.9 and 1.1. *)
Lemma jitter_factor_range (r : float) :
    valid r = true -> leb zero r = true -> ltb r one = true ->
    let g := add one (mul (sub r c0_5) c0_2) in
    number g = true /\ ord jitter_low <= ord g <= ord jitter_high.
Proof.
    intros Vr H0 H1 g.
    pose proof (leb_le zero r eq_refl Vr H0) as Hr0. change (ord zero) with 0 in Hr0.
    pose proof (ltb_lt r one Vr eq_refl H1) as Hr1.
    assert (Nr : number r = true).
    { apply (between_number r zero one); try reflexivity; try assumption.
      - apply (leb_not_nan zero r H0).
      - change (ord zero) with 0. lia. }
    assert (N5 : number c0_5 = true) by reflexivity.
    assert (N2 : number c0_2 = true) by reflexivity.
    assert (N0 : number zero = true) by reflexivity.
    assert (N1 : number one = true) by reflexivity.
    (* rnd = r - 0.5 *)
    set (rnd := sub r c0_5).
    assert (Hrnd : ord (sub zero c0_5) <= ord rnd <= ord (sub one c0_5)).
    { split; apply sub_mono; try assumption; change (ord zero) with 0; lia. }
    assert (Nlo : number (sub zero c0_5) = true) by (vm_compute; reflexivity).
    assert (Nhi : number (sub one c0_5) = true) by (vm_compute; reflexivity).
    assert (Nrnd : number rnd = true).
    { destruct (sub_number r c0_5 Nr N5) as (V & N & _).
      apply (between_number rnd _ _ V N Nlo Nhi Hrnd). }
    (* rnd * 0.2 *)
    set (t := mul rnd c0_2).
    assert (H2 : 0 <= ord c0_2) by (vm_compute; discriminate).
    assert (Ht : ord (mul (sub zero c0_5) c0_2) <= ord t
                 <= ord (mul (sub one c0_5) c0_2)).
    { split; apply mul_mono_l; try assumption; lia. }
    assert (Ntlo : number (mul (sub zero c0_5) c0_2) = true)
      by (vm_compute; reflexivity).
    assert (Nthi : number (mul (sub one c0_5) c0_2) = true)
      by (vm_compute; reflexivity).
    assert (Nt : number t = true).
    { destruct (mul_number rnd c0_2 Nrnd N2) as (V & N & _).
      apply (between_number t _ _ V N Ntlo Nthi Ht). }
    (* 1 + rnd * 0.2 *)
    assert (Hg : ord jitter_low <= ord g <= ord jitter_high).
    { unfold jitter_low, jitter_high, g. fold rnd t.
      split; apply add_mono; try assumption; lia. }
    split; [|exact Hg].
    destruct (add_number one t N1 Nt) as (V & N & _).
    apply (between_number g jitter_low jitter_high V N);
      [vm_compute; reflexivity | vm_compute; reflexivity | exact Hg].
Qed.

  (** The noise term [0.3 + n * 3.0] for a noise sample of [[-1, 1]]. *)
Lemma noise_term_number (n : float) :
    valid n = true -> leb (of_Z (-1)) n = true -> leb n one = true ->
    let b0 := add c0_3 (mul n c3_0) in
    number b0 = true /\
    ord (add c0_3 (mul (of_Z (-1)) c3_0)) <= ord b0
      <= ord (add c0_3 (mul one c3_0)).
Proof.
    intros Vn Hlo Hhi b0.
    assert (Nm1 : number (of_Z (-1)) = true) by (vm_compute; reflexivity).
    assert (N1 : number one = true) by reflexivity.
    assert (N3 : number c3_0 = true) by reflexivity.
    assert (N03 : number c0_3 = true) by reflexivity.
    destruct (number_inv _ Nm1) as (Vm1 & _).
    pose proof (leb_le _ n Vm1 Vn Hlo) as Hn0.
    pose proof (leb_le n one Vn eq_refl Hhi) as Hn1.
    assert (Nn : number n = true).
    { apply (between_number n (of_Z (-1)) one); try assumption.
      - apply (leb_not_nan n one Hhi).
      - lia. }
    set (n3 := mul n c3_0).
    assert (H3 : 0 <= ord c3_0) by (vm_compute; discriminate).
    assert (Hn3 : ord (mul (of_Z (-1)) c3_0) <= ord n3 <= ord (mul one c3_0)).
    { split; apply mul_mono_l; try assumption. }
    assert (Nl : number (mul (of_Z (-1)) c3_0) = true) by (vm_compute; reflexivity).
    assert (Nh : number (mul one c3_0) = true) by (vm_compute; reflexivity).
    assert (Nn3 : number n3 = true).
    { destruct (mul_number n c3_0 Nn N3) as (V & N & _).
      apply (between_number n3 _ _ V N Nl Nh Hn3). }
    assert (Hb : ord (add c0_3 (mul (of_Z (-1)) c3_0)) <= ord b0
                 <= ord (add c0_3 (mul one c3_0))).
    { unfold b0. fold n3. split; apply add_mono; try assumption; lia. }
    split; [|exact Hb].
    destruct (add_number c0_3 n3 N03 Nn3) as (V & N & _).
    apply (between_number b0 (add c0_3 (mul (of_Z (-1)) c3_0))
             (add c0_3 (mul one c3_0)) V N);
      [vm_compute; reflexivity | vm_compute; reflexivity | exact Hb].
Qed.

  (** C4, as amended: for an intensity of at least 0, the severity of a
      settlement without a location is strictly positive, and the severity
      of a settlement with a location, under the contract that the noise
      lies in [[-1, 1]], is strictly positive exactly when the noise term
      [0.3 + n * 3.0] is. *)
Theorem severity_positive_iff (state : SettlementState) (world : World) :
    Lawful source ->
    noise_in_unit_range noise ->
    valid (disaster_intensity (settings world)) = true ->
    leb zero (disaster_intensity (settings world)) = true ->
    ltb zero (Event.severity state world)
    = match location state with
      | None => true
      | Some (x, y) =>
          ltb zero
            (add c0_3
               (mul (perlin_noise x y (seed (settings world)) c0_1) c3_0))
      end.
Proof.
    intros lawful Hnoise Vd Hd.
    destruct (one_plus_intensity _ Vd Hd) as (Vf & Nf & Hf).
    unfold Event.severity, Event.base.
    set (f := add one (disaster_intensity (settings world))) in *.
    destruct (location state) as [[x y]|].
    - destruct (Hnoise x y (seed (settings world)) c0_1) as (Vn & Hn0 & Hn1).
      set (n := perlin_noise x y (seed (settings world)) c0_1) in *.
      destruct (noise_term_number n Vn Hn0 Hn1) as [Nb0 Hb0].
      destruct (random_unit
                  (Random (Event.jitter_key x y (seed (settings world)))))
        as (Vr & Hr0 & Hr1).
      set (r := fst (random _)) in *.
      destruct (jitter_factor_range r Vr Hr0 Hr1) as [Ng Hg].
      set (b0 := add c0_3 (mul n c3_0)) in *.
      set (g := add one (mul (sub r c0_5) c0_2)) in *.
      assert (Hsign : (0 <? ord (mul b0 g)) = (0 <? ord b0)).
      { apply (mul_sign b0 g (ord jitter_low) Nb0 Ng);
          [vm_compute; reflexivity | apply Hg]. }
      assert (Nbase : number (mul b0 g) = true).
      { destruct (mul_number b0 g Nb0 Ng) as (V & N & E).
        set (L := add c0_3 (mul (of_Z (-1)) c3_0)) in *.
        set (H := add c0_3 (mul one c3_0)) in *.
        assert (NL : number L = true) by (vm_compute; reflexivity).
        assert (NH : number H = true) by (vm_compute; reflexivity).
        assert (NJ : number jitter_high = true) by (vm_compute; reflexivity).
        assert (HL : ord L <= 0) by (vm_compute; discriminate).
        assert (HH : 0 <= ord H) by (vm_compute; discriminate).
        assert (HJ : 0 < ord jitter_low) by (vm_compute; reflexivity).
        apply (between_number _ (mul L jitter_high) (mul H jitter_high) V N);
          [vm_compute; reflexivity | vm_compute; reflexivity |].
        rewrite E, (ord_mul L _ NL NJ), (ord_mul H _ NH NJ).
        split; apply R_mono; nia. }
      rewrite (mul_sign_unbounded _ f Nbase Vf Nf Hf), Hsign.
      destruct (number_inv b0 Nb0) as (Vb0 & _ & Nnb0).
      symmetry. apply (good_ltb _ _ _ _ (good_zero false) (good_ord b0 Vb0 Nnb0)).
    - rewrite (mul_sign_unbounded one f eq_refl Vf Nf Hf). vm_compute. reflexivity.
Qed.
End SeverityFacts.

(** * The claims on concrete inputs *)

Section Concrete.
Import Scenario.

Lemma lcg_lawful : Lawful lcg_source.
Proof.
    split.
    - intros g. cbn. repeat split.
    - intros g n Hn. cbn. apply Z.mod_pos_bound. exact Hn.
Qed.

Lemma flat_noise_in_range : noise_in_unit_range flat_noise.
Proof. intros x y sd scale. cbn. repeat split. Qed.

Lemma low_noise_in_range : noise_in_unit_range low_noise.
Proof. intros x y sd scale. vm_compute. repeat split. Qed.

Lemma village_nonneg : nonneg village.
Proof. unfold nonneg. cbn. lia. Qed.




Lemma apply_nonneg_witness :
    nonneg village /\
    nonneg (@settlement_after flat_noise lcg_source Raid
              (village, world_of extreme)).
Proof.
    split; [exact village_nonneg|].
    apply (@apply_nonneg flat_noise lcg_source Raid village (world_of extreme)).
    unfold nonneg. cbn. lia.
Defined.

  (** C3 is refuted by a system whose five weights are all zero: the
      choice, and the turn that reaches it, raise [ValueError]. *)
Lemma zero_weights_raise :
    EventSystem.weights weightless
    = [Binary64.zero; Binary64.zero; Binary64.zero; Binary64.zero; Binary64.zero]
    /\ fst (EventSystem._choose_event weightless) = Raise ValueError
    /\ fst (@EventSystem.advance_turn flat_noise lcg_source
              (weightless, (village, world_of still))) = Raise ValueError.
Proof. repeat split; vm_compute; reflexivity. Qed.

  (** C4 is refuted by a noise sample of -1, which the assumed contract
      allows: the severity is about -2.7. *)
Lemma severity_negative_at_low_noise :
    noise_in_unit_range low_noise /\
    Lawful lcg_source /\
    Binary64.leb Binary64.zero
      (disaster_intensity (settings (world_of default_settings))) = true /\
    Binary64.ltb Binary64.zero
      (@Event.severity low_noise lcg_source village (world_of default_settings))
    = false /\
    Binary64.ltb
      (@Event.severity low_noise lcg_source village (world_of default_settings))
      Binary64.zero = true.
Proof.
    split; [exact low_noise_in_range|]. split; [exact lcg_lawful|].
    repeat split; vm_compute; reflexivity.
Qed.

Lemma severity_positive_iff_witness :
    Binary64.ltb Binary64.zero
      (@Event.severity flat_noise lcg_source village (world_of default_settings))
    = true.
Proof.
    rewrite (@severity_positive_iff flat_noise lcg_source village
               (world_of default_settings) lcg_lawful flat_noise_in_range).
    - vm_compute. reflexivity.
    - vm_compute. reflexivity.
    - vm_compute. reflexivity.
Defined.




  (** C7 is refuted at a moisture of 1e308: the weather factor is 5e307,
      the product with any base of the range overflows, and the
      construction raises [OverflowError]. *)
Lemma schedule_next_overflows :
    Binary64.valid (disaster_intensity soaked) = true /\
    Binary64.leb Binary64.zero (disaster_intensity soaked) = true /\
    Binary64.leb (disaster_intensity soaked) Binary64.one = true /\
    Binary64.valid (moisture soaked) = true /\
    Binary64.leb Binary64.zero (moisture soaked) = true /\
    @EventSystem.__init__ lcg_source 1 soaked (Some 42) None
    = Raise OverflowError.
Proof. repeat split; vm_compute; reflexivity. Qed.

Lemma schedule_next_gap_witness :
    exists t self',
      EventSystem._schedule_next started = (Ok t, self') /\
      2 <= t - EventSystem.turn_counter started <= 75.
Proof.
    apply (@schedule_next_gap lcg_source lcg_lawful started 75);
      vm_compute; reflexivity.
Defined.


Lemma started_by_init :
    @EventSystem.__init__ lcg_source 1 default_settings (Some 42) None
    = Ok started.
Proof. reflexivity. Qed.

  (** C10: there is a non-negative intensity, 2.0, at which the lower
      bound of the delay range (-10) exceeds the upper bound (-20), so
      that every reschedule and every construction raises [ValueError]
      instead of returning a turn; and [_schedule_next] returns only when
      the lower bound does not exceed the upper bound. *)
Theorem scheduling_needs_ordered_bounds :
    (Binary64.leb Binary64.zero (disaster_intensity doubled) = true /\
     EventSystem.min_base doubled = Ok (-10) /\
     EventSystem.max_base doubled = Ok (-20) /\
     (forall (source : RandomSource) (self : EventSystem.t),
        EventSystem.settings self = doubled ->
        EventSystem._schedule_next self = (Raise ValueError, self)) /\
     (forall (source : RandomSource) (fresh : generator)
             (rng : option generator) (weights : option (gmap string float)),
        EventSystem.__init__ fresh doubled rng weights = Raise ValueError)) /\
    (forall (source : RandomSource) (self : EventSystem.t) (t : Z),
       fst (EventSystem._schedule_next self) = Ok t ->
       exists lo hi,
         EventSystem.min_base (EventSystem.settings self) = Ok lo /\
         EventSystem.max_base (EventSystem.settings self) = Ok hi /\
         lo <= hi).
Proof.
    assert (Hlo : EventSystem.min_base doubled = Ok (-10))
      by (vm_compute; reflexivity).
    assert (Hhi : EventSystem.max_base doubled = Ok (-20))
      by (vm_compute; reflexivity).
    split; [|intros source self t; apply schedule_next_needs_range].
    split; [vm_compute; reflexivity|].
    split; [exact Hlo|]. split; [exact Hhi|]. split.
    - intros source self Hs.
      apply (schedule_next_empty_range self (-10) (-20));
        [rewrite Hs; exact Hlo | rewrite Hs; exact Hhi | lia].
    - intros source fresh rng weights. unfold EventSystem.__init__.
      rewrite (schedule_next_empty_range _ (-10) (-20));
        [reflexivity | exact Hlo | exact Hhi | lia].
Qed.
End Concrete.

(** * The event system, turn by turn *)

Section TurnFacts.
Context {noise : NoiseOracle} {source : RandomSource}.

(** [_schedule_next] and [_choose_event] touch nothing of the system but
    its generator. *)
Lemma schedule_next_frame (self : EventSystem.t) :
  snd (EventSystem._schedule_next self)
  = EventSystem.with_rng (EventSystem.rng (snd (EventSystem._schedule_next self)))
      self.
Proof.
  unfold EventSystem._schedule_next, bind, get, lift, ret, EventSystem.on_rng.
  destruct self as [s g w tc ne]. cbn [EventSystem.settings EventSystem.rng
    EventSystem.turn_counter].
  destruct (EventSystem.min_base s); [|reflexivity].
  destruct (EventSystem.max_base s); [|reflexivity].
  destruct (randint _ _ g) as [[base|e] g']; [|reflexivity].
  cbn [EventSystem.with_rng fst snd].
  destruct (float_of_int base); [|reflexivity].
  destruct (int_of_float _); reflexivity.
Qed.

Lemma schedule_next_ahead (self : EventSystem.t) (t : Z) :
  fst (EventSystem._schedule_next self) = Ok t ->
  EventSystem.turn_counter self + 2 <= t.
Proof.
  unfold EventSystem._schedule_next, bind, get, lift, ret, EventSystem.on_rng.
  destruct (EventSystem.min_base _); [|discriminate].
  destruct (EventSystem.max_base _); [|discriminate].
  destruct (randint _ _ _) as [[base|e] g']; [|discriminate].
  destruct (float_of_int base); [|discriminate].
  destruct (int_of_float _); [|discriminate].
  cbn [fst]. intros [= <-]. cbn. lia.
Qed.

Lemma choose_event_frame (self : EventSystem.t) :
  snd (EventSystem._choose_event self)
  = EventSystem.with_rng (EventSystem.rng (snd (EventSystem._choose_event self)))
      self.
Proof.
  unfold EventSystem._choose_event, bind, get, EventSystem.on_rng.
  destruct self as [s g w tc ne].
  destruct (choices _ _ _) as [o g']. reflexivity.
Qed.

(** What a call of [advance_turn] does before the scheduled turn. *)
Lemma advance_turn_quiet (s : EventSystem.t * Store) :
  EventSystem.turn_counter (fst s) + 1 < EventSystem.next_event_turn (fst s) ->
  EventSystem.advance_turn s
  = (Ok None,
     (EventSystem.with_turn_counter (EventSystem.turn_counter (fst s) + 1) (fst s),
      snd s)).
Proof.
  destruct s as [self st]. cbn [fst snd]. intros H.
  unfold EventSystem.advance_turn, bind, EventSystem.on_self, modify, get, ret.
  cbn [fst snd EventSystem.with_turn_counter EventSystem.turn_counter
         EventSystem.next_event_turn].
  destruct (Z.leb_spec (EventSystem.next_event_turn self)
              (EventSystem.turn_counter self + 1)); [lia|reflexivity].
Qed.

(** What every call of [advance_turn] does to the system, returning or
    raising. *)
Lemma advance_turn_frame (s : EventSystem.t * Store) :
  let self' := fst (snd (EventSystem.advance_turn s)) in
  EventSystem.turn_counter self' = EventSystem.turn_counter (fst s) + 1 /\
  EventSystem.settings self' = EventSystem.settings (fst s) /\
  EventSystem.event_weights self' = EventSystem.event_weights (fst s).
Proof.
  destruct s as [self st]. cbn [fst snd].
  unfold EventSystem.advance_turn, bind, EventSystem.on_self,
    EventSystem.on_store, modify, get, ret.
  cbn [fst snd].
  set (self1 := EventSystem.with_turn_counter
                  (EventSystem.turn_counter self + 1) self).
  destruct (EventSystem.next_event_turn self1 <=? EventSystem.turn_counter self1);
    cbn [fst snd]; [|repeat split].
  pose proof (choose_event_frame self1) as Hc.
  destruct (EventSystem._choose_event self1) as [[event|e] self2];
    cbn [fst snd] in *; [|rewrite Hc; repeat split].
  destruct (apply event st) as [[[]|e] st']; cbn [fst snd];
    [|rewrite Hc; repeat split].
  pose proof (schedule_next_frame self2) as Hn.
  destruct (EventSystem._schedule_next self2) as [[n|e] self3];
    cbn [fst snd] in *; rewrite Hn, Hc; repeat split.
Qed.

(** X1: as long as the counter stays below the scheduled turn, calls of
    [advance_turn] return nothing and leave the generator, the schedule,
    the settlement and the world as they are. *)
Theorem quiet_turns (n : nat) (s : EventSystem.t * Store) :
  EventSystem.turn_counter (fst s) + Z.of_nat n
    < EventSystem.next_event_turn (fst s) ->
  EventSystem.run n s
  = (Ok (replicate n None),
     (EventSystem.with_turn_counter
        (EventSystem.turn_counter (fst s) + Z.of_nat n) (fst s),
      snd s)).
Proof.
  revert s. induction n as [|n IH]; intros [self st]; cbn [fst snd]; intros H.
  - cbn [EventSystem.run replicate]. unfold ret. rewrite Z.add_0_r.
    destruct self; reflexivity.
  - cbn [EventSystem.run replicate]. unfold bind at 1.
    rewrite advance_turn_quiet by (cbn [fst]; lia). cbn [fst snd].
    unfold bind at 1. rewrite IH by (cbn; lia).
    cbn [fst snd EventSystem.with_turn_counter EventSystem.turn_counter].
    unfold ret. destruct self as [s g w tc ne].
    cbn [EventSystem.with_turn_counter EventSystem.turn_counter
           EventSystem.settings EventSystem.rng EventSystem.event_weights
           EventSystem.next_event_turn].
    replace (tc + 1 + Z.of_nat n) with (tc + Z.of_nat (S n)) by lia.
    reflexivity.
Qed.

(** X2: every call of [advance_turn] advances [turn_counter] by exactly one
    and keeps the settings and the event weights, whether it returns an
    event, returns nothing or raises. *)
Theorem advance_turn_counts (s : EventSystem.t * Store) :
  let self' := fst (snd (EventSystem.advance_turn s)) in
  EventSystem.turn_counter self' = EventSystem.turn_counter (fst s) + 1 /\
  EventSystem.settings self' = EventSystem.settings (fst s) /\
  EventSystem.event_weights self' = EventSystem.event_weights (fst s).
Proof. exact (advance_turn_frame s). Qed.

(** A returning call of [advance_turn] on a system whose next event is
    ahead. *)
Lemma advance_turn_ahead (s : EventSystem.t * Store) (r : option Event) :
  scheduled_ahead (fst s) ->
  fst (EventSystem.advance_turn s) = Ok r ->
  scheduled_ahead (fst (snd (EventSystem.advance_turn s))) /\
  (is_Some r <->
   EventSystem.turn_counter (fst s) + 1 = EventSystem.next_event_turn (fst s)) /\
  (is_Some r ->
   EventSystem.turn_counter (fst (snd (EventSystem.advance_turn s))) + 2
   <= EventSystem.next_event_turn (fst (snd (EventSystem.advance_turn s)))).
Proof.
  destruct s as [self st]. unfold scheduled_ahead. cbn [fst snd]. intros Ha.
  destruct (Z_lt_le_dec (EventSystem.turn_counter self + 1)
              (EventSystem.next_event_turn self)) as [Hq|Hf].
  - rewrite advance_turn_quiet by exact Hq. cbn [fst snd]. intros [= <-].
    cbn [EventSystem.with_turn_counter EventSystem.turn_counter
           EventSystem.next_event_turn].
    split; [lia|]. split; [split; [intros [? [=]]|lia]|intros [? [=]]].
  - unfold EventSystem.advance_turn, bind, EventSystem.on_self,
      EventSystem.on_store, modify, get, ret.
    cbn [fst snd].
    set (self1 := EventSystem.with_turn_counter
                    (EventSystem.turn_counter self + 1) self).
    destruct (Z.leb_spec (EventSystem.next_event_turn self1)
                (EventSystem.turn_counter self1)) as [_|Hlt];
      [|unfold self1 in Hlt; cbn in Hlt; lia].
    cbn [fst snd].
    pose proof (choose_event_frame self1) as Hc.
    destruct (EventSystem._choose_event self1) as [[event|e] self2];
      cbn [fst snd] in *; [|discriminate].
    destruct (apply event st) as [[[]|e] st']; cbn [fst snd]; [|discriminate].
    pose proof (schedule_next_frame self2) as Hn.
    pose proof (schedule_next_ahead self2) as Hs.
    destruct (EventSystem._schedule_next self2) as [[n|e] self3];
      cbn [fst snd] in *; [|discriminate].
    intros [= <-]. specialize (Hs n eq_refl).
    rewrite Hn, Hc in *. cbn in *. split; [lia|].
    split; [split; [lia|eauto]|lia].
Qed.

(** X3: a system whose next event lies in the future keeps it in the
    future over every call of [advance_turn] that returns; the call fires
    an event exactly when the counter reaches the scheduled turn, and
    then schedules the next event at least two turns ahead. *)
Theorem advance_turn_keeps_ahead (s : EventSystem.t * Store)
    (r : option Event) :
  scheduled_ahead (fst s) ->
  fst (EventSystem.advance_turn s) = Ok r ->
  scheduled_ahead (fst (snd (EventSystem.advance_turn s))) /\
  (is_Some r <->
   EventSystem.turn_counter (fst s) + 1 = EventSystem.next_event_turn (fst s)) /\
  (is_Some r ->
   EventSystem.turn_counter (fst (snd (EventSystem.advance_turn s))) + 2
   <= EventSystem.next_event_turn (fst (snd (EventSystem.advance_turn s)))).
Proof. exact (advance_turn_ahead s r). Qed.

(** X4: a system that [__init__] returns starts at turn 0 with its first
    event at least two turns ahead, holds the given settings, and holds
    the five default weights when it was given no weights or an empty
    dict, the given weights otherwise. *)
Theorem init_schedules_ahead (fresh : generator) (settings : WorldSettings)
    (rng : option generator) (event_weights : option (gmap string float))
    (self : EventSystem.t) :
  EventSystem.__init__ fresh settings rng event_weights = Ok self ->
  EventSystem.turn_counter self = 0 /\
  2 <= EventSystem.next_event_turn self /\
  scheduled_ahead self /\
  EventSystem.settings self = settings /\
  EventSystem.event_weights self
  = match event_weights with
    | Some w => if decide (w = ∅) then EventSystem.default_event_weights else w
    | None => EventSystem.default_event_weights
    end.
Proof.
  unfold EventSystem.__init__, scheduled_ahead.
  set (self0 := EventSystem.Build_t _ _ _ _ _).
  pose proof (schedule_next_frame self0) as Hf.
  pose proof (schedule_next_ahead self0) as Ha.
  destruct (EventSystem._schedule_next self0) as [[n|e] self1];
    cbn [fst snd] in *; [|discriminate].
  intros [= <-]. specialize (Ha n eq_refl). rewrite Hf.
  cbn in *. repeat split; lia.
Qed.

Lemma run_S (n : nat) (s : EventSystem.t * Store) :
  EventSystem.run (S n) s
  = match EventSystem.advance_turn s with
    | (Ok r, s1) =>
        match EventSystem.run n s1 with
        | (Ok rs, s2) => (Ok (r :: rs), s2)
        | (Raise e, s2) => (Raise e, s2)
        end
    | (Raise e, s1) => (Raise e, s1)
    end.
Proof. reflexivity. Qed.

(** What a run of calls returns when the first event is still ahead. *)
Lemma run_spaced (n : nat) (s : EventSystem.t * Store)
    (rs : list (option Event)) :
  scheduled_ahead (fst s) ->
  fst (EventSystem.run n s) = Ok rs ->
  (length rs = n /\ events_spaced rs = true /\
   (EventSystem.turn_counter (fst s) + 1 < EventSystem.next_event_turn (fst s) ->
    match rs with Some _ :: _ => False | _ => True end)) /\
  scheduled_ahead (fst (snd (EventSystem.run n s))) /\
  EventSystem.turn_counter (fst (snd (EventSystem.run n s)))
  = EventSystem.turn_counter (fst s) + Z.of_nat n.
Proof.
  revert s rs. induction n as [|n IH]; intros s rs Hs.
  - cbn [EventSystem.run]. unfold ret. cbn [fst snd]. intros [= <-].
    cbn. repeat split; [exact Hs|lia].
  - rewrite run_S.
    pose proof (advance_turn_ahead s) as Hk.
    pose proof (advance_turn_frame s) as Hc. cbv zeta in Hc.
    destruct (EventSystem.advance_turn s) as [[r|e] s1]; cbn [fst snd] in *;
      [|discriminate].
    destruct (Hk r Hs eq_refl) as (Hs1 & Hr & Hf). destruct Hc as (Hc & _ & _).
    specialize (IH s1).
    destruct (EventSystem.run n s1) as [[rs1|e] s2]; cbn [fst snd] in *;
      [|discriminate].
    intros [= <-].
    destruct (IH rs1 Hs1 eq_refl) as ((Hl & Hsp & Hq) & Hs2 & Hc2).
    split; [|split; [exact Hs2|rewrite Hc2, Hc; lia]].
    split; [cbn [length]; congruence|].
    split.
    + cbn [events_spaced]. rewrite Hsp, andb_true_r.
      destruct r as [ev|]; [|reflexivity].
      destruct rs1 as [|[ev1|] rs1]; try reflexivity.
      exfalso. apply Hq. specialize (Hf ltac:(eauto)). lia.
    + intros Hlt. destruct r as [ev|]; [|exact I].
      destruct Hr as [Hr _]. specialize (Hr ltac:(eauto)). lia.
Qed.

(** X5: a run of [advance_turn] calls that starts with the next event
    ahead and returns, returns one result per call, never an event on two
    consecutive calls, and ends with the counter advanced by the number
    of calls and the next event ahead again. *)
Theorem run_spaces_events (n : nat) (s : EventSystem.t * Store)
    (rs : list (option Event)) :
  scheduled_ahead (fst s) ->
  fst (EventSystem.run n s) = Ok rs ->
  length rs = n /\
  events_spaced rs = true /\
  scheduled_ahead (fst (snd (EventSystem.run n s))) /\
  EventSystem.turn_counter (fst (snd (EventSystem.run n s)))
  = EventSystem.turn_counter (fst s) + Z.of_nat n.
Proof.
  intros Hs Hr.
  destruct (run_spaced n s rs Hs Hr) as ((Hl & Hsp & _) & Ha & Hc).
  repeat split; assumption.
Qed.

(** Whether [_choose_event] raises is decided by the settings and the
    weights alone, and a raising choice consumes no random number. *)
Lemma choose_event_raises_alike (self self' : EventSystem.t) (e : exn) :
  EventSystem.settings self' = EventSystem.settings self ->
  EventSystem.event_weights self' = EventSystem.event_weights self ->
  fst (EventSystem._choose_event self) = Raise e ->
  EventSystem._choose_event self' = (Raise e, self').
Proof.
  intros Hset Hw.
  unfold EventSystem._choose_event, bind, get, EventSystem.on_rng.
  assert (EventSystem.weights self' = EventSystem.weights self) as ->
    by (unfold EventSystem.weights; rewrite Hset, Hw; reflexivity).
  assert (Hlen : length (accumulate (EventSystem.weights self)) = 5%nat)
    by reflexivity.
  unfold choices. rewrite Hlen. cbn [length Nat.eqb negb ALL_EVENTS].
  destruct (last (accumulate (EventSystem.weights self))) as [t|].
  - destruct (Binary64.leb _ _).
    { cbn [fst]. intros [= <-]. destruct self'; reflexivity. }
    destruct (negb (Binary64.is_finite _)).
    { cbn [fst]. intros [= <-]. destruct self'; reflexivity. }
    destruct (random (EventSystem.rng self)) as [r g'].
    pose proof (bisect_loop_range (4 - 0) (accumulate (EventSystem.weights self))
                  (Binary64.mul r (Binary64.add t Binary64.zero)) 0 4
                  ltac:(lia)) as Hb.
    unfold bisect. cbn [Nat.sub] in *.
    destruct (_ !! _) as [ev|] eqn:He; [discriminate|].
    apply lookup_ge_None in He. cbn [ALL_EVENTS length] in He. lia.
  - cbn [fst]. intros [= <-]. destruct self'; reflexivity.
Qed.

(** X6: an event choice that raises is permanent. When the system is due
    and [_choose_event] raises, this and every later call of
    [advance_turn] raises the same exception, and each of them only
    advances the counter: the generator, the schedule, the settlement and
    the world stay as they are. *)
Theorem failed_choice_is_permanent (self : EventSystem.t) (st : Store)
    (e : exn) (m : nat) :
  EventSystem.next_event_turn self <= EventSystem.turn_counter self + 1 ->
  fst (EventSystem._choose_event self) = Raise e ->
  EventSystem.advance_turn
    (EventSystem.with_turn_counter
       (EventSystem.turn_counter self + Z.of_nat m) self, st)
  = (Raise e,
     (EventSystem.with_turn_counter
        (EventSystem.turn_counter self + Z.of_nat m + 1) self, st)).
Proof.
  intros Hdue Hraise.
  unfold EventSystem.advance_turn, bind, EventSystem.on_self,
    EventSystem.on_store, modify, get, ret.
  cbn [fst snd EventSystem.with_turn_counter EventSystem.turn_counter
         EventSystem.next_event_turn EventSystem.settings EventSystem.rng
         EventSystem.event_weights].
  destruct (Z.leb_spec (EventSystem.next_event_turn self)
              (EventSystem.turn_counter self + Z.of_nat m + 1)) as [_|Hlt];
    [|lia].
  cbn [fst snd].
  match goal with
  | |- context [EventSystem._choose_event ?x] =>
      rewrite (choose_event_raises_alike self x e eq_refl eq_refl Hraise)
  end.
  reflexivity.
Qed.

(** X7: [_choose_event] reads the weight table under the five event names
    only, and a name the table lacks counts as 1.0: setting any other key,
    or setting a missing name to 1.0, leaves the weights and hence the
    choice as they are. *)
Theorem event_weights_defaults (self : EventSystem.t) (key : string)
    (v : float) :
  (key ∉ event_names \/
   (EventSystem.event_weights self !! key = None /\ v = Binary64.one)) ->
  let self' :=
    with_event_weights (<[key := v]> (EventSystem.event_weights self)) self in
  EventSystem.weights self' = EventSystem.weights self /\
  fst (EventSystem._choose_event self') = fst (EventSystem._choose_event self).
Proof.
  intros H self'.
  assert (Hw : EventSystem.weights self' = EventSystem.weights self).
  { unfold EventSystem.weights, self'.
    cbn [with_event_weights EventSystem.settings EventSystem.event_weights].
    assert (Hk : forall k, k ∈ event_names ->
              default Binary64.one
                (<[key := v]> (EventSystem.event_weights self) !! k)
              = default Binary64.one (EventSystem.event_weights self !! k)).
    { intros k Hin. destruct (decide (key = k)) as [->|Hne].
      - destruct H as [H|[H ->]]; [contradiction|].
        rewrite lookup_insert_eq, H. reflexivity.
      - rewrite lookup_insert_ne by exact Hne. reflexivity. }
    rewrite !Hk by (unfold event_names; repeat constructor). reflexivity. }
  split; [exact Hw|].
  unfold EventSystem._choose_event, bind, get, EventSystem.on_rng.
  rewrite Hw.
  change (EventSystem.rng self') with (EventSystem.rng self).
  destruct (choices _ _ _); reflexivity.
Qed.
End TurnFacts.

(** * What the events leave alone *)

Section FrameFacts.
Context {noise : NoiseOracle} {source : RandomSource}.

(** Every [apply] is its damage rules, which touch the counters of the
    settlement only, followed by the guarded terrain rule; an exception
    is raised before the terrain rule is reached. *)
Lemma apply_shape (e : Event) (state : SettlementState) (world : World) :
  exists mid,
    location mid = location state /\ defenses mid = defenses state /\
    (apply e (state, world)
     = on_tile (tile_rule e (Event.severity state world)) (mid, world) \/
     exists er, apply e (state, world) = (Raise er, (mid, world))).
Proof.
  unfold apply.
  destruct e;
    unfold Flood.apply, Drought.apply, Raid.apply, Earthquake.apply,
      Hurricane.apply, bind, get_state, get_world, set_buildings,
      set_resources, set_population, modify, lift;
    cbn [fst snd];
    repeat match goal with
      | |- context [match ?o with Ok _ => _ | Raise _ => _ end] =>
          destruct o eqn:?; cbn [fst snd]
      end;
    eexists; (split; [|split; [|first [left; reflexivity
                                      | right; eexists; reflexivity]]]);
    reflexivity.
Qed.

Lemma on_tile_hit k st w x y h :
  location st = Some (x, y) ->
  world_changes (settings w) = true ->
  world_get w x y = Some h ->
  on_tile k (st, w)
  = (Ok tt, let '(h', (st', w')) := k h (st, w) in (st', with_tile (x, y) h' w')).
Proof.
  intros Hl Hc Hg. unfold on_tile, bind, get_state, get_world, modify.
  cbn [fst snd]. rewrite Hl, Hc, Hg. reflexivity.
Qed.

Lemma on_tile_skip k st w :
  location st = None \/ world_changes (settings w) = false \/
  (exists x y, location st = Some (x, y) /\ world_get w x y = None) ->
  on_tile k (st, w) = (Ok tt, (st, w)).
Proof.
  unfold on_tile, bind, get_state, get_world, modify, ret. cbn [fst snd].
  intros [H|[H|(x & y & Hl & Hg)]].
  - rewrite H. reflexivity.
  - rewrite H. destruct (location st) as [[x y]|]; reflexivity.
  - rewrite Hl, Hg. destruct (world_changes _); reflexivity.
Qed.

(** The tile rules keep the defenses and the location of the settlement,
    the coordinate of the tile, and the tiles and settings of the world. *)
Lemma tile_rule_frame e sev h st w :
  let r := tile_rule e sev h (st, w) in
  location (fst (snd r)) = location st /\
  defenses (fst (snd r)) = defenses st /\
  coord (fst r) = coord h /\
  tiles (snd (snd r)) = tiles w /\
  settings (snd (snd r)) = settings w.
Proof.
  destruct e; cbn [tile_rule];
    unfold Flood.tile, Drought.tile, Raid.tile, Earthquake.tile,
      Hurricane.tile, sever_river;
    repeat match goal with
      | |- context [if ?b then _ else _] => destruct b
      end;
    cbn; repeat split; reflexivity.
Qed.

Lemma on_tile_cases k st w :
  on_tile k (st, w) = (Ok tt, (st, w)) \/
  exists x y h,
    location st = Some (x, y) /\ world_changes (settings w) = true /\
    world_get w x y = Some h /\
    on_tile k (st, w)
    = (Ok tt,
       let '(h', (st', w')) := k h (st, w) in (st', with_tile (x, y) h' w')).
Proof.
  destruct (location st) as [[x y]|] eqn:Hl;
    [|left; apply on_tile_skip; left; exact Hl].
  destruct (world_changes (settings w)) eqn:Hc;
    [|left; apply on_tile_skip; right; left; exact Hc].
  destruct (world_get w x y) as [h|] eqn:Hg;
    [|left; apply on_tile_skip; right; right; eauto].
  right. exists x, y, h. repeat split; try assumption.
  apply on_tile_hit; assumption.
Qed.

(** What an [apply] leaves: the store of the damage rules, or that store
    with the terrain rule run on the tile of the settlement. *)
Lemma apply_cases (e : Event) (state : SettlementState) (world : World) :
  exists mid,
    location mid = location state /\ defenses mid = defenses state /\
    (snd (apply e (state, world)) = (mid, world) \/
     exists x y h,
       location state = Some (x, y) /\
       world_changes (settings world) = true /\
       world_get world x y = Some h /\
       apply e (state, world)
       = (Ok tt,
          let '(h', (st', w')) :=
            tile_rule e (Event.severity state world) h (mid, world) in
          (st', with_tile (x, y) h' w'))).
Proof.
  destruct (apply_shape e state world) as (mid & Hl & Hd & [H|[er H]]).
  - exists mid. split; [exact Hl|]. split; [exact Hd|].
    destruct (on_tile_cases (tile_rule e (Event.severity state world)) mid world)
      as [Hs|(x & y & h & Hloc & Hc & Hg & Hs)].
    + left. rewrite H, Hs. reflexivity.
    + right. exists x, y, h. rewrite <- Hl. repeat split; try assumption.
      rewrite H. exact Hs.
  - exists mid. split; [exact Hl|]. split; [exact Hd|].
    left. rewrite H. reflexivity.
Qed.

(** X8: no event changes the defenses or the location of the settlement,
    whether its [apply] returns or raises. *)
Theorem apply_keeps_defenses_and_location (e : Event)
    (state : SettlementState) (world : World) :
  defenses (settlement_after e (state, world)) = defenses state /\
  location (settlement_after e (state, world)) = location state.
Proof.
  unfold settlement_after.
  destruct (apply_cases e state world)
    as (mid & Hl & Hd & [H|(x & y & h & _ & _ & _ & H)]); rewrite H.
  - cbn [fst snd]. split; assumption.
  - cbn [snd].
    pose proof (tile_rule_frame e (Event.severity state world) h mid world)
      as (Hl' & Hd' & _).
    destruct (tile_rule _ _ _ _) as [h' [st' w']]. cbn [fst snd] in *.
    split; congruence.
Qed.

(** X9: an event leaves the settings of the world, every tile but the
    one of the settlement, the set of coordinates that hold a tile, and
    the coordinate each tile records; with terrain mutation switched off,
    or without a location, it leaves the whole world. *)
Theorem apply_world_frame (e : Event) (state : SettlementState)
    (world : World) :
  let world' := world_after e (state, world) in
  settings world' = settings world /\
  (forall c, location state <> Some c ->
             tiles world' !! c = tiles world !! c) /\
  (forall c, is_Some (tiles world' !! c) <-> is_Some (tiles world !! c)) /\
  (forall c h h', tiles world !! c = Some h -> tiles world' !! c = Some h' ->
                  coord h' = coord h) /\
  (location state = None \/ world_changes (settings world) = false ->
   world' = world).
Proof.
  unfold world_after. cbv zeta.
  destruct (apply_cases e state world)
    as (mid & Hl & Hd & [H|(x & y & h & Hloc & Hc & Hg & H)]); rewrite H.
  - cbn [fst snd]. repeat split; try tauto. congruence.
  - cbn [snd].
    pose proof (tile_rule_frame e (Event.severity state world) h mid world)
      as (_ & _ & Hco & Ht & Hs).
    destruct (tile_rule _ _ _ _) as [h' [st' w']].
    cbn [fst snd with_tile tiles settings] in *.
    unfold world_get in Hg.
    split; [exact Hs|]. split; [|split; [|split]].
    + intros c Hne. rewrite lookup_insert_ne by congruence.
      rewrite Ht. reflexivity.
    + intros c. destruct (decide ((x, y) = c)) as [<-|Hne].
      * rewrite lookup_insert_eq, Hg. split; eauto.
      * rewrite lookup_insert_ne by exact Hne. rewrite Ht. reflexivity.
    + intros c h0 h0'. destruct (decide ((x, y) = c)) as [<-|Hne].
      * rewrite lookup_insert_eq, Hg. congruence.
      * rewrite lookup_insert_ne by exact Hne. rewrite Ht. congruence.
    + intros [Hn|Hn]; congruence.
Qed.
End FrameFacts.

(** * The registries and the flags *)

Section RegistryFacts.
Context {noise : NoiseOracle} {source : RandomSource}.

Lemma sever_river_registries h w :
  let r := sever_river h w in
  (NoDup (lakes w) -> NoDup (lakes (snd r))) /\
  rivers (snd r)
  = filter (fun seg => seg_start seg <> coord h /\ seg_end seg <> coord h)
      (rivers w) /\
  coord h ∈ lakes (snd r) /\
  (forall c, c ∈ lakes (snd r) <-> c ∈ lakes w \/ c = coord h).
Proof.
  unfold sever_river. cbv zeta.
  change (coord (with_river false h)) with (coord h).
  cbn [with_rivers lakes rivers].
  destruct (decide (coord h ∈ lakes w)) as [Hin|Hout];
    cbn [fst snd with_rivers with_lakes lakes rivers].
  - repeat split; try tauto. intros [?| ->]; assumption.
  - split; [|split; [reflexivity|split]].
    + intros Hnd. apply NoDup_app. split; [exact Hnd|].
      split; [|apply NoDup_singleton].
      intros c Hc Hc'. apply list_elem_of_singleton in Hc'. congruence.
    + apply elem_of_app. right. apply list_elem_of_singleton. reflexivity.
    + intros c. rewrite elem_of_app, list_elem_of_singleton. reflexivity.
Qed.

Lemma tile_rule_registries e sev h st w :
  let w' := snd (snd (tile_rule e sev h (st, w))) in
  (NoDup (lakes w) -> NoDup (lakes w')) /\
  sublist (rivers w') (rivers w) /\
  (forall seg, seg ∈ rivers w -> seg ∈ rivers w' \/ touches (coord h) seg) /\
  (forall c, c ∈ lakes w' -> c ∈ lakes w \/ c = coord h).
Proof.
  assert (Hsev : forall h0, coord h0 = coord h ->
            let w' := snd (sever_river h0 w) in
            (NoDup (lakes w) -> NoDup (lakes w')) /\
            sublist (rivers w') (rivers w) /\
            (forall seg, seg ∈ rivers w ->
                         seg ∈ rivers w' \/ touches (coord h) seg) /\
            (forall c, c ∈ lakes w' -> c ∈ lakes w \/ c = coord h)).
  { intros h0 Hc.
    destruct (sever_river_registries h0 w) as (Hnd & Hr & _ & Hl).
    cbv zeta. rewrite Hr, Hc in *. split; [exact Hnd|].
    split; [apply sublist_filter|]. split.
    - intros seg Hin. unfold touches.
      destruct (decide (seg_start seg = coord h)) as [?|Hs]; [tauto|].
      destruct (decide (seg_end seg = coord h)) as [?|He]; [tauto|].
      left. apply list_elem_of_filter. tauto.
    - intros c Hin. apply Hl. exact Hin. }
  assert (Hid : (NoDup (lakes w) -> NoDup (lakes w)) /\
                sublist (rivers w) (rivers w) /\
                (forall seg, seg ∈ rivers w ->
                             seg ∈ rivers w \/ touches (coord h) seg) /\
                (forall c, c ∈ lakes w -> c ∈ lakes w \/ c = coord h))
    by (repeat split; auto).
  destruct e; cbn [tile_rule];
    unfold Flood.tile, Drought.tile, Raid.tile, Earthquake.tile,
      Hurricane.tile; cbv zeta.
  - destruct (Binary64.ltb _ _); [|exact Hid].
    destruct (river _); [|destruct (String.eqb _ _); exact Hid].
    specialize (Hsev (with_flooded true h) eq_refl).
    destruct (sever_river _ _) as [h' w'].
    destruct (String.eqb _ _); exact Hsev.
  - destruct (Binary64.ltb _ _); [|exact Hid].
    destruct (lake _); [|exact Hid].
    cbn [fst snd with_lakes lakes rivers].
    split; [apply NoDup_filter|]. split; [reflexivity|].
    split; [auto|].
    intros c Hin. apply list_elem_of_filter in Hin. tauto.
  - destruct (Binary64.ltb _ _); [|exact Hid].
    destruct (String.eqb _ _); exact Hid.
  - destruct (Binary64.ltb _ _); exact Hid.
  - destruct (Binary64.ltb _ _); [|exact Hid].
    destruct (river _); [|exact Hid].
    specialize (Hsev (with_flooded true h) eq_refl).
    destruct (sever_river _ _) as [h' w']. exact Hsev.
Qed.

(** X10: an event never duplicates an entry of the lake registry, never
    adds a river segment and never reorders the segments; a segment it
    removes touches the coordinate of the settlement's tile, and a lake
    it registers is that coordinate. *)
Theorem apply_registries (e : Event) (state : SettlementState)
    (world : World) :
  let world' := world_after e (state, world) in
  (NoDup (lakes world) -> NoDup (lakes world')) /\
  sublist (rivers world') (rivers world) /\
  (forall seg, seg ∈ rivers world -> seg ∉ rivers world' ->
     exists x y h, location state = Some (x, y) /\
                   world_get world x y = Some h /\ touches (coord h) seg) /\
  (forall c, c ∈ lakes world' -> c ∉ lakes world ->
     exists x y h, location state = Some (x, y) /\
                   world_get world x y = Some h /\ c = coord h).
Proof.
  unfold world_after. cbv zeta.
  destruct (apply_cases e state world)
    as (mid & Hl & Hd & [H|(x & y & h & Hloc & Hc & Hg & H)]); rewrite H.
  - cbn [fst snd]. split; [auto|]. split; [reflexivity|].
    split; intros ? Hin Hout; contradiction.
  - cbn [snd].
    pose proof (tile_rule_registries e (Event.severity state world) h mid world)
      as (Hnd & Hsub & Hr & Hk).
    destruct (tile_rule _ _ _ _) as [h' [st' w']].
    cbn [fst snd with_tile lakes rivers] in *.
    split; [exact Hnd|]. split; [exact Hsub|]. split.
    + intros seg Hin Hout. exists x, y, h.
      destruct (Hr seg Hin); [contradiction|repeat split; assumption].
    + intros c Hin Hout. exists x, y, h.
      destruct (Hk c Hin); [contradiction|repeat split; assumption].
Qed.

Lemma tile_rule_flags e sev h st w :
  let h' := fst (tile_rule e sev h (st, w)) in
  (flooded h = true -> flooded h' = true) /\
  (ruined h = true -> ruined h' = true) /\
  (river h = false -> river h' = false).
Proof.
  destruct e; cbn [tile_rule];
    unfold Flood.tile, Drought.tile, Raid.tile, Earthquake.tile,
      Hurricane.tile, sever_river;
    repeat match goal with
      | |- context [if ?b then _ else _] => destruct b
      end;
    cbn; repeat split; auto.
Qed.

(** X11: no event clears the flooded or the ruined flag of a tile, and no
    event makes a tile a river tile. *)
Theorem apply_keeps_flags (e : Event) (state : SettlementState)
    (world : World) (c : Z * Z) (h : Hex) :
  tiles world !! c = Some h ->
  exists h',
    tiles (world_after e (state, world)) !! c = Some h' /\
    (flooded h = true -> flooded h' = true) /\
    (ruined h = true -> ruined h' = true) /\
    (river h = false -> river h' = false).
Proof.
  intros Hc. unfold world_after.
  destruct (apply_cases e state world)
    as (mid & Hl & Hd & [H|(x & y & h0 & Hloc & Hch & Hg & H)]); rewrite H.
  - cbn [fst snd]. exists h. repeat split; auto.
  - cbn [snd].
    pose proof (tile_rule_flags e (Event.severity state world) h0 mid world)
      as Hf.
    pose proof (tile_rule_frame e (Event.severity state world) h0 mid world)
      as (_ & _ & _ & Ht & _).
    destruct (tile_rule _ _ _ _) as [h' [st' w']].
    cbn [fst snd with_tile tiles] in *. unfold world_get in Hg.
    destruct (decide ((x, y) = c)) as [<-|Hne].
    + rewrite lookup_insert_eq. exists h'. split; [reflexivity|].
      assert (h0 = h) as <- by congruence. exact Hf.
    + rewrite lookup_insert_ne by exact Hne. rewrite Ht.
      exists h. repeat split; auto.
Qed.
End RegistryFacts.

(** * The terrain rules, case by case *)

Section TerrainFacts.
Context {noise : NoiseOracle} {source : RandomSource}.

(** An [apply] that returns for a settlement on a tile, with terrain
    mutation on, has run the terrain rule on that tile. *)
Lemma apply_hit (e : Event) (state : SettlementState) (world : World)
    (x y : Z) (h : Hex) :
  location state = Some (x, y) ->
  world_changes (settings world) = true ->
  world_get world x y = Some h ->
  fst (apply e (state, world)) = Ok tt ->
  exists mid,
    snd (apply e (state, world))
    = let '(h', (st', w')) :=
        tile_rule e (Event.severity state world) h (mid, world) in
      (st', with_tile (x, y) h' w').
Proof.
  intros Hloc Hc Hg Hr.
  destruct (apply_shape e state world) as (mid & Hl & Hd & [H|[er H]]).
  - exists mid. rewrite H.
    rewrite (on_tile_hit _ mid world x y h) by congruence. reflexivity.
  - rewrite H in Hr. discriminate.
Qed.

(** X12: an [apply] that raises has not touched the world: every
    exception of an event comes from its damage rules, which precede the
    terrain rule. *)
Theorem raised_apply_keeps_world (e : Event) (state : SettlementState)
    (world : World) (er : exn) :
  fst (apply e (state, world)) = Raise er ->
  world_after e (state, world) = world.
Proof.
  intros Hr. unfold world_after.
  destruct (apply_shape e state world) as (mid & Hl & Hd & [H|[er' H]]).
  - destruct (on_tile_cases (tile_rule e (Event.severity state world)) mid world)
      as [Hs|(x & y & h & _ & _ & _ & Hs)];
      rewrite H, Hs in Hr; discriminate.
  - rewrite H. reflexivity.
Qed.

Lemma mild_tile_rule e sev h st w :
  Binary64.ltb Binary64.c1_3 sev = false ->
  let r := tile_rule e sev h (st, w) in
  terrain (fst r) = terrain h /\ river (fst r) = river h /\
  lake (fst r) = lake h /\
  rivers (snd (snd r)) = rivers w /\ lakes (snd (snd r)) = lakes w /\
  buildings (fst (snd r)) = buildings st.
Proof.
  intros Hm.
  destruct e; cbn [tile_rule];
    unfold Flood.tile, Drought.tile, Raid.tile, Earthquake.tile,
      Hurricane.tile; rewrite Hm; cbn; repeat split; reflexivity.
Qed.

(** X13: an event whose severity does not exceed 1.3 changes no terrain:
    the registries of rivers and lakes stay as they are, and every tile
    keeps its terrain type, its river flag and its lake flag. *)
Theorem mild_event_keeps_terrain (e : Event) (state : SettlementState)
    (world : World) :
  Binary64.ltb Binary64.c1_3 (Event.severity state world) = false ->
  let world' := world_after e (state, world) in
  rivers world' = rivers world /\
  lakes world' = lakes world /\
  forall c h, tiles world !! c = Some h ->
    exists h', tiles world' !! c = Some h' /\
               terrain h' = terrain h /\ river h' = river h /\
               lake h' = lake h.
Proof.
  intros Hm. unfold world_after. cbv zeta.
  destruct (apply_cases e state world)
    as (mid & Hl & Hd & [H|(x & y & h0 & Hloc & Hch & Hg & H)]); rewrite H.
  - cbn [fst snd]. repeat split. intros c h Hc. exists h. auto.
  - cbn [snd].
    pose proof (mild_tile_rule e _ h0 mid world Hm)
      as (Ht & Hr & Hk & Hrs & Hls & _).
    pose proof (tile_rule_frame e (Event.severity state world) h0 mid world)
      as (_ & _ & _ & Hti & _).
    destruct (tile_rule _ _ _ _) as [h' [st' w']].
    cbn [fst snd with_tile tiles rivers lakes] in *. unfold world_get in Hg.
    split; [exact Hrs|]. split; [exact Hls|].
    intros c h Hc. destruct (decide ((x, y) = c)) as [<-|Hne].
    + rewrite lookup_insert_eq. exists h'. split; [reflexivity|].
      assert (h0 = h) as <- by congruence. auto.
    + rewrite lookup_insert_ne by exact Hne. rewrite Hti.
      exists h. auto.
Qed.

(** X14: a severe Flood or Hurricane (severity above 1.3) that returns
    leaves the tile of the settlement flooded and without river. The
    tile becomes a lake of water, except that a Flood turns hills
    without a river into mountains and leaves their lake flag. A river
    on the tile is severed: exactly the segments that touch the tile's
    coordinate leave the registry and the coordinate is a registered
    lake; without a river on the tile both registries stay as they are,
    so that the new lake is not registered. *)
Theorem severe_storm_tile (e : Event) (state : SettlementState)
    (world : World) (x y : Z) (h : Hex) :
  e = Flood \/ e = Hurricane ->
  location state = Some (x, y) ->
  world_changes (settings world) = true ->
  world_get world x y = Some h ->
  Binary64.ltb Binary64.c1_3 (Event.severity state world) = true ->
  fst (apply e (state, world)) = Ok tt ->
  let world' := world_after e (state, world) in
  exists h',
    world_get world' x y = Some h' /\
    flooded h' = true /\ river h' = false /\
    (if match e with
        | Flood => negb (river h) && String.eqb (terrain h) "hills"
        | _ => false
        end
     then terrain h' = "mountains"%string /\ lake h' = lake h
     else terrain h' = "water"%string /\ lake h' = true) /\
    (if river h
     then (forall seg, seg ∈ rivers world' <->
                       seg ∈ rivers world /\ ~ touches (coord h) seg) /\
          coord h ∈ lakes world'
     else rivers world' = rivers world /\ lakes world' = lakes world).
Proof.
  intros He Hloc Hch Hg Hsev Hr. unfold world_after. cbv zeta.
  destruct (apply_hit e state world x y h Hloc Hch Hg Hr) as [mid ->].
  pose proof (sever_river_registries (with_flooded true h) world)
    as (_ & Hrs & Hin & _).
  assert (Hfilter : forall seg,
            seg ∈ filter (fun seg => seg_start seg <> coord h /\
                                     seg_end seg <> coord h) (rivers world)
            <-> seg ∈ rivers world /\ ~ touches (coord h) seg).
  { intros seg. rewrite list_elem_of_filter. unfold touches. tauto. }
  change (coord (with_flooded true h)) with (coord h) in *.
  destruct He as [-> | ->]; cbn [tile_rule];
    unfold Flood.tile, Hurricane.tile; rewrite Hsev;
    change (river (with_flooded true h)) with (river h);
    destruct (river h) eqn:Hriv.
  - assert (Hsr : fst (sever_river (with_flooded true h) world)
                  = with_river false (with_flooded true h)) by reflexivity.
    destruct (sever_river _ _) as [h1 w1]. cbn [fst snd] in *. subst h1.
    cbn -[lookup insert filter elem_of]. unfold world_get, with_tile.
    cbn [tiles]. rewrite lookup_insert_eq.
    eexists. split; [reflexivity|]. cbn -[filter elem_of].
    do 2 (split; [reflexivity|]). split; [split; reflexivity|].
    split; [|exact Hin].
    intros seg. rewrite Hrs. apply Hfilter.
  - change (terrain (with_flooded true h)) with (terrain h).
    destruct (String.eqb (terrain h) "hills");
      cbn -[lookup insert filter elem_of]; unfold world_get, with_tile;
      cbn [tiles]; rewrite lookup_insert_eq;
      eexists; (split; [reflexivity|]); cbn; rewrite ?Hriv;
      repeat split; reflexivity.
  - assert (Hsr : fst (sever_river (with_flooded true h) world)
                  = with_river false (with_flooded true h)) by reflexivity.
    destruct (sever_river _ _) as [h1 w1]. cbn [fst snd] in *. subst h1.
    cbn -[lookup insert filter elem_of]. unfold world_get, with_tile.
    cbn [tiles]. rewrite lookup_insert_eq.
    eexists. split; [reflexivity|]. cbn -[filter elem_of].
    do 2 (split; [reflexivity|]). split; [split; reflexivity|].
    split; [|exact Hin].
    intros seg. rewrite Hrs. apply Hfilter.
  - cbn -[lookup insert filter elem_of]. unfold world_get, with_tile.
    cbn [tiles]. rewrite lookup_insert_eq.
    eexists. split; [reflexivity|]. cbn. rewrite ?Hriv.
    repeat split; reflexivity.
Qed.

Lemma fmax_zero_nonneg (x : float) :
  Binary64.leb Binary64.zero (fmax Binary64.zero x) = true.
Proof.
  unfold fmax, Binary64.ltb, Binary64.leb, SFltb, SFleb.
  destruct (SFcompare Binary64.zero x) as [[| |]|] eqn:Hc;
    try reflexivity.
  rewrite Hc. reflexivity.
Qed.

(** X15: a Drought that returns leaves the moisture of the settlement's
    tile at zero or above, never negative and never NaN, and touches
    neither the river flag nor the river registry. When it is severe
    (severity above 1.3), a lake tile dries up into plains and its
    coordinate leaves the lake registry, and any other tile becomes
    desert, river or not. *)
Theorem drought_tile (state : SettlementState) (world : World) (x y : Z)
    (h : Hex) :
  location state = Some (x, y) ->
  world_changes (settings world) = true ->
  world_get world x y = Some h ->
  fst (apply Drought (state, world)) = Ok tt ->
  let world' := world_after Drought (state, world) in
  exists h',
    world_get world' x y = Some h' /\
    Binary64.leb Binary64.zero (hex_moisture h') = true /\
    river h' = river h /\ rivers world' = rivers world /\
    (Binary64.ltb Binary64.c1_3 (Event.severity state world) = true ->
     if lake h
     then terrain h' = "plains"%string /\ lake h' = false /\
          forall c, c ∈ lakes world' <-> c ∈ lakes world /\ c <> coord h
     else terrain h' = "desert"%string /\ lakes world' = lakes world).
Proof.
  intros Hloc Hch Hg Hr. unfold world_after. cbv zeta.
  destruct (apply_hit Drought state world x y h Hloc Hch Hg Hr) as [mid ->].
  cbn [tile_rule]. unfold Drought.tile.
  change (lake (with_moisture ?m h)) with (lake h).
  destruct (Binary64.ltb Binary64.c1_3 _); [destruct (lake h)|];
    cbn -[lookup insert filter elem_of fmax]; unfold world_get, with_tile;
    cbn [tiles]; rewrite lookup_insert_eq;
    eexists; (split; [reflexivity|]); cbn -[filter elem_of fmax];
    (split; [apply fmax_zero_nonneg|]);
    (split; [reflexivity|]); (split; [reflexivity|]); intros Hs.
  - split; [reflexivity|]. split; [reflexivity|].
    intros c. rewrite list_elem_of_filter. tauto.
  - split; reflexivity.
  - discriminate.
Qed.

(** X16: a severe Raid (severity above 1.3) that returns on a tile leaves
    the settlement without buildings, whatever its defenses, and marks
    the tile ruined; it turns hills into mountains and changes no other
    terrain. *)
Theorem severe_raid_razes (state : SettlementState) (world : World)
    (x y : Z) (h : Hex) :
  location state = Some (x, y) ->
  world_changes (settings world) = true ->
  world_get world x y = Some h ->
  Binary64.ltb Binary64.c1_3 (Event.severity state world) = true ->
  fst (apply Raid (state, world)) = Ok tt ->
  buildings (settlement_after Raid (state, world)) = 0 /\
  exists h',
    world_get (world_after Raid (state, world)) x y = Some h' /\
    ruined h' = true /\
    terrain h'
    = (if String.eqb (terrain h) "hills" then "mountains" else terrain h)%string.
Proof.
  intros Hloc Hch Hg Hsev Hr. unfold world_after, settlement_after.
  destruct (apply_hit Raid state world x y h Hloc Hch Hg Hr) as [mid ->].
  cbn [tile_rule]. unfold Raid.tile. rewrite Hsev.
  change (terrain (with_ruined true h)) with (terrain h).
  destruct (String.eqb (terrain h) "hills");
    cbn -[lookup insert]; unfold world_get, with_tile; cbn [tiles];
    rewrite lookup_insert_eq; (split; [reflexivity|]);
    eexists; (split; [reflexivity|]); cbn; split; reflexivity.
Qed.
End TerrainFacts.

(** * Signs: what the damage rules can and cannot do *)

Section SignFacts.
Context {noise : NoiseOracle} {source : RandomSource}.

Lemma round_aux_sign s m e l :
  sign_ok s (binary_round_aux Binary64.prec Binary64.emax s m e l) = true.
Proof.
  unfold binary_round_aux.
  destruct (shr_fexp _ _ m e l) as [mrs' e'].
  destruct (shr_fexp _ _ _ e' loc_Exact) as [mrs'' e''].
  destruct (shr_m mrs''); [reflexivity| |reflexivity].
  destruct (_ <=? _); cbn [sign_ok]; apply eqb_reflx.
Qed.

Lemma mul_sign_ok a b x y :
  sign_ok a x = true -> sign_ok b y = true ->
  sign_ok (xorb a b) (Binary64.mul x y) = true.
Proof.
  unfold Binary64.mul, SFmul.
  destruct x as [sx|sx| |sx mx ex], y as [sy|sy| |sy my ey];
    cbn [sign_ok]; intros Hx Hy; try reflexivity;
    try (apply eqb_prop in Hx; subst);
    try (apply eqb_prop in Hy; subst);
    try apply eqb_reflx.
  apply round_aux_sign.
Qed.

Lemma of_Z_sign n : sign_ok (n <? 0) (Binary64.of_Z n) = true.
Proof.
  unfold Binary64.of_Z, binary_normalize, binary_round.
  destruct n as [|p|p]; [reflexivity| |];
    destruct (shl_align p 0 _) as [mz ez]; apply round_aux_sign.
Qed.

Lemma float_of_int_nonneg n b :
  float_of_int n = Ok b -> 0 <= n -> sign_ok false b = true.
Proof.
  unfold float_of_int. destruct (Binary64.is_finite _); [|discriminate].
  intros [= <-] Hn. pose proof (of_Z_sign n) as H.
  destruct (Z.ltb_spec n 0); [lia|exact H].
Qed.

Lemma float_of_int_nonpos n b :
  float_of_int n = Ok b -> n <= 0 -> sign_ok true b = true.
Proof.
  unfold float_of_int. destruct (Binary64.is_finite _); [|discriminate].
  intros [= <-] Hn. pose proof (of_Z_sign n) as H.
  destruct (Z.ltb_spec n 0); [exact H|].
  assert (n = 0) as -> by lia. reflexivity.
Qed.

Lemma nearest_even_nonneg m e : 0 <= Binary64.nearest_even m e.
Proof.
  unfold Binary64.nearest_even. pose proof (int_part_nonneg m e).
  destruct (_ ?= _); [destruct (Z.even _)| |]; lia.
Qed.

Lemma int_of_float_sign x z (neg : bool) :
  int_of_float x = Ok z -> sign_ok neg x = true ->
  if neg then z <= 0 else 0 <= z.
Proof.
  unfold int_of_float, convert.
  destruct x as [s|s| |s m e]; cbn [Binary64.trunc sign_ok];
    try discriminate.
  - intros [= <-] _. destruct neg; lia.
  - intros [= <-] Hs. apply eqb_prop in Hs. subst s.
    pose proof (int_part_nonneg m e).
    destruct neg; cbn [Binary64.cond_opp]; lia.
Qed.

Lemma py_round_sign x z (neg : bool) :
  py_round x = Ok z -> sign_ok neg x = true ->
  if neg then z <= 0 else 0 <= z.
Proof.
  unfold py_round, convert.
  destruct x as [s|s| |s m e]; cbn [Binary64.round_even sign_ok];
    try discriminate.
  - intros [= <-] _. destruct neg; lia.
  - intros [= <-] Hs. apply eqb_prop in Hs. subst s.
    pose proof (nearest_even_nonneg m e).
    destruct neg; cbn [Binary64.cond_opp]; lia.
Qed.

Lemma leb_zero_sign x :
  Binary64.leb Binary64.zero x = true -> sign_ok false x = true.
Proof.
  unfold Binary64.leb, SFleb, Binary64.zero.
  destruct x as [s|[]| |[] m e]; cbn; congruence.
Qed.

Lemma tile_rule_no_gain e sev h s r p b :
  0 <= b ->
  resources (fst s) <= r /\ population (fst s) <= p /\ buildings (fst s) <= b ->
  let st' := fst (snd (tile_rule e sev h s)) in
  resources st' <= r /\ population st' <= p /\ buildings st' <= b.
Proof.
  destruct s as [st w]. cbn [fst]. intros Hb H.
  destruct e; cbn [tile_rule];
    unfold Flood.tile, Drought.tile, Raid.tile, Earthquake.tile,
      Hurricane.tile, sever_river;
    repeat match goal with
      | |- context [if ?c then _ else _] => destruct c
      end;
    cbn; first [exact H | lia].
Qed.

(** Collects what the signs of the operands say of each converted
    damage. *)
Ltac damage_signs :=
  repeat match goal with
    | H : int_of_float ?x = Ok ?z |- _ =>
        let Hz := fresh "Hz" in
        assert (Hz : 0 <= z)
          by (apply (int_of_float_sign x z false H);
              repeat first
                [ assumption
                | reflexivity
                | apply (mul_sign_ok false false)
                | eapply float_of_int_nonneg; [eassumption|lia] ]);
        clear H
    | H : py_round ?x = Ok ?z |- _ =>
        let Hz := fresh "Hz" in
        assert (Hz : 0 <= z)
          by (apply (py_round_sign x z false H);
              repeat first
                [ assumption
                | reflexivity
                | apply (mul_sign_ok false false)
                | eapply float_of_int_nonneg; [eassumption|lia] ]);
        clear H
    end.

(** X17: while the severity is not negative, no event helps: from
    non-negative counters, an [apply] leaves no more resources, no more
    population and no more buildings than it found, whether it returns
    or raises. *)
Theorem apply_never_gains (e : Event) (state : SettlementState)
    (world : World) :
  nonneg state ->
  Binary64.leb Binary64.zero (Event.severity state world) = true ->
  resources (settlement_after e (state, world)) <= resources state /\
  population (settlement_after e (state, world)) <= population state /\
  buildings (settlement_after e (state, world)) <= buildings state.
Proof.
  intros (Hr & Hp & Hb & Hd) Hsev.
  pose proof (leb_zero_sign _ Hsev) as Hs. clear Hsev.
  set (sev := Event.severity state world) in *.
  unfold settlement_after.
  assert (Htile : forall e mid,
            (resources mid <= resources state /\
             population mid <= population state /\
             buildings mid <= buildings state) ->
            let st' := fst (snd (on_tile (tile_rule e sev) (mid, world))) in
            resources st' <= resources state /\
            population st' <= population state /\
            buildings st' <= buildings state).
  { intros e0 mid Hmid.
    apply (on_tile_settlement
             (fun st => resources st <= resources state /\
                        population st <= population state /\
                        buildings st <= buildings state));
      [|exact Hmid].
    intros h s Hs0. apply tile_rule_no_gain; assumption. }
  unfold apply.
  destruct e;
    unfold Flood.apply, Drought.apply, Raid.apply, Earthquake.apply,
      Hurricane.apply, bind, get_state, get_world, set_buildings,
      set_resources, set_population, modify, lift;
    cbn [fst snd]; fold sev;
    repeat match goal with
      | |- context [match ?o with Ok _ => _ | Raise _ => _ end] =>
          destruct o eqn:?; cbn [fst snd]
      end;
    damage_signs;
    try (cbn; lia).
  - apply (Htile Flood). cbn. lia.
  - apply (Htile Drought). cbn. lia.
  - apply (Htile Raid). cbn. lia.
  - apply (Htile Earthquake). cbn. lia.
  - apply (Htile Hurricane). cbn. lia.
Qed.

Lemma tile_rule_resources e sev h st w :
  resources (fst (snd (tile_rule e sev h (st, w)))) = resources st /\
  population (fst (snd (tile_rule e sev h (st, w)))) = population st.
Proof.
  destruct e; cbn [tile_rule];
    unfold Flood.tile, Drought.tile, Raid.tile, Earthquake.tile,
      Hurricane.tile, sever_river;
    repeat match goal with
      | |- context [if ?c then _ else _] => destruct c
      end;
    cbn; split; reflexivity.
Qed.

(** X18: a Raid that returns costs at least three resources, or all of
    them when fewer are left, whatever the severity. Against a
    settlement with five or more defenses and a non-negative severity
    that is all it costs, and unless the raid is severe (above 1.3) the
    buildings are left alone. *)
Theorem raid_toll (state : SettlementState) (world : World) :
  fst (apply Raid (state, world)) = Ok tt ->
  let state' := settlement_after Raid (state, world) in
  resources state' <= Z.max 0 (resources state - 3) /\
  (5 <= defenses state ->
   Binary64.leb Binary64.zero (Event.severity state world) = true ->
   resources state' = Z.max 0 (resources state - 3) /\
   (Binary64.ltb Binary64.c1_3 (Event.severity state world) = false ->
    buildings state' = Z.max 0 (buildings state))).
Proof.
  unfold settlement_after. cbv zeta.
  set (sev := Event.severity state world).
  assert (Htile : forall mid,
            let st' := fst (snd (on_tile (tile_rule Raid sev) (mid, world))) in
            resources st' = resources mid /\
            (Binary64.ltb Binary64.c1_3 sev = false ->
             buildings st' = buildings mid)).
  { intros mid. cbv zeta.
    destruct (on_tile_cases (tile_rule Raid sev) mid world)
      as [->|(x & y & h & _ & _ & _ & ->)]; [cbn; auto|].
    cbn [snd].
    pose proof (tile_rule_resources Raid sev h mid world) as [Hres _].
    pose proof (mild_tile_rule Raid sev h mid world) as Hm.
    destruct (tile_rule Raid sev h (mid, world)) as [h' [st' w']].
    cbn [fst snd] in *. split; [exact Hres|].
    intros Hmild. apply Hm. exact Hmild. }
  unfold apply, Raid.apply, bind, get_state, get_world, set_buildings,
    set_resources, modify, lift.
  cbn [fst snd]. fold sev.
  destruct (float_of_int (5 - defenses state)) as [d|] eqn:Hd;
    [|discriminate].
  destruct (int_of_float (Binary64.mul d sev)) as [z|] eqn:Hz;
    [|discriminate].
  cbn [fst snd]. intros _.
  change (on_tile (Raid.tile sev)) with (on_tile (tile_rule Raid sev)).
  match goal with
  | |- context [on_tile _ (?m, world)] => destruct (Htile m) as [-> Hb]
  end.
  cbn [resources with_buildings with_resources]. split; [lia|].
  intros Hdef Hsev.
  assert (z <= 0).
  { apply (int_of_float_sign _ z true Hz).
    apply (mul_sign_ok true false).
    - eapply float_of_int_nonpos; [exact Hd|lia].
    - apply leb_zero_sign. exact Hsev. }
  split; [lia|]. intros Hmild. rewrite (Hb Hmild).
  cbn [buildings with_buildings with_resources]. lia.
Qed.
End SignFacts.

(** * The choice of an event *)

Section ChoiceFacts.
Context {noise : NoiseOracle} {source : RandomSource} {lawful : Lawful source}.

(** Where the bisection of five cumulative weights ends. *)
Lemma bisect_five a0 a1 a2 a3 a4 x :
  bisect [a0; a1; a2; a3; a4] x 0 4
  = if Binary64.ltb x a2
    then if Binary64.ltb x a1
         then if Binary64.ltb x a0 then 0%nat else 1%nat
         else 2%nat
    else if Binary64.ltb x a3 then 3%nat else 4%nat.
Proof.
  cbv -[Binary64.ltb].
  destruct (Binary64.ltb x a2), (Binary64.ltb x a1), (Binary64.ltb x a0),
    (Binary64.ltb x a3); reflexivity.
Qed.

Lemma ltb_add_weightless x a w :
  weightless_weight w = true ->
  Binary64.ltb x (Binary64.add a w) = true -> Binary64.ltb x a = true.
Proof.
  unfold Binary64.ltb, Binary64.add, SFltb.
  destruct w as [sw|sw| |sw mw ew]; try discriminate; intros _.
  - destruct a as [sa|sa| |sa ma ea]; cbn [SFadd]; try (intros H; exact H).
    destruct x as [sx|sx| |sx mx ex], sa, sw; cbn; intros H; exact H.
  - destruct a as [sa|sa| |sa ma ea], x as [sx|sx| |sx mx ex];
      cbn [SFadd SFcompare]; discriminate.
Qed.

Lemma ltb_weightless x w :
  weightless_weight w = true -> sign_ok false x = true ->
  Binary64.ltb x w = false.
Proof.
  unfold Binary64.ltb, SFltb.
  destruct w as [sw|sw| |sw mw ew]; try discriminate; intros _;
    destruct x as [sx|[]| |[] mx ex]; cbn; congruence.
Qed.

Lemma positive_sign t :
  Binary64.leb t Binary64.zero = false -> Binary64.is_finite t = true ->
  sign_ok false t = true.
Proof.
  unfold Binary64.leb, SFleb, Binary64.zero.
  destruct t as [s|s| |[] m e]; cbn; congruence.
Qed.

(** The bisection never ends on a class that adds nothing to the
    cumulative weights, the last class apart. *)
Lemma weightless_skipped (self : EventSystem.t) (i : nat) (e : Event)
    (w : float) :
  ALL_EVENTS !! i = Some e ->
  e <> Hurricane ->
  EventSystem.weights self !! i = Some w ->
  weightless_weight w = true ->
  fst (EventSystem._choose_event self) <> Ok e.
Proof.
  intros He Hne Hw Hz.
  unfold EventSystem._choose_event, bind, get, EventSystem.on_rng.
  assert (Hws : exists w0 w1 w2 w3 w4,
            EventSystem.weights self = [w0; w1; w2; w3; w4])
    by (unfold EventSystem.weights; cbv zeta; eauto 6).
  destruct Hws as (w0 & w1 & w2 & w3 & w4 & Hws). rewrite Hws in *.
  unfold choices.
  cbn [accumulate accumulate_from length Nat.eqb negb ALL_EVENTS last].
  set (a1 := Binary64.add w0 w1). set (a2 := Binary64.add a1 w2).
  set (a3 := Binary64.add a2 w3). set (a4 := Binary64.add a3 w4).
  set (total := Binary64.add a4 Binary64.zero).
  destruct (Binary64.leb total Binary64.zero) eqn:Hle; [discriminate|].
  destruct (Binary64.is_finite total) eqn:Hfin; [|discriminate].
  cbn [negb]. pose proof (random_unit (EventSystem.rng self)) as (_ & Hr0 & _).
  destruct (random (EventSystem.rng self)) as [r g']. cbn [fst] in Hr0.
  set (x := Binary64.mul r total).
  assert (Hx : sign_ok false x = true).
  { apply (mul_sign_ok false false).
    - apply leb_zero_sign. exact Hr0.
    - apply positive_sign; assumption. }
  cbn [Nat.sub]. rewrite bisect_five.
  destruct i as [|[|[|[|[|i]]]]]; cbn in He, Hw;
    try discriminate; injection He as <-; injection Hw as <-;
    try (exfalso; apply Hne; reflexivity).
  - rewrite (ltb_weightless x w0 Hz Hx).
    destruct (Binary64.ltb x a2); [destruct (Binary64.ltb x a1)|
                                   destruct (Binary64.ltb x a3)];
      cbn; discriminate.
  - pose proof (ltb_add_weightless x w0 w1 Hz) as H. fold a1 in H.
    destruct (Binary64.ltb x a2);
      [destruct (Binary64.ltb x a1);
        [rewrite (H eq_refl)|]|destruct (Binary64.ltb x a3)];
      cbn; discriminate.
  - pose proof (ltb_add_weightless x a1 w2 Hz) as H. fold a2 in H.
    destruct (Binary64.ltb x a2);
      [rewrite (H eq_refl); destruct (Binary64.ltb x w0)
      |destruct (Binary64.ltb x a3)];
      cbn; discriminate.
  - pose proof (ltb_add_weightless x a2 w3 Hz) as H. fold a3 in H.
    destruct (Binary64.ltb x a3);
      [rewrite (H eq_refl); destruct (Binary64.ltb x a1);
         [destruct (Binary64.ltb x w0)|]
      |destruct (Binary64.ltb x a2);
         [destruct (Binary64.ltb x a1); [destruct (Binary64.ltb x w0)|]|]];
      cbn; discriminate.
Qed.

(** X19: an event whose weight is a zero or NaN is never chosen, if it
    is not the last of the five classes, on which the bisection is
    clamped. *)
Theorem weightless_event_not_chosen (self : EventSystem.t) (i : nat)
    (e : Event) (w : float) :
  ALL_EVENTS !! i = Some e ->
  e <> Hurricane ->
  EventSystem.weights self !! i = Some w ->
  weightless_weight w = true ->
  fst (EventSystem._choose_event self) <> Ok e.
Proof. exact (weightless_skipped self i e w). Qed.

Lemma mul_zero_weightless x s :
  weightless_weight (Binary64.mul x (S754_zero s)) = true.
Proof. destruct x; reflexivity. Qed.

(** X20: the settings switch events off. With [moisture] 0.0 no Flood is
    ever chosen, with [moisture] 1.0 no Drought, with [plate_activity]
    0.0 no Earthquake, and with a ["raid"] weight of 0.0 no Raid,
    whatever the other weights and the generator. *)
Theorem settings_switch_events_off (self : EventSystem.t) :
  (moisture (EventSystem.settings self) = Binary64.zero ->
   fst (EventSystem._choose_event self) <> Ok Flood) /\
  (moisture (EventSystem.settings self) = Binary64.one ->
   fst (EventSystem._choose_event self) <> Ok Drought) /\
  (plate_activity (EventSystem.settings self) = Binary64.zero ->
   fst (EventSystem._choose_event self) <> Ok Earthquake) /\
  (EventSystem.event_weights self !! "raid"%string = Some Binary64.zero ->
   fst (EventSystem._choose_event self) <> Ok Raid).
Proof.
  split; [|split; [|split]]; intros H.
  - eapply (weightless_skipped self 0 Flood);
      [reflexivity|discriminate|reflexivity|].
    rewrite H. apply mul_zero_weightless.
  - eapply (weightless_skipped self 1 Drought);
      [reflexivity|discriminate|reflexivity|].
    rewrite H.
    change (Binary64.sub (Binary64.of_Z 1) Binary64.one) with (S754_zero false).
    apply mul_zero_weightless.
  - eapply (weightless_skipped self 3 Earthquake);
      [reflexivity|discriminate|reflexivity|].
    rewrite H. apply mul_zero_weightless.
  - eapply (weightless_skipped self 2 Raid);
      [reflexivity|discriminate|reflexivity|].
    rewrite H. reflexivity.
Qed.
End ChoiceFacts.

(** * Severity at its edges *)

Section SeverityEdges.
Context {noise : NoiseOracle} {source : RandomSource}.
Import Binary64 Binary64Facts.

Lemma canonical_unique m1 e1 m2 e2 :
  bounded prec emax m1 e1 = true -> bounded prec emax m2 e2 = true ->
  Z.pos m1 * 2 ^ (e1 - emin) = Z.pos m2 * 2 ^ (e2 - emin) ->
  m1 = m2 /\ e1 = e2.
Proof.
  intros H1 H2 Heq. pose proof (mag_compare m1 e1 m2 e2 H1 H2) as Hc.
  rewrite Heq, Z.compare_refl in Hc.
  destruct (Z.compare_spec e1 e2) as [->| |]; try discriminate.
  split; [|reflexivity]. apply Pos.compare_eq. exact Hc.
Qed.

(** Multiplying by 1.0 is exact. *)
Lemma mul_one_l x : valid x = true -> mul one x = x.
Proof.
  intros Vx. destruct x as [s|s| |s m e]; try reflexivity.
  assert (Hg : good (mul one (S754_finite s m e)) (ord (S754_finite s m e))).
  { rewrite <- (R_exact (S754_finite s m e) Vx eq_refl).
    rewrite Z.mul_comm. apply (mul_spec one (S754_finite s m e)); reflexivity || exact Vx. }
  pose proof (mul_sign_ok false s one (S754_finite s m e) eq_refl
                (eqb_reflx s)) as Hs.
  cbn [xorb] in Hs. fold mul in Hs.
  destruct Hg as (V & N & Ho).
  pose proof (Rpos_exact m e Vx) as [_ Hlt].
  assert (Hpos : 0 < Z.pos m * 2 ^ (e - emin))
    by (apply Z.mul_pos_pos; [lia|apply Z.pow_pos_nonneg; [lia|];
        destruct (canonical_facts m e Vx); lia]).
  destruct (mul one (S754_finite s m e)) as [s'|s'| |s' m' e'];
    cbn [ord sign_ok] in *; try discriminate.
  - destruct s; cbn [cond_opp] in Ho; lia.
  - apply eqb_prop in Hs. subst s'. destruct s; cbn [cond_opp] in Ho; lia.
  - apply eqb_prop in Hs. subst s'.
    destruct (canonical_unique m' e' m e V Vx) as [-> ->]; [|reflexivity].
    destruct s; cbn [cond_opp] in Ho; lia.
Qed.

(** X21: without a location the severity is exactly
    [1 + disaster_intensity], whatever the noise, the seed and the
    generator. *)
Theorem severity_without_location (state : SettlementState) (world : World) :
  location state = None ->
  valid (disaster_intensity (settings world)) = true ->
  Event.severity state world
  = add one (disaster_intensity (settings world)).
Proof.
  intros Hl Vd. unfold Event.severity, Event.base. rewrite Hl.
  apply mul_one_l.
  destruct (disaster_intensity (settings world)) as [s|s| |s m e] eqn:Hd;
    try reflexivity.
  apply (add_spec one (S754_finite s m e)); reflexivity || exact Vd.
Qed.

Lemma mul_nonfinite x y : is_finite y = false -> is_finite (mul x y) = false.
Proof. destruct x, y; try discriminate; reflexivity. Qed.

Lemma convert_nonfinite x r :
  is_finite x = false ->
  (r = trunc x \/ r = round_even x) ->
  exists er, convert x r = Raise er.
Proof.
  intros Hf [-> | ->]; destruct x; try discriminate; cbn; eauto.
Qed.

(** X22: when the severity is an infinity or NaN, every [apply] raises
    at its first damage rule and leaves the settlement and the world as
    it found them. *)
Theorem nonfinite_severity_raises (e : Event) (state : SettlementState)
    (world : World) :
  is_finite (Event.severity state world) = false ->
  exists er, apply e (state, world) = (Raise er, (state, world)).
Proof.
  intros Hf. set (sev := Event.severity state world) in *.
  assert (Hc : forall x, exists er, int_of_float (mul x sev) = Raise er).
  { intros x. apply convert_nonfinite; [apply mul_nonfinite, Hf|auto]. }
  assert (Hr : forall x, exists er, py_round (mul x sev) = Raise er).
  { intros x. apply convert_nonfinite; [apply mul_nonfinite, Hf|auto]. }
  unfold apply.
  destruct e;
    unfold Flood.apply, Drought.apply, Raid.apply, Earthquake.apply,
      Hurricane.apply, bind, get_state, get_world, lift;
    cbn [fst snd]; fold sev;
    (destruct (float_of_int _) as [b|er]; [|eauto]).
  - destruct (Hr (mul c0_3 b)) as [er ->]. eauto.
  - destruct (Hc (mul c0_2 b)) as [er ->]. eauto.
  - destruct (Hc b) as [er ->]. eauto.
  - destruct (Hc (mul c0_4 b)) as [er ->]. eauto.
  - destruct (Hc (mul c0_3 b)) as [er ->]. eauto.
Qed.
End SeverityEdges.

(** * Defenses *)

Section DefenseFacts.
Context {noise : NoiseOracle} {source : RandomSource}.

Lemma on_tile_buildings k st w :
  (forall h s, buildings (fst (snd (k h s))) = buildings (fst s)) ->
  buildings (fst (snd (on_tile k (st, w)))) = buildings st.
Proof.
  intros Hk.
  apply (on_tile_settlement (fun s => buildings s = buildings st) k);
    [|reflexivity].
  intros h s Hs. rewrite Hk. exact Hs.
Qed.

Lemma storm_tile_buildings e sev h s :
  e = Flood \/ e = Hurricane ->
  buildings (fst (snd (tile_rule e sev h s))) = buildings (fst s).
Proof.
  destruct s as [st w].
  intros [-> | ->]; cbn [tile_rule]; unfold Flood.tile, Hurricane.tile;
    repeat match goal with
      | |- context [if ?c then _ else _] => destruct c
      end;
    try (destruct (sever_river _ _)); try (destruct (String.eqb _ _));
    reflexivity.
Qed.

(** X23: against a Flood or a Hurricane, defenses protect buildings: of
    two settlements that differ in their defenses only, the better
    defended one is left with at least as many buildings. *)
Theorem defenses_protect_buildings (e : Event) (state : SettlementState)
    (world : World) (d d' : Z) :
  e = Flood \/ e = Hurricane ->
  d <= d' ->
  buildings (settlement_after e (with_defenses d state, world))
  <= buildings (settlement_after e (with_defenses d' state, world)).
Proof.
  intros He Hd. unfold settlement_after, apply.
  set (sev := Event.severity state world).
  assert (Ht : forall e0 st, e0 = Flood \/ e0 = Hurricane ->
            buildings (fst (snd (on_tile (tile_rule e0 sev) (st, world))))
            = buildings st).
  { intros e0 st He0. apply on_tile_buildings.
    intros h s. apply storm_tile_buildings. exact He0. }
  pose proof (Ht Flood) as HtF. pose proof (Ht Hurricane) as HtH.
  cbn [tile_rule] in HtF, HtH.
  destruct He as [-> | ->];
    unfold Flood.apply, Hurricane.apply, bind, get_state, get_world,
      set_buildings, set_resources, modify, lift;
    cbn [fst snd];
    change (Event.severity (with_defenses d state) world) with sev;
    change (Event.severity (with_defenses d' state) world) with sev;
    fold sev;
    cbn [fst snd buildings with_defenses defenses location resources];
    repeat match goal with
      | |- context [match ?o with Ok _ => _ | Raise _ => _ end] =>
          destruct o; cbn [fst snd buildings with_defenses with_buildings
                             with_resources defenses location resources]
      end;
    rewrite ?HtF, ?HtH by auto;
    cbn [buildings with_defenses with_buildings with_resources];
    lia.
Qed.

(** X24: defenses are of no use against a Drought or an Earthquake: the
    event returns or raises alike and leaves the same counters and the
    same world, whatever the defenses. *)
Theorem defenses_ignored (e : Event) (state : SettlementState)
    (world : World) (d : Z) :
  e = Drought \/ e = Earthquake ->
  fst (apply e (with_defenses d state, world)) = fst (apply e (state, world)) /\
  settlement_after e (with_defenses d state, world)
  = with_defenses d (settlement_after e (state, world)) /\
  world_after e (with_defenses d state, world) = world_after e (state, world).
Proof.
  intros He. unfold settlement_after, world_after, apply.
  set (sev := Event.severity state world).
  assert (Ht : forall e0 mid, e0 = Drought \/ e0 = Earthquake ->
            on_tile (tile_rule e0 sev) (with_defenses d mid, world)
            = (fst (on_tile (tile_rule e0 sev) (mid, world)),
               (with_defenses d
                  (fst (snd (on_tile (tile_rule e0 sev) (mid, world)))),
                snd (snd (on_tile (tile_rule e0 sev) (mid, world)))))).
  { intros e0 mid He0.
    unfold on_tile, bind, get_state, get_world, modify, ret.
    cbn [fst snd location with_defenses].
    destruct (location mid) as [[x y]|]; [|reflexivity].
    destruct (world_changes (settings world)); [|reflexivity].
    destruct (world_get world x y) as [h|]; [|reflexivity].
    destruct He0 as [-> | ->]; cbn [tile_rule];
      unfold Drought.tile, Earthquake.tile;
      repeat match goal with
        | |- context [if ?c then _ else _] => destruct c
        end; reflexivity. }
  pose proof (Ht Drought) as HtD. pose proof (Ht Earthquake) as HtE.
  cbn [tile_rule] in HtD, HtE.
  destruct He as [-> | ->];
    unfold Drought.apply, Earthquake.apply, bind, get_state, get_world,
      set_buildings, set_resources, set_population, modify, lift;
    cbn [fst snd];
    change (Event.severity (with_defenses d state) world) with sev;
    fold sev;
    cbn [fst snd buildings population with_defenses defenses location
           resources];
    repeat match goal with
      | |- context [match ?o with Ok _ => _ | Raise _ => _ end] =>
          destruct o; cbn [fst snd]
      end;
    try (repeat split; reflexivity).
  - change (with_population ?p (with_resources ?r (with_defenses d state)))
      with (with_defenses d (with_population p (with_resources r state))).
    rewrite HtD by auto. repeat split; reflexivity.
  - change (with_population ?p (with_buildings ?b (with_defenses d state)))
      with (with_defenses d (with_population p (with_buildings b state))).
    rewrite HtE by auto. repeat split; reflexivity.
Qed.

(** X25: a severe Earthquake (severity above 1.3) that returns turns the
    tile of the settlement into mountains and changes nothing else of
    the world: the flags of the tile, its moisture and both registries
    stay, so that a river or a lake can lie on the new mountains. *)
Theorem severe_earthquake_tile (state : SettlementState) (world : World)
    (x y : Z) (h : Hex) :
  location state = Some (x, y) ->
  world_changes (settings world) = true ->
  world_get world x y = Some h ->
  Binary64.ltb Binary64.c1_3 (Event.severity state world) = true ->
  fst (apply Earthquake (state, world)) = Ok tt ->
  world_after Earthquake (state, world)
  = with_tile (x, y) (with_terrain "mountains" h) world.
Proof.
  intros Hloc Hch Hg Hsev Hr. unfold world_after.
  destruct (apply_hit Earthquake state world x y h Hloc Hch Hg Hr) as [mid ->].
  cbn [tile_rule]. unfold Earthquake.tile. rewrite Hsev. reflexivity.
Qed.
End DefenseFacts.

(** * The defaults of [world/settings.py] *)

Section DefaultFacts.
Context {noise : NoiseOracle} {source : RandomSource} {lawful : Lawful source}.
Import Scenario.

Lemma default_delay (n : nat) :
  (n < 31)%nat ->
  match float_of_int (30 + Z.of_nat n) with
  | Ok b =>
      match int_of_float
              (Binary64.mul b (EventSystem.weather_factor default_settings))
      with
      | Ok d => (37 <=? d) && (d <=? 75)
      | Raise _ => false
      end
  | Raise _ => false
  end = true.
Proof.
  intros Hn. do 31 (destruct n as [|n]; [vm_compute; reflexivity|]). lia.
Qed.

(** X26: with the defaults of [WorldSettings], and whatever the
    generator and the weights, [EventSystem] can be constructed, and its
    first event is scheduled between turn 37 and turn 75. *)
Theorem default_first_event (fresh : generator) (rng : option generator)
    (event_weights : option (gmap string float)) :
  exists self,
    EventSystem.__init__ fresh default_settings rng event_weights = Ok self /\
    37 <= EventSystem.next_event_turn self <= 75.
Proof.
  unfold EventSystem.__init__, EventSystem._schedule_next, bind, get, lift,
    ret, EventSystem.on_rng.
  cbn [EventSystem.settings EventSystem.rng EventSystem.turn_counter fst snd].
  change (EventSystem.min_base default_settings) with (@Ok Z 30).
  change (EventSystem.max_base default_settings) with (@Ok Z 60).
  cbn [fst snd].
  destruct (randint_range 30 60 (match rng with Some g => g | None => fresh end)
              ltac:(lia)) as (base & g' & -> & Hb).
  cbn [fst snd].
  pose proof (default_delay (Z.to_nat (base - 30)) ltac:(lia)) as Hd.
  replace (30 + Z.of_nat (Z.to_nat (base - 30))) with base in Hd by lia.
  destruct (float_of_int base) as [b|]; [|discriminate].
  destruct (int_of_float _) as [dl|]; [|discriminate].
  apply andb_true_iff in Hd. destruct Hd as [H1 H2].
  apply Z.leb_le in H1, H2.
  eexists. split; [reflexivity|].
  cbn [EventSystem.next_event_turn EventSystem.with_next_event_turn]. lia.
Qed.
End DefaultFacts.

(** * The further properties, on concrete settlements and systems *)

Section Instances.
Import Scenario Cases.

Lemma quiet_turns_witness :
  @EventSystem.run flat_noise lcg_source 50
    (started, (village, world_of default_settings))
  = (Ok (replicate 50 None),
     (EventSystem.with_turn_counter 50 started,
      (village, world_of default_settings))).
Proof.
  apply (@quiet_turns flat_noise lcg_source 50
           (started, (village, world_of default_settings))).
  reflexivity.
Defined.

Lemma advance_turn_keeps_ahead_witness :
  scheduled_ahead started /\
  scheduled_ahead
    (fst (snd (@EventSystem.advance_turn flat_noise lcg_source
                 (started, (village, world_of default_settings))))).
Proof.
  split; [reflexivity|].
  apply (@advance_turn_keeps_ahead flat_noise lcg_source
           (started, (village, world_of default_settings)) None);
    reflexivity.
Defined.

Lemma init_schedules_ahead_witness :
  EventSystem.turn_counter started = 0 /\
  2 <= EventSystem.next_event_turn started /\
  scheduled_ahead started.
Proof.
  destruct (@init_schedules_ahead lcg_source 1 default_settings (Some 42) None
              started eq_refl) as (H0 & H2 & Ha & _).
  exact (conj H0 (conj H2 Ha)).
Defined.

Lemma run_spaces_events_witness :
  events_spaced [None; None; None] = true /\
  EventSystem.turn_counter
    (fst (snd (@EventSystem.run flat_noise lcg_source 3
                 (started, (village, world_of default_settings)))))
  = 3.
Proof.
  destruct (@run_spaces_events flat_noise lcg_source 3
              (started, (village, world_of default_settings))
              [None; None; None] eq_refl eq_refl) as (_ & Hs & _ & Hc).
  exact (conj Hs Hc).
Defined.

Lemma failed_choice_is_permanent_witness :
  @EventSystem.advance_turn flat_noise lcg_source
    (EventSystem.with_turn_counter 7 weightless, (village, world_of still))
  = (Raise ValueError,
     (EventSystem.with_turn_counter 8 weightless, (village, world_of still))).
Proof.
  apply (@failed_choice_is_permanent flat_noise lcg_source weightless
           (village, world_of still) ValueError 7).
  - cbn. lia.
  - vm_compute. reflexivity.
Defined.

Lemma event_weights_defaults_witness :
  EventSystem.weights
    (with_event_weights (<["raid"%string := Binary64.one]> ∅) tableless)
  = EventSystem.weights tableless.
Proof.
  apply (@event_weights_defaults lcg_source tableless "raid" Binary64.one).
  right. split; reflexivity.
Defined.

Lemma apply_keeps_flags_witness :
  exists h',
    tiles (@world_after flat_noise lcg_source Earthquake
             (village, world_of extreme)) !! (0, 0) = Some h' /\
    (flooded river_plain = true -> flooded h' = true) /\
    (ruined river_plain = true -> ruined h' = true) /\
    (river river_plain = false -> river h' = false).
Proof.
  apply (@apply_keeps_flags flat_noise lcg_source Earthquake village
           (world_of extreme) (0, 0) river_plain).
  reflexivity.
Defined.

Lemma raised_apply_keeps_world_witness :
  @world_after flat_noise lcg_source Flood (crowded, world_of extreme)
  = world_of extreme.
Proof.
  apply (@raised_apply_keeps_world flat_noise lcg_source Flood crowded
           (world_of extreme) OverflowError).
  vm_compute. reflexivity.
Defined.

Lemma mild_event_keeps_terrain_witness :
  rivers (@world_after flat_noise lcg_source Hurricane
            (village, world_of default_settings))
  = rivers (world_of default_settings).
Proof.
  apply (@mild_event_keeps_terrain flat_noise lcg_source Hurricane village
           (world_of default_settings)).
  vm_compute. reflexivity.
Defined.

Lemma severe_storm_tile_witness :
  exists h',
    world_get (@world_after flat_noise lcg_source Flood
                 (village, world_of extreme)) 0 0 = Some h' /\
    flooded h' = true /\ river h' = false.
Proof.
  destruct (@severe_storm_tile flat_noise lcg_source Flood village
              (world_of extreme) 0 0 river_plain)
    as (h' & Hg & Hf & Hr & _).
  - left. reflexivity.
  - reflexivity.
  - reflexivity.
  - reflexivity.
  - vm_compute. reflexivity.
  - vm_compute. reflexivity.
  - exists h'. exact (conj Hg (conj Hf Hr)).
Defined.

Lemma drought_tile_witness :
  exists h',
    world_get (@world_after flat_noise lcg_source Drought
                 (village, world_of extreme)) 0 0 = Some h' /\
    Binary64.leb Binary64.zero (hex_moisture h') = true.
Proof.
  destruct (@drought_tile flat_noise lcg_source village (world_of extreme)
              0 0 river_plain)
    as (h' & Hg & Hm & _).
  - reflexivity.
  - reflexivity.
  - reflexivity.
  - vm_compute. reflexivity.
  - exists h'. exact (conj Hg Hm).
Defined.

Lemma severe_raid_razes_witness :
  buildings (@settlement_after flat_noise lcg_source Raid
               (village, world_of extreme)) = 0.
Proof.
  apply (@severe_raid_razes flat_noise lcg_source village (world_of extreme)
           0 0 river_plain).
  - reflexivity.
  - reflexivity.
  - reflexivity.
  - vm_compute. reflexivity.
  - vm_compute. reflexivity.
Defined.

Lemma apply_never_gains_witness :
  nonneg village /\
  resources (@settlement_after flat_noise lcg_source Flood
               (village, world_of extreme)) <= resources village.
Proof.
  split; [exact village_nonneg|].
  apply (@apply_never_gains flat_noise lcg_source Flood village
           (world_of extreme)).
  - exact village_nonneg.
  - vm_compute. reflexivity.
Defined.

Lemma raid_toll_witness :
  fst (@apply flat_noise lcg_source Raid (village, world_of extreme)) = Ok tt /\
  resources (@settlement_after flat_noise lcg_source Raid
               (village, world_of extreme))
  <= Z.max 0 (resources village - 3).
Proof.
  split; [vm_compute; reflexivity|].
  apply (@raid_toll flat_noise lcg_source village (world_of extreme)).
  vm_compute. reflexivity.
Defined.

Lemma weightless_event_not_chosen_witness :
  fst (EventSystem._choose_event parched) = Ok Raid /\
  fst (EventSystem._choose_event parched) <> Ok Flood.
Proof.
  split; [vm_compute; reflexivity|].
  apply (@weightless_event_not_chosen lcg_source lcg_lawful parched 0 Flood
           (S754_zero false)).
  - reflexivity.
  - discriminate.
  - vm_compute. reflexivity.
  - reflexivity.
Defined.

Lemma settings_switch_events_off_witness :
  plate_activity (EventSystem.settings parched) = Binary64.zero /\
  fst (EventSystem._choose_event parched) <> Ok Earthquake.
Proof.
  split; [reflexivity|].
  apply (@settings_switch_events_off lcg_source lcg_lawful parched).
  reflexivity.
Defined.

Lemma severity_without_location_witness :
  @Event.severity flat_noise lcg_source homeless (world_of extreme)
  = Binary64.add Binary64.one (disaster_intensity (settings (world_of extreme))).
Proof.
  apply (@severity_without_location flat_noise lcg_source homeless
           (world_of extreme)).
  - reflexivity.
  - vm_compute. reflexivity.
Defined.

Lemma nonfinite_severity_raises_witness :
  exists er,
    @apply flat_noise lcg_source Raid (village, world_of broken)
    = (Raise er, (village, world_of broken)).
Proof.
  apply (@nonfinite_severity_raises flat_noise lcg_source Raid village
           (world_of broken)).
  vm_compute. reflexivity.
Defined.

Lemma defenses_protect_buildings_witness :
  0 <= 5 /\
  buildings (@settlement_after flat_noise lcg_source Hurricane
               (with_defenses 0 village, world_of extreme))
  <= buildings (@settlement_after flat_noise lcg_source Hurricane
                  (with_defenses 5 village, world_of extreme)).
Proof.
  split; [lia|].
  apply (@defenses_protect_buildings flat_noise lcg_source Hurricane village
           (world_of extreme) 0 5).
  - right. reflexivity.
  - lia.
Defined.

Lemma defenses_ignored_witness :
  @world_after flat_noise lcg_source Drought
    (with_defenses 9 village, world_of extreme)
  = @world_after flat_noise lcg_source Drought (village, world_of extreme).
Proof.
  apply (@defenses_ignored flat_noise lcg_source Drought village
           (world_of extreme) 9).
  left. reflexivity.
Defined.

Lemma severe_earthquake_tile_witness :
  @world_after flat_noise lcg_source Earthquake (village, world_of extreme)
  = with_tile (0, 0) (with_terrain "mountains" river_plain) (world_of extreme).
Proof.
  apply (@severe_earthquake_tile flat_noise lcg_source village
           (world_of extreme) 0 0 river_plain).
  - reflexivity.
  - reflexivity.
  - reflexivity.
  - vm_compute. reflexivity.
  - vm_compute. reflexivity.
Defined.

Lemma default_first_event_witness :
  exists self,
    @EventSystem.__init__ lcg_source 1 default_settings (Some 42) None
    = Ok self /\
    37 <= EventSystem.next_event_turn self <= 75.
Proof.
  exact (@default_first_event lcg_source lcg_lawful 1 (Some 42) None).
Defined.
End Instances.

(** * A settlement whose tile the world does not hold *)

Section MissingTile.
Context {noise : NoiseOracle} {source : RandomSource}.





End MissingTile.

Section MissingTileInstance.
Import Scenario.

End MissingTileInstance.
